(** * Verification of the audio utilities of TSS ([src/utils/audio.ts])

    The development embeds the two exported functions of [src/utils/audio.ts]
    ([decodeAudioData] with its helper [manualPCMDecode], and
    [audioBufferToWav]) together with the ECMAScript and Web Audio primitives
    they call, and proves or refutes the properties the specification states
    about them. It also embeds the parts of the application ([App.tsx], with
    the types of [types.ts]) that compute on data: the voice table and
    [getApiVoiceName], the updates of the settings, the updates of the
    history, and the decode-then-encode step of [handleGenerate].

    Conventions of the embedding:
    - a JavaScript Number that is the result of floating-point arithmetic is
      an IEEE-754 binary64 value ([spec_float] at precision 53); the elements
      of a [Float32Array] are binary32 values (precision 24);
    - a JavaScript Number that the platform guarantees to be an integer
      (array lengths, byte offsets, channel counts, the sample rate, the
      results of [| 0]) is a [Z]; the arithmetic of the source on such numbers
      is exact below 2^53;
    - a byte is a [Z] in [0, 256); an [ArrayBuffer] is a list of bytes; the
      buffers [decodeAudioData] handles live in a store, since the platform
      detaches the one it decodes;
    - a thrown exception (or a rejected promise that is awaited) is the
      [Throw] outcome of a computation; loops run on fuel, and running out of
      it is the outcome [OutOfFuel], which the theorems show does not occur;
    - what the engine decides (whether an [ArrayBuffer] of a given length
      can be created) and what the platform's container decoder answers are
      parameters of the model;
    - a string enum of [types.ts] is an inductive type, an interface a
      record; a state update [setX(prev => ...)] is the function it passes.

    Layout: the model of the source, then the definitions the statements
    need, then the proofs: facts on float rounding, on bytes, on the loops,
    the closed forms of the encoder and of the fallback decoder, the
    properties of the specification, each marked with its identifier (C1 to
    C10), and last further properties of the code (X1 to X13). *)

From Stdlib Require Import ZArith List Bool String Ascii Lia QArith Qminmax.
From Stdlib Require Import Floats.SpecFloat.
From stdpp Require Import base list.

#[local] Open Scope Z_scope.

(** ** Outcomes of computations *)

(** The DOM and ECMAScript exceptions the modelled code can raise. *)
Inductive exn : Set :=
| RangeError
| TypeError
| IndexSizeError
| NotSupportedError
| InvalidCharacterError
| DataCloneError
| EncodingError.

(** A computation returns a value, throws, or (for the loops of the model,
    which run on fuel) exhausts its fuel. *)
Inductive result (A : Type) : Type :=
| Ok (a : A)
| Throw (e : exn)
| OutOfFuel.

Arguments Ok {A} a.
Arguments Throw {A} e.
Arguments OutOfFuel {A}.

(** Sequencing: the first throw (or fuel exhaustion) ends the computation.
    The notations [x ← m; k] and [m;; k] are those of stdpp's [mbind]. *)
#[global] Instance result_ret : MRet result := fun A a => Ok a.
#[global] Instance result_bind : MBind result := fun A B k m =>
  match m with
  | Ok a => k a
  | Throw e => Throw e
  | OutOfFuel => OutOfFuel
  end.

(** [loop fuel cond body s] is [while (cond(s)) s = body(s)]. *)
Fixpoint loop {S : Type} (fuel : nat) (cond : S -> bool)
    (body : S -> result S) (s : S) : result S :=
  match fuel with
  | O => OutOfFuel
  | Datatypes.S fuel' =>
      if cond s then
        match body s with
        | Ok s' => loop fuel' cond body s'
        | Throw e => Throw e
        | OutOfFuel => OutOfFuel
        end
      else Ok s
  end.

(** ** ECMAScript numbers *)

Module JS.

(** binary64 and binary32 parameters. *)
Definition prec64 : Z := 53.
Definition emax64 : Z := 1024.
Definition prec32 : Z := 24.
Definition emax32 : Z := 128.

Abbreviation Number := spec_float (only parsing).
Abbreviation float32 := spec_float (only parsing).

Definition NaN : Number := S754_nan.

(** The Number of an integer literal or integer value. *)
Definition of_Z (z : Z) : Number := binary_normalize prec64 emax64 z 0 false.

(** The literal [0.5]. *)
Definition half : Number := binary_normalize prec64 emax64 1 (-1) false.

Definition add (x y : Number) : Number := SFadd prec64 emax64 x y.
Definition mul (x y : Number) : Number := SFmul prec64 emax64 x y.
Definition div (x y : Number) : Number := SFdiv prec64 emax64 x y.

(** [x < y]; false when either side is NaN. *)
Definition lt (x y : Number) : bool := SFltb x y.

(** [Math.min(x, y)]: NaN if either is NaN; -0 is below +0. *)
Definition Math_min (x y : Number) : Number :=
  match SFcompare x y with
  | None => NaN
  | Some Lt => x
  | Some Gt => y
  | Some Eq =>
      match x, y with
      | S754_zero true, _ => x
      | _, S754_zero true => y
      | _, _ => x
      end
  end.

(** [Math.max(x, y)]: NaN if either is NaN; +0 is above -0. *)
Definition Math_max (x y : Number) : Number :=
  match SFcompare x y with
  | None => NaN
  | Some Gt => x
  | Some Lt => y
  | Some Eq =>
      match x, y with
      | S754_zero false, _ => x
      | _, S754_zero false => y
      | _, _ => x
      end
  end.

(** The integer part of a finite Number, truncated toward zero. *)
Definition truncate (x : Number) : Z :=
  match x with
  | S754_finite s m e => cond_Zopp s (Z.shiftl (Z.pos m) e)
  | _ => 0
  end.

(** [ToInt32]: NaN, zeros and infinities give 0, a finite number is
    truncated and wrapped into [-2^31, 2^31). *)
Definition ToInt32 (x : Number) : Z :=
  (truncate x + 2 ^ 31) mod 2 ^ 32 - 2 ^ 31.

(** [x | 0]. *)
Definition bitor0 (x : Number) : Z := ToInt32 x.

(** Reading a [Float32Array] element as a Number (exact widening). *)
Definition of_float32 (x : float32) : Number :=
  match x with
  | S754_finite s m e => binary_round prec64 emax64 s m e
  | _ => x
  end.

(** Storing a Number into a [Float32Array] element (round to binary32). *)
Definition to_float32 (x : Number) : float32 :=
  match x with
  | S754_finite s m e => binary_round prec32 emax32 s m e
  | _ => x
  end.

(** [ToNumber] of a possibly [undefined] array element. *)
Definition ToNumber (v : option float32) : Number :=
  match v with
  | Some x => of_float32 x
  | None => NaN
  end.

(** The exact rational value of a finite float, for stating results. *)
Definition to_Q (x : spec_float) : option Q :=
  match x with
  | S754_zero _ => Some 0%Q
  | S754_finite s m e =>
      Some (match e with
            | Z0 => inject_Z (cond_Zopp s (Z.pos m))
            | Z.pos p => inject_Z (cond_Zopp s (Z.pos m) * 2 ^ Z.pos p)
            | Z.neg p => Qmake (cond_Zopp s (Z.pos m)) (2 ^ p)%positive
            end)
  | _ => None
  end.

End JS.

(** ** Typed arrays and [DataView] over a byte list *)

Abbreviation byte := Z (only parsing).

(** The [n] little-endian bytes of [v] modulo [256^n]; on a negative [v]
    these are the bytes of its two's complement. *)
Fixpoint le_bytes (n : nat) (v : Z) : list byte :=
  match n with
  | O => []
  | S n' => v mod 256 :: le_bytes n' (v / 256)
  end.

(** Overwrite the bytes from index [pos] on. *)
Fixpoint write_bytes (buf : list byte) (pos : nat) (bs : list byte) : list byte :=
  match bs with
  | [] => buf
  | b :: bs' => write_bytes (<[pos := b]> buf) (S pos) bs'
  end.

Module DataView.

(** [view.setUintN(byteOffset, value, true)] for a view over the whole of
    [buf]: a RangeError when the [width] bytes do not fit, otherwise the
    value is wrapped to the width and stored low byte first. *)
Definition set (width : nat) (buf : list byte) (byteOffset value : Z)
  : result (list byte) :=
  if (byteOffset <? 0) || (Z.of_nat (length buf) <? byteOffset + Z.of_nat width)
  then Throw RangeError
  else Ok (write_bytes buf (Z.to_nat byteOffset) (le_bytes width value)).

Definition setUint16 := set 2.
Definition setUint32 := set 4.
(** [setInt16] stores the same two bytes as [setUint16]: the low 16 bits. *)
Definition setInt16 := set 2.

(** [getInt16(byteOffset, true)], also the element read of an
    [Int16Array] on a little-endian platform. *)
Definition getInt16 (buf : list byte) (byteOffset : nat) : option Z :=
  match buf !! byteOffset, buf !! S byteOffset with
  | Some lo, Some hi =>
      let u := lo + 256 * hi in
      Some (if u <? 32768 then u else u - 65536)
  | _, _ => None
  end.

Definition getUint16 (buf : list byte) (byteOffset : nat) : option Z :=
  match buf !! byteOffset, buf !! S byteOffset with
  | Some lo, Some hi => Some (lo + 256 * hi)
  | _, _ => None
  end.

Definition getUint32 (buf : list byte) (byteOffset : nat) : option Z :=
  match buf !! byteOffset, buf !! S byteOffset,
        buf !! S (S byteOffset), buf !! S (S (S byteOffset)) with
  | Some b0, Some b1, Some b2, Some b3 =>
      Some (b0 + 256 * b1 + 65536 * b2 + 16777216 * b3)
  | _, _, _, _ => None
  end.

End DataView.

(** [new ArrayBuffer(length)]: zero-filled; RangeError on a negative length. *)
Definition new_ArrayBuffer (len : Z) : result (list byte) :=
  if len <? 0 then Throw RangeError else Ok (replicate (Z.to_nat len) 0).

(** ** The Web Audio [AudioBuffer] *)

Module AudioBuffer.

Record t : Type := mk {
  numberOfChannels : Z;
  length : Z;
  sampleRate : Z;
  channelData : list (list JS.float32)
}.

(** [buffer.getChannelData(i)]: IndexSizeError when there is no channel
    [i]. *)
Definition getChannelData (b : t) (i : Z) : result (list JS.float32) :=
  if i <? 0 then Throw IndexSizeError
  else match channelData b !! Z.to_nat i with
       | Some ch => Ok ch
       | None => Throw IndexSizeError
       end.

(** The invariant of the data model: a positive channel count, a
    non-negative frame count, as many channels as the count says, and
    every channel holding exactly [length] samples. *)
Definition valid (b : t) : Prop :=
  0 < numberOfChannels b /\
  0 <= length b /\
  Z.of_nat (List.length (channelData b)) = numberOfChannels b /\
  Forall (fun ch => Z.of_nat (List.length ch) = length b) (channelData b).

End AudioBuffer.

(** [a[idx]] on a typed array: [undefined] outside the array. *)
Definition typed_get {A} (a : list A) (idx : Z) : option A :=
  if idx <? 0 then None else a !! Z.to_nat idx.

(** ** [audioBufferToWav] *)

Record Blob : Type := mkBlob {
  blob_bytes : list byte;
  blob_type : string
}.

Module Wav.

(** The local variables of [audioBufferToWav] that its loops and the two
    inner helpers [setUint16] and [setUint32] assign. ([i] is declared
    without a value; every loop assigns it before reading it.) *)
Record locals : Type := mkLocals {
  view : list byte;
  channels : list (list JS.float32);
  i : Z;
  offset : Z;
  pos : Z
}.

Definition M (A : Type) : Type := locals -> result (A * locals).

#[global] Instance M_ret : MRet M := fun A a st => Ok (a, st).
#[global] Instance M_bind : MBind M := fun A B k m st =>
  match m st with
  | Ok (a, st') => k a st'
  | Throw e => Throw e
  | OutOfFuel => OutOfFuel
  end.
Definition gets {A} (f : locals -> A) : M A := fun st => Ok (f st, st).

(** The helper [setUint16(data)] of the source: write at [pos], advance
    [pos] by 2. *)
Definition setUint16 (data : Z) : M unit := fun st =>
  v ← DataView.setUint16 (view st) (pos st) data;
  Ok (tt, mkLocals v (channels st) (i st) (offset st) (pos st + 2)).

(** The helper [setUint32(data)] of the source: write at [pos], advance
    [pos] by 4. *)
Definition setUint32 (data : Z) : M unit := fun st =>
  v ← DataView.setUint32 (view st) (pos st) data;
  Ok (tt, mkLocals v (channels st) (i st) (offset st) (pos st + 4)).

(** Lines 61-75: the WAVE header. *)
Definition write_header (buffer : AudioBuffer.t) (numOfChan length : Z) : M unit :=
  setUint32 0x46464952;;
  setUint32 (length - 8);;
  setUint32 0x45564157;;
  setUint32 0x20746d66;;
  setUint32 16;;
  setUint16 1;;
  setUint16 numOfChan;;
  setUint32 (AudioBuffer.sampleRate buffer);;
  setUint32 (AudioBuffer.sampleRate buffer * 2 * numOfChan);;
  setUint16 (numOfChan * 2);;
  setUint16 16;;
  setUint32 0x61746164;;
  p ← gets pos;
  setUint32 (length - p - 4).

(** Lines 78-79: collect the channels. *)
Definition push_channels (buffer : AudioBuffer.t) : M unit := fun st =>
  st' ←
    loop (S (Z.to_nat (AudioBuffer.numberOfChannels buffer)))
      (fun s => i s <? AudioBuffer.numberOfChannels buffer)
      (fun s =>
         ch ← AudioBuffer.getChannelData buffer (i s);
         Ok (mkLocals (view s) (channels s ++ [ch]) (i s + 1) (offset s) (pos s)))
      (mkLocals (view st) (channels st) 0 (offset st) (pos st));
  Ok (tt, st').

(** Line 84: [Math.max(-1, Math.min(1, x))]. *)
Definition clamp (x : JS.Number) : JS.Number :=
  JS.Math_max (JS.of_Z (-1)) (JS.Math_min (JS.of_Z 1) x).

(** Line 85: [(0.5 + sample < 0 ? sample * 32768 : sample * 32767) | 0]. *)
Definition scale (sample : JS.Number) : Z :=
  JS.bitor0
    (if JS.lt (JS.add JS.half sample) (JS.of_Z 0)
     then JS.mul sample (JS.of_Z 32768)
     else JS.mul sample (JS.of_Z 32767)).

(** Lines 84-85: clamp, then scale to a 16-bit signed integer. *)
Definition quantize (x : JS.Number) : Z := scale (clamp x).

(** [channels[i][pos]]; reading a property of a missing [channels[i]] is a
    TypeError. *)
Definition read_sample (st : locals) : result JS.Number :=
  match typed_get (channels st) (i st) with
  | Some ch => Ok (JS.ToNumber (typed_get ch (pos st)))
  | None => Throw TypeError
  end.

(** Lines 82-88: one frame, all channels. *)
Definition write_frame (numOfChan : Z) (st : locals) : result locals :=
  loop (S (Z.to_nat numOfChan))
    (fun s => i s <? numOfChan)
    (fun s =>
       x ← read_sample s;
       let sample := quantize x in
       v ← DataView.setInt16 (view s) (44 + offset s) sample;
       Ok (mkLocals v (channels s) (i s + 1) (offset s + 2) (pos s)))
    (mkLocals (view st) (channels st) 0 (offset st) (pos st)).

(** Lines 81-90: the frames, while [pos < buffer.length]. *)
Definition write_data (buffer : AudioBuffer.t) (numOfChan : Z) : M unit := fun st =>
  st' ←
    loop (S (Z.to_nat (AudioBuffer.length buffer)))
      (fun s => pos s <? AudioBuffer.length buffer)
      (fun s =>
         s' ← write_frame numOfChan s;
         Ok (mkLocals (view s') (channels s') (i s') (offset s') (pos s' + 1)))
      st;
  Ok (tt, st').

Definition audioBufferToWav (buffer : AudioBuffer.t) : result Blob :=
  let numOfChan := AudioBuffer.numberOfChannels buffer in
  let length := AudioBuffer.length buffer * numOfChan * 2 + 44 in
  bufferArr ← new_ArrayBuffer length;
  '(_, st) ← (write_header buffer numOfChan length;;
              push_channels buffer;;
              write_data buffer numOfChan) (mkLocals bufferArr [] 0 0 0);
  Ok (mkBlob (view st) "audio/wav").

End Wav.

(** ** [audioBufferToWav] on an engine, with checked reads *)

(** What the encoder needs from the engine it runs on: whether a data block
    of a given number of bytes can be created. [new ArrayBuffer(length)]
    throws RangeError when it cannot, which is the case above the maximum
    length the engine gives an [ArrayBuffer], and whenever the memory is not
    available. *)
Record Engine : Type := mkEngine {
  can_allocate : Z -> bool
}.

(** The encoder once more, with the two things [Wav] leaves out: line 52
    asks the engine for the buffer, and a run can be checked. In a checked
    run the read of a typed-array element outside the array, which
    JavaScript answers with [undefined], ends the run with RangeError
    instead; so a checked run that returns has read inside its arrays
    only. The helpers that neither allocate nor read an element
    ([write_header], [push_channels], [quantize]) are those of [Wav]. *)
Module WavOn.

Section Run.

Variable engine : Engine.
Variable checked : bool.

(** [new ArrayBuffer(length)]: zero-filled; RangeError on a negative length
    and on a length the engine cannot allocate. *)
Definition new_ArrayBuffer (len : Z) : result (list byte) :=
  if (len <? 0) || negb (can_allocate engine len) then Throw RangeError
  else Ok (replicate (Z.to_nat len) 0).

(** [channels[i][pos]]; reading a property of a missing [channels[i]] is a
    TypeError. *)
Definition read_sample (st : Wav.locals) : result JS.Number :=
  match typed_get (Wav.channels st) (Wav.i st) with
  | Some ch =>
      match typed_get ch (Wav.pos st) with
      | Some x => Ok (JS.ToNumber (Some x))
      | None => if checked then Throw RangeError else Ok (JS.ToNumber None)
      end
  | None => Throw TypeError
  end.

(** Lines 82-88: one frame, all channels. *)
Definition write_frame (numOfChan : Z) (st : Wav.locals) : result Wav.locals :=
  loop (S (Z.to_nat numOfChan))
    (fun s => Wav.i s <? numOfChan)
    (fun s =>
       x ← read_sample s;
       let sample := Wav.quantize x in
       v ← DataView.setInt16 (Wav.view s) (44 + Wav.offset s) sample;
       Ok (Wav.mkLocals v (Wav.channels s) (Wav.i s + 1) (Wav.offset s + 2) (Wav.pos s)))
    (Wav.mkLocals (Wav.view st) (Wav.channels st) 0 (Wav.offset st) (Wav.pos st)).

(** Lines 81-90: the frames, while [pos < buffer.length]. *)
Definition write_data (buffer : AudioBuffer.t) (numOfChan : Z) : Wav.M unit := fun st =>
  st' ←
    loop (S (Z.to_nat (AudioBuffer.length buffer)))
      (fun s => Wav.pos s <? AudioBuffer.length buffer)
      (fun s =>
         s' ← write_frame numOfChan s;
         Ok (Wav.mkLocals (Wav.view s') (Wav.channels s') (Wav.i s') (Wav.offset s')
               (Wav.pos s' + 1)))
      st;
  Ok (tt, st').

Definition audioBufferToWav (buffer : AudioBuffer.t) : result Blob :=
  let numOfChan := AudioBuffer.numberOfChannels buffer in
  let length := AudioBuffer.length buffer * numOfChan * 2 + 44 in
  bufferArr ← new_ArrayBuffer length;
  '(_, st) ← (Wav.write_header buffer numOfChan length;;
              Wav.push_channels buffer;;
              write_data buffer numOfChan) (Wav.mkLocals bufferArr [] 0 0 0);
  Ok (mkBlob (Wav.view st) "audio/wav").

End Run.

End WavOn.

(** The char codes of a string whose characters are below 256: its bytes. *)
Definition ascii_bytes (s : string) : list byte :=
  map (fun c => Z.of_N (N_of_ascii c)) (list_ascii_of_string s).

(** ** [decodeAudioData] and [manualPCMDecode] *)

(** [ArrayBuffer]s live in a store, because [decodeAudioData] of the Web
    Audio API detaches the buffer it is given: a typed array over a detached
    buffer is unusable afterwards. A location is an index into the store. *)
Module Heap.

Inductive ArrayBuffer : Type :=
| Attached (data : list Z)
| Detached.

Abbreviation loc := nat (only parsing).
Abbreviation heap := (list ArrayBuffer) (only parsing).

(** Computations over the store; a throw keeps the store it happened in. *)
Definition M (A : Type) : Type := heap -> result A * heap.

#[global] Instance M_ret : MRet M := fun A a h => (Ok a, h).
#[global] Instance M_bind : MBind M := fun A B k m h =>
  match m h with
  | (Ok a, h') => k a h'
  | (Throw e, h') => (Throw e, h')
  | (OutOfFuel, h') => (OutOfFuel, h')
  end.

Definition lift {A} (r : result A) : M A := fun h => (r, h).

(** [try { body } catch (e) { handler }]. *)
Definition try_catch {A} (body : M A) (handler : exn -> M A) : M A := fun h =>
  match body h with
  | (Throw e, h') => handler e h'
  | other => other
  end.

(** A fresh buffer holding [data]. *)
Definition alloc (data : list Z) : M loc := fun h =>
  (Ok (length h), h ++ [Attached data]).

(** [buffer.slice(begin)] for [0 <= begin]: a new buffer with a copy of
    the bytes from [begin] on; TypeError on a detached buffer. *)
Definition slice (l : loc) (begin : Z) : M loc := fun h =>
  match h !! l with
  | Some (Attached data) => alloc (drop (Z.to_nat begin) data) h
  | _ => (Throw TypeError, h)
  end.

Definition detach (l : loc) : M unit := fun h => (Ok tt, <[l := Detached]> h).

End Heap.

Module Decode.

Import Heap.

(** A typed array created over a whole buffer: its buffer and its length
    in elements. *)
Record TypedArray : Type := mkTypedArray {
  ta_buffer : loc;
  ta_length : Z
}.

(** The part of an [AudioContext] the source uses. [container_decode] is
    the verdict of the platform's audio-container decoder on the bytes it
    is given; it is left abstract. *)
Record AudioContext : Type := mkAudioContext {
  container_decode : list byte -> result AudioBuffer.t
}.

(** [audioContext.decodeAudioData(audioData)] as the Web Audio API
    specifies it: a detached [audioData] is rejected with DataCloneError;
    otherwise [audioData] is detached and its former content is decoded;
    the awaited promise resolves with the decoded buffer or rejects. *)
Definition ctx_decodeAudioData (ctx : AudioContext) (audioData : loc)
  : M AudioBuffer.t := fun h =>
  match h !! audioData with
  | Some (Attached data) =>
      (detach audioData;; lift (container_decode ctx data)) h
  | _ => (Throw DataCloneError, h)
  end.

(** [ctx.createBuffer(numberOfChannels, length, sampleRate)] as the Web
    Audio API specifies it ([length] "MUST be at least 1"; "a
    NotSupportedError exception MUST be thrown if any of the arguments is
    negative, zero, or outside its nominal range"): NotSupportedError when
    an argument is zero or negative, otherwise a buffer of zeroed channels.
    (The upper limits of channel count and rate are implementation-defined
    and not modelled; the source asks for one channel at 24000 Hz, which
    every implementation must support.) *)
Definition createBuffer (numberOfChannels length sampleRate : Z)
  : result AudioBuffer.t :=
  if (numberOfChannels <=? 0) || (length <=? 0) || (sampleRate <=? 0)
  then Throw NotSupportedError
  else Ok (AudioBuffer.mk numberOfChannels length sampleRate
             (replicate (Z.to_nat numberOfChannels)
                (replicate (Z.to_nat length) (S754_zero false)))).

(** [buffer.getChannelData(channel).set(source)]: IndexSizeError without
    such a channel, RangeError when [source] is longer than the channel,
    otherwise the first elements of the channel become those of
    [source]. *)
Definition channel_set (b : AudioBuffer.t) (channel : Z) (source : list JS.float32)
  : result AudioBuffer.t :=
  ch ← AudioBuffer.getChannelData b channel;
  if (length ch <? length source)%nat then Throw RangeError
  else Ok (AudioBuffer.mk (AudioBuffer.numberOfChannels b) (AudioBuffer.length b)
             (AudioBuffer.sampleRate b)
             (<[Z.to_nat channel := source ++ drop (length source) ch]>
                (AudioBuffer.channelData b))).

(** [new Uint8Array(len)] filled with the char codes of [binaryString]
    (lines 9-13). *)
Definition new_Uint8Array_of (binaryString : string) : M TypedArray :=
  l ← alloc (ascii_bytes binaryString);
  mret (mkTypedArray l (Z.of_nat (String.length binaryString))).

(** [new Int16Array(buffer)]: TypeError on a detached buffer, RangeError
    when the byte length is odd. *)
Definition new_Int16Array (buffer : loc) : M TypedArray := fun h =>
  match h !! buffer with
  | Some (Attached data) =>
      if Z.of_nat (length data) mod 2 =? 0
      then (Ok (mkTypedArray buffer (Z.of_nat (length data) / 2)), h)
      else (Throw RangeError, h)
  | _ => (Throw TypeError, h)
  end.

(** [int16Data[idx]]: the element is read from the store, low byte first
    (typed arrays use the byte order of the platform, little-endian on the
    platforms browsers run on); [undefined] outside the array. *)
Definition Int16Array_get (h : heap) (a : TypedArray) (idx : Z) : option Z :=
  if (idx <? 0) || (ta_length a <=? idx) then None
  else match h !! ta_buffer a with
       | Some (Attached data) => DataView.getInt16 data (Z.to_nat (2 * idx))
       | _ => None
       end.

(** [x / 32768.0] for a possibly [undefined] element [x]. *)
Definition rescale (x : option Z) : JS.Number :=
  JS.div (match x with Some z => JS.of_Z z | None => JS.NaN end) (JS.of_Z 32768).

(** Lines 36-39, on the loop variable [i] and the array [float32Data]. *)
Definition rescale_loop (h : heap) (int16Data : TypedArray)
    (float32Data : list JS.float32) : result (Z * list JS.float32) :=
  loop (S (Z.to_nat (ta_length int16Data)))
    (fun '(i, _) => i <? ta_length int16Data)
    (fun '(i, float32Data) =>
       Ok (i + 1,
           if i <? 0 then float32Data
           else <[Z.to_nat i := JS.to_float32 (rescale (Int16Array_get h int16Data i))]>
                  float32Data))
    (0, float32Data).

Definition manualPCMDecode (bytes : TypedArray) (ctx : AudioContext)
  : M AudioBuffer.t :=
  let sampleRate := 24000 in
  let numChannels := 1 in
  int16Data ← new_Int16Array (ta_buffer bytes);
  let float32Data := replicate (Z.to_nat (ta_length int16Data)) (S754_zero false) in
  '(_, float32Data) ← (fun h => (rescale_loop h int16Data float32Data, h));
  buffer ← lift (createBuffer numChannels (Z.of_nat (length float32Data)) sampleRate);
  lift (channel_set buffer 0 float32Data).

Section WithAtob.

(** The platform's base64 decoder: the binary string, or a throw
    (InvalidCharacterError) on malformed input. *)
Variable atob : string -> result string.

Definition decodeAudioData (base64Data : string) (audioContext : AudioContext)
  : M AudioBuffer.t :=
  binaryString ← lift (atob base64Data);
  bytes ← new_Uint8Array_of binaryString;
  try_catch
    (bufferCopy ← slice (ta_buffer bytes) 0;
     ctx_decodeAudioData audioContext bufferCopy)
    (fun _ => manualPCMDecode bytes audioContext).

End WithAtob.

End Decode.

(** ** Expected output of the encoder, for stating results *)

Module WavSpec.

Definition total_length (b : AudioBuffer.t) : Z :=
  AudioBuffer.length b * AudioBuffer.numberOfChannels b * 2 + 44.

(** The 44 header bytes as the table of the format lists them. *)
Definition header (b : AudioBuffer.t) : list byte :=
  ascii_bytes "RIFF" ++
  le_bytes 4 (total_length b - 8) ++
  ascii_bytes "WAVE" ++
  ascii_bytes "fmt " ++
  le_bytes 4 16 ++
  le_bytes 2 1 ++
  le_bytes 2 (AudioBuffer.numberOfChannels b) ++
  le_bytes 4 (AudioBuffer.sampleRate b) ++
  le_bytes 4 (AudioBuffer.sampleRate b * AudioBuffer.numberOfChannels b * 2) ++
  le_bytes 2 (AudioBuffer.numberOfChannels b * 2) ++
  le_bytes 2 16 ++
  ascii_bytes "data" ++
  le_bytes 4 (total_length b - 44).

(** The two bytes of frame [p] of one channel. *)
Definition sample_bytes (ch : list JS.float32) (p : Z) : list byte :=
  le_bytes 2 (Wav.quantize (JS.ToNumber (typed_get ch p))).

(** Frame [p], channel after channel. *)
Definition frame_bytes (chans : list (list JS.float32)) (p : Z) : list byte :=
  concat (map (fun ch => sample_bytes ch p) chans).

(** Frames [first], [first + 1], ... ([count] of them), interleaved. *)
Definition frames_bytes (chans : list (list JS.float32)) (first : Z) (count : nat)
  : list byte :=
  concat (map (fun k => frame_bytes chans (first + Z.of_nat k)) (seq 0 count)).

End WavSpec.

(** ** Expected output of the fallback decoder, for stating results *)

Module PcmSpec.

(** The signed 16-bit integer of a little-endian byte pair. *)
Definition int16_le (lo hi : byte) : Z :=
  let u := lo + 256 * hi in if u <? 32768 then u else u - 65536.

(** The consecutive byte pairs of a payload, as signed 16-bit integers. *)
Fixpoint le_int16s (data : list byte) : list Z :=
  match data with
  | lo :: hi :: rest => int16_le lo hi :: le_int16s rest
  | _ => []
  end.

(** The sample the fallback stores for the integer [v]. *)
Definition sample_of (v : Z) : JS.float32 :=
  JS.to_float32 (Decode.rescale (Some v)).

(** [x] is a finite float whose exact value is the rational [q]. *)
Definition has_value (x : spec_float) (q : Q) : Prop :=
  exists q', JS.to_Q x = Some q' /\ Qeq q' q.

End PcmSpec.

(** ** Auxiliary definitions for the statements *)

(** The sample of channel [c] at frame [p], [None] where there is none. *)
Definition sample_at (b : AudioBuffer.t) (c : nat) (p : Z) : option JS.float32 :=
  match AudioBuffer.channelData b !! c with
  | Some ch => typed_get ch p
  | None => None
  end.


(** Every sample of the buffer is a binary32 number in canonical form, as
    every element of a [Float32Array] is. *)
Definition samples_valid (b : AudioBuffer.t) : Prop :=
  Forall (Forall (fun x => valid_binary JS.prec32 JS.emax32 x = true))
    (AudioBuffer.channelData b).

(** The integer part of the magnitude of a float. *)
Definition magnitude (x : spec_float) : Z :=
  match x with
  | S754_finite _ m e => Z.shiftl (Z.pos m) e
  | _ => 0
  end.

(** The sign a float carries is [s], where it has one. *)
Definition sign_is (s : bool) (x : spec_float) : Prop :=
  match x with
  | S754_zero s' | S754_infinity s' | S754_finite s' _ _ => s' = s
  | S754_nan => True
  end.

(** [P] holds of the [n] integers from [start] on. *)
Fixpoint all_from (n : nat) (start : Z) (P : Z -> bool) : bool :=
  match n with
  | O => true
  | S n' => P start && all_from n' (start + 1) P
  end.

(** The check run on every 16-bit integer: its Number is zero or normal,
    and the Number with the exponent lowered by 15, stored as a binary32,
    has the value [v / 32768]. *)
Definition sample_exact (v : Z) : bool :=
  match JS.of_Z v with
  | S754_zero _ => v =? 0
  | S754_finite s M E =>
      (digits2_pos M =? 53)%positive && (-1005 <=? E) && (E <=? 986) &&
      match JS.to_Q (JS.to_float32 (S754_finite s M (E - 15))) with
      | Some q => Qeq_bool q (Qmake v 32768)
      | None => false
      end
  | _ => false
  end.

(** ** Concrete buffers used below *)

Module Samples.

(** binary32 constants. *)
Definition one : JS.float32 := binary_normalize JS.prec32 JS.emax32 1 0 false.
Definition minus_one : JS.float32 := binary_normalize JS.prec32 JS.emax32 (-1) 0 false.
Definition zero : JS.float32 := S754_zero false.
Definition one_and_half : JS.float32 := binary_normalize JS.prec32 JS.emax32 3 (-1) false.
Definition minus_two : JS.float32 := binary_normalize JS.prec32 JS.emax32 (-2) 0 false.

(** sampleRate 24000, one channel, the three frames 1.0, -1.0, 0.0. *)
Definition three_frames : AudioBuffer.t :=
  AudioBuffer.mk 1 3 24000 [[one; minus_one; zero]].

(** One channel of 45 frames: 1.5 first, -2.0 last, silence between. *)
Definition forty_five_frames : AudioBuffer.t :=
  AudioBuffer.mk 1 45 24000 [one_and_half :: replicate 43 zero ++ [minus_two]].

End Samples.

(** ** Platform stand-ins used in the examples *)

Module Fixtures.

(** A context whose container decoder rejects every payload, as the
    platform does for headerless PCM. *)
Definition rejecting_ctx : Decode.AudioContext :=
  Decode.mkAudioContext (fun _ => Throw EncodingError).

(** The binary string of the bytes 00 40 00 C0: the little-endian 16-bit
    integers 16384 and -16384. *)
Definition pcm_pair : string :=
  String (ascii_of_nat 0) (String (ascii_of_nat 64)
    (String (ascii_of_nat 0) (String (ascii_of_nat 192) EmptyString))).

(** [atob] on the base64 strings used below. *)
Definition atob (s : string) : result string :=
  if String.eqb s "AEAAwA==" then Ok pcm_pair
  else if String.eqb s "YQ==" then Ok "a"%string
  else if String.eqb s "" then Ok ""%string
  else Throw InvalidCharacterError.

End Fixtures.

(** ** Lines 84-85 over the rationals, for stating results *)

(** The integer part of a rational, toward zero. *)
Definition Qtrunc (q : Q) : Z := Z.quot (Qnum q) (QDen q).

(** Lines 84-85 over the rationals: no rounding, no wrap-around. *)
Definition quantize_Q (q : Q) : Z :=
  let sample := Qmax (-1) (Qmin 1 q) in
  if Qlt_le_dec ((1 # 2) + sample) 0
  then Qtrunc (sample * 32768)
  else Qtrunc (sample * 32767).

(** What lines 84-85 are expected to write for an array read: the rational
    formula on a zero or finite sample, the end of the range on an infinity,
    0 on NaN and on [undefined]. *)
Definition quantize_spec (v : option JS.float32) : Z :=
  match v with
  | Some (S754_infinity false) => 32767
  | Some (S754_infinity true) => -32768
  | Some x => match JS.to_Q x with Some q => quantize_Q q | None => 0 end
  | None => 0
  end.

(** ** The fallback decoder followed by the encoder, for stating results *)

(** The check run on every 16-bit integer: the sample stored for it is a
    binary32 number in canonical form. *)
Definition sample_canonical (v : Z) : bool :=
  match JS.of_Z v with
  | S754_zero _ => true
  | S754_finite s M E =>
      valid_binary JS.prec32 JS.emax32 (JS.to_float32 (S754_finite s M (E - 15)))
  | _ => false
  end.

(** The 16-bit integer the encoder writes for the sample the fallback
    decoder stored for the 16-bit integer [v]. *)
Definition reencoded (v : Z) : Z :=
  if v <? -16384 then v
  else if 0 <? v then v - 1
  else if v <? 0 then v + 1
  else 0.

(** ** The application ([types.ts], [App.tsx]) *)

(** The enums of [types.ts]. *)
Inductive Gender : Set := Male | Female.
Inductive Language : Set := Spanish | English.
Inductive Accent : Set := Spain | Mexico | Argentina | Colombia | US | UK | Australia.
Inductive Style : Set := Natural | Joyful | Sad | Whisper | Storyteller.

Module VoiceOption.

Record t : Type := mk {
  id : string;
  name : string;
  apiName : string;
  gender : Gender
}.

End VoiceOption.

Module AudioSettings.

Record t : Type := mk {
  language : Language;
  voiceId : string;
  accent : Accent;
  style : Style;
  speed : JS.Number;
  pitch : JS.Number
}.

End AudioSettings.

Module HistoryItem.

Record t : Type := mk {
  id : string;
  text : string;
  audioBlob : Blob;
  duration : JS.Number;
  createdAt : JS.Number;
  settings : AudioSettings.t
}.

End HistoryItem.

Module App.

(** Lines 31-44: the ten voices of the interface and the voice of the
    speech API each one stands for. *)
Definition VOICES : list VoiceOption.t :=
  [ VoiceOption.mk "Puck" "Hombre 1 (Suave)" "Puck" Male;
    VoiceOption.mk "Charon" "Hombre 2 (Profundo)" "Charon" Male;
    VoiceOption.mk "Fenrir" "Hombre 3 (Energico)" "Fenrir" Male;
    VoiceOption.mk "Zephyr" "Hombre 4 (Claro)" "Zephyr" Male;
    VoiceOption.mk "Orpheus" "Hombre 5 (Narrador)" "Puck" Male;
    VoiceOption.mk "Kore" "Mujer 1 (Calma)" "Kore" Female;
    VoiceOption.mk "Aoede" "Mujer 2 (Dulce)" "Aoede" Female;
    VoiceOption.mk "Mnemosyne" "Mujer 3 (Profesional)" "Kore" Female;
    VoiceOption.mk "Leto" "Mujer 4 (Alegre)" "Aoede" Female;
    VoiceOption.mk "Hestia" "Mujer 5 (Mayor)" "Kore" Female ]%string.

(** Lines 47-48. *)
Definition SPANISH_ACCENTS : list Accent := [Spain; Mexico; Argentina; Colombia].
Definition ENGLISH_ACCENTS : list Accent := [US; UK; Australia].

(** Lines 51-54: [VOICES.find(v => v.id === id)], with the fallback. *)
Definition getApiVoiceName (id : string) : string :=
  match find (fun v => String.eqb (VoiceOption.id v) id) VOICES with
  | Some v => VoiceOption.apiName v
  | None => "Puck"
  end.

(** Lines 66-73: the settings the application starts with. *)
Definition initialSettings : AudioSettings.t :=
  AudioSettings.mk Spanish "Puck" Spain Natural (JS.of_Z 1) (JS.of_Z 0).

(** Line 276. *)
Definition availableAccents (settings : AudioSettings.t) : list Accent :=
  match AudioSettings.language settings with
  | Spanish => SPANISH_ACCENTS
  | English => ENGLISH_ACCENTS
  end.

(** What the controls of the settings panel do, each with the value the
    control delivers: the two language buttons (lines 303 and 309), the
    voice, accent and style selects (lines 322, 343 and 357), the speed and
    pitch sliders (lines 382 and 403). *)
Inductive update : Type :=
| ClickSpanish
| ClickEnglish
| SelectVoice (value : string)
| SelectAccent (value : Accent)
| SelectStyle (value : Style)
| SlideSpeed (value : JS.Number)
| SlidePitch (value : JS.Number).

(** The function each control passes to [setSettings]: [s => ({...s, ...})]
    with the fields the control sets. *)
Definition updater (u : update) (s : AudioSettings.t) : AudioSettings.t :=
  let '(AudioSettings.mk language voiceId accent style speed pitch) := s in
  match u with
  | ClickSpanish => AudioSettings.mk Spanish voiceId Spain style speed pitch
  | ClickEnglish => AudioSettings.mk English voiceId US style speed pitch
  | SelectVoice value => AudioSettings.mk language value accent style speed pitch
  | SelectAccent value => AudioSettings.mk language voiceId value style speed pitch
  | SelectStyle value => AudioSettings.mk language voiceId accent value speed pitch
  | SlideSpeed value => AudioSettings.mk language voiceId accent style value pitch
  | SlidePitch value => AudioSettings.mk language voiceId accent style speed value
  end.

(** A select delivers the value of one of the options it was rendered
    with: the voice select one of the ids of [VOICES] (lines 326-335), the
    accent select one of [availableAccents] (lines 346-348). *)
Definition offered (s : AudioSettings.t) (u : update) : Prop :=
  match u with
  | SelectVoice value => In value (map VoiceOption.id VOICES)
  | SelectAccent value => In value (availableAccents s)
  | _ => True
  end.

(** A run of the controls: every update is offered by the settings it is
    applied to. *)
Fixpoint offered_run (s : AudioSettings.t) (us : list update) : Prop :=
  match us with
  | [] => True
  | u :: us' => offered s u /\ offered_run (updater u s) us'
  end.

(** Line 178: [setHistory(prev => [newItem, ...prev])]. *)
Definition addToHistory (newItem : HistoryItem.t) (prev : list HistoryItem.t)
  : list HistoryItem.t :=
  newItem :: prev.

(** Line 509: [setHistory(prev => prev.filter(h => h.id !== item.id))]. *)
Definition removeFromHistory (item : HistoryItem.t) (prev : list HistoryItem.t)
  : list HistoryItem.t :=
  List.filter (fun h => negb (String.eqb (HistoryItem.id h) (HistoryItem.id item))) prev.

Section WithAtob.

Variable atob : string -> result string.

(** Lines 163-166 of [handleGenerate]: the answer of the speech API is
    decoded, and the decoded buffer is encoded for the history. *)
Definition decode_and_encode (base64Audio : string) (ctx : Decode.AudioContext)
  : Heap.M Blob :=
  audioBuffer ← Decode.decodeAudioData atob base64Audio ctx;
  Heap.lift (Wav.audioBufferToWav audioBuffer).

End WithAtob.

End App.

(** The accent belongs to the language, and the voice is one of the
    table. *)
Definition settings_consistent (s : AudioSettings.t) : Prop :=
  In (AudioSettings.accent s) (App.availableAccents s) /\
  In (AudioSettings.voiceId s) (map VoiceOption.id App.VOICES).

(** The voices of the speech API that [VOICES] names. *)
Definition api_voices : list string :=
  ["Puck"; "Charon"; "Fenrir"; "Zephyr"; "Kore"; "Aoede"]%string.

(** ** Further concrete inputs *)

Module Inputs.

(** One channel of 45 frames: silence, then -2.0 last. It differs from
    [Samples.forty_five_frames] in frame 0 only. *)
Definition silent_then_minus_two : AudioBuffer.t :=
  AudioBuffer.mk 1 45 24000 [replicate 44 Samples.zero ++ [Samples.minus_two]].

(** The binary32 number -0.75. *)
Definition minus_three_quarters : JS.float32 := S754_finite true 12582912 (-24).

(** The binary string of 45 little-endian 16-bit integers: 44 zeros, then
    16384. *)
Definition pcm_45 : string :=
  string_of_list_ascii (replicate 89 Ascii.zero ++ [ascii_of_nat 64]).

(** Its base64 encoding. *)
Definition base64_45 : string :=
  (String.concat EmptyString (replicate 29 "AAAA") ++ "AABA")%string.

(** [atob] on that string. *)
Definition atob (s : string) : result string :=
  if String.eqb s base64_45 then Ok pcm_45 else Throw InvalidCharacterError.

(** An engine whose [ArrayBuffer]s hold at most 2^32 bytes. *)
Definition engine_4GiB : Engine := mkEngine (fun n => n <=? 2 ^ 32).

(** Eight channels of 2^28 frames of silence at 48000 Hz: each channel is a
    [Float32Array] of 2^30 bytes, which the engine above can hold, and the
    WAV of the buffer takes 2^32 + 44 bytes. *)
Definition eight_channels : AudioBuffer.t :=
  AudioBuffer.mk 8 (2 ^ 28) 48000
    (replicate 8 (replicate (Z.to_nat (2 ^ 28)) (S754_zero false))).

(** A history item with the given id and text. *)
Definition item (id text : string) : HistoryItem.t :=
  HistoryItem.mk id text (mkBlob [] "audio/wav") (JS.of_Z 1) (JS.of_Z 0)
    App.initialSettings.

End Inputs.

(** * Proofs *)

(** ** Facts about the rounding of [SpecFloat] *)

Lemma digits2_pos_bounds p :
  2 ^ (Z.pos (digits2_pos p) - 1) <= Z.pos p < 2 ^ Z.pos (digits2_pos p).
Proof.
  induction p as [p IH|p IH|]; cbn [digits2_pos].
  - rewrite Pos2Z.inj_succ. replace (Z.succ (Z.pos (digits2_pos p)) - 1)
      with (Z.succ (Z.pos (digits2_pos p) - 1)) by lia.
    rewrite !Z.pow_succ_r by lia. lia.
  - rewrite Pos2Z.inj_succ. replace (Z.succ (Z.pos (digits2_pos p)) - 1)
      with (Z.succ (Z.pos (digits2_pos p) - 1)) by lia.
    rewrite !Z.pow_succ_r by lia. lia.
  - simpl. lia.
Qed.

Lemma Zdigits2_le m k : 0 <= m -> 0 <= k -> m < 2 ^ k -> Zdigits2 m <= k.
Proof.
  intros Hm Hk Hlt. destruct m as [|p|p]; [simpl; lia | | lia].
  cbn [Zdigits2]. pose proof (digits2_pos_bounds p) as [Hlo _].
  destruct (Z.le_gt_cases (Z.pos (digits2_pos p)) k) as [|Hgt]; [done|].
  assert (2 ^ k <= 2 ^ (Z.pos (digits2_pos p) - 1)) by (apply Z.pow_le_mono_r; lia).
  lia.
Qed.

Lemma shr_1_m mrs : 0 <= shr_m mrs -> shr_m (shr_1 mrs) = shr_m mrs / 2.
Proof.
  destruct mrs as [m r s]. cbn [shr_m]. intros Hm. unfold shr_1.
  destruct m as [|[p|p|]|p]; cbn [shr_m]; try reflexivity; try lia.
  - apply Z.div_unique with (r := 1); lia.
  - apply Z.div_unique with (r := 0); lia.
Qed.

Lemma iter_pos_shr_1_m p : forall mrs,
  0 <= shr_m mrs -> shr_m (SpecFloat.iter_pos shr_1 p mrs) = shr_m mrs / 2 ^ Z.pos p.
Proof.
  assert (Hnn : forall mrs, 0 <= shr_m mrs -> 0 <= shr_m (shr_1 mrs)).
  { intros mrs H. rewrite shr_1_m by done. apply Z.div_pos; lia. }
  induction p as [p IH|p IH|]; intros mrs Hm; cbn [SpecFloat.iter_pos].
  - assert (H1 := Hnn mrs Hm).
    rewrite IH; [| rewrite IH by done; apply Z.div_pos; lia].
    rewrite IH by done. rewrite shr_1_m by done.
    rewrite !Z.div_div by lia.
    f_equal.
    replace (Z.pos p~1) with (1 + Z.pos p + Z.pos p) by lia.
    rewrite !Z.pow_add_r by lia. lia.
  - rewrite IH; [| rewrite IH by done; apply Z.div_pos; lia].
    rewrite IH by done. rewrite !Z.div_div by lia.
    f_equal.
    replace (Z.pos p~0) with (Z.pos p + Z.pos p) by lia.
    rewrite !Z.pow_add_r by lia. lia.
  - rewrite shr_1_m by done. reflexivity.
Qed.

(** [shr_fexp] divides the mantissa by a power of two and raises the
    exponent by as much; the new exponent is the larger of the old one and
    [fexp]. *)
Lemma shr_fexp_spec prec emax m e l :
  0 <= m ->
  let t := Z.max 0 (fexp prec emax (Zdigits2 m + e) - e) in
  snd (shr_fexp prec emax m e l) = e + t /\
  shr_m (fst (shr_fexp prec emax m e l)) = m / 2 ^ t.
Proof.
  intros Hm t. unfold shr_fexp, shr. subst t.
  assert (Hrec : shr_m (shr_record_of_loc m l) = m) by (destruct l as [|[]]; reflexivity).
  destruct (fexp prec emax (Zdigits2 m + e) - e) as [|p|p] eqn:Hn; cbn [fst snd].
  - rewrite Hrec. cbn. rewrite Z.div_1_r. lia.
  - rewrite iter_pos_shr_1_m by (rewrite Hrec; done). rewrite Hrec.
    rewrite Z.max_r by lia. done.
  - rewrite Hrec. rewrite Z.max_l by lia. cbn. rewrite Z.div_1_r. lia.
Qed.

Lemma round_nearest_even_bounds m l : m <= round_nearest_even m l <= m + 1.
Proof. unfold round_nearest_even. destruct l as [|[]]; try lia. destruct (Z.even m); lia. Qed.

Lemma binary_round_aux_sign prec emax s mx ex lx :
  sign_is s (binary_round_aux prec emax s mx ex lx).
Proof.
  unfold binary_round_aux.
  destruct (shr_fexp prec emax mx ex lx) as [mrs' e'].
  destruct (shr_fexp prec emax _ e' loc_Exact) as [mrs'' e''].
  destruct (shr_m mrs''); [done | | done].
  destruct (e'' <=? emax - prec); done.
Qed.

(** Rounding a product that is below the integer [B] gives a number whose
    integer part is at most [B]: rounding adds less than one. *)
Lemma fexp64_le x : x <= 53 -> fexp 53 1024 x <= 0.
Proof. intros H. unfold fexp, emin. lia. Qed.

Lemma binary_round_aux_magnitude s M E B :
  E <= 0 -> 0 < B <= 2 ^ 52 ->
  Z.pos M < B * 2 ^ (- E) ->
  0 <= magnitude (binary_round_aux 53 1024 s (Z.pos M) E loc_Exact) <= B.
Proof.
  intros HE HB HM. unfold binary_round_aux.
  pose proof (shr_fexp_spec 53 1024 (Z.pos M) E loc_Exact ltac:(lia)) as [He1 Hm1].
  destruct (shr_fexp 53 1024 (Z.pos M) E loc_Exact) as [mrs' e'].
  cbn [fst snd] in He1, Hm1.
  set (t1 := Z.max 0 (fexp 53 1024 (Zdigits2 (Z.pos M) + E) - E)) in *.
  assert (Hpow : forall a b, 0 <= a -> 0 <= b -> 2 ^ (a + b) = 2 ^ a * 2 ^ b)
    by (intros; apply Z.pow_add_r; lia).
  assert (Hpos : forall a, 0 <= a -> 0 < 2 ^ a) by (intros; apply Z.pow_pos_nonneg; lia).
  (* the exponent after the first shift is not positive *)
  assert (HdM : Zdigits2 (Z.pos M) + E <= 53).
  { assert (Zdigits2 (Z.pos M) <= 52 + - E); [|lia].
    apply Zdigits2_le; [lia | lia |].
    rewrite Hpow by lia. pose proof (Hpos (- E) ltac:(lia)). nia. }
  pose proof (fexp64_le _ HdM) as Hf1.
  assert (Ht1 : 0 <= t1) by lia.
  assert (He' : e' <= 0) by lia.
  (* the rounded mantissa is at most B * 2^(-e') *)
  set (m1 := round_nearest_even (shr_m mrs') (loc_of_shr_record mrs')).
  assert (Hm1b : 0 <= m1 <= B * 2 ^ (- e')).
  { pose proof (round_nearest_even_bounds (shr_m mrs') (loc_of_shr_record mrs')) as Hr.
    fold m1 in Hr. rewrite Hm1 in Hr.
    pose proof (Hpos t1 Ht1) as Hp1. pose proof (Hpos (- e') ltac:(lia)) as Hp2.
    pose proof (Z.mul_div_le (Z.pos M) (2 ^ t1) Hp1) as Hq.
    pose proof (Z.div_pos (Z.pos M) (2 ^ t1) ltac:(lia) Hp1) as Hq0.
    split; [lia|].
    assert (HEe : - E = - e' + t1) by lia.
    rewrite HEe, Hpow in HM by lia.
    assert (Z.pos M `div` 2 ^ t1 < B * 2 ^ (- e')) by nia.
    lia. }
  pose proof (shr_fexp_spec 53 1024 m1 e' loc_Exact ltac:(lia)) as [He2 Hm2].
  destruct (shr_fexp 53 1024 m1 e' loc_Exact) as [mrs'' e''].
  cbn [fst snd] in He2, Hm2.
  set (t2 := Z.max 0 (fexp 53 1024 (Zdigits2 m1 + e') - e')) in *.
  assert (Hd1 : Zdigits2 m1 + e' <= 53).
  { assert (Zdigits2 m1 <= 53 + - e'); [|lia].
    apply Zdigits2_le; [lia | lia |].
    rewrite Hpow by lia. pose proof (Hpos (- e') ltac:(lia)).
    change (2 ^ 53) with (2 * 2 ^ 52). nia. }
  pose proof (fexp64_le _ Hd1) as Hf2.
  assert (Ht2 : 0 <= t2) by lia.
  assert (He'' : e'' <= 0) by lia.
  rewrite Hm2.
  destruct (m1 `div` 2 ^ t2) as [|m|m] eqn:Hdiv; cbn [magnitude]; [lia| |lia].
  destruct (e'' <=? 1024 - 53); cbn [magnitude]; [|lia].
  rewrite <- Z.shiftr_opp_r, Z.shiftr_div_pow2 by lia.
  pose proof (Hpos t2 Ht2) as Hpt2. pose proof (Hpos (- e'') ltac:(lia)) as Hpe''.
  rewrite <- Hdiv, Z.div_div by lia.
  rewrite <- Hpow by lia. replace (t2 + - e'') with (- e') by lia.
  pose proof (Hpos (- e') ltac:(lia)) as Hp2.
  split; [apply Z.div_pos; lia|].
  apply Z.div_le_upper_bound; [done|]. lia.
Qed.

(** ** The clamp and scale of lines 84-85 *)

(** A valid binary64 number clamped to [-1, 1] is NaN, a zero, 1, -1, or a
    finite number of magnitude below 1. *)
Lemma clamp_cases x :
  valid_binary 53 1024 x = true ->
  Wav.clamp x = S754_nan \/
  (exists s, Wav.clamp x = S754_zero s) \/
  Wav.clamp x = JS.of_Z 1 \/
  Wav.clamp x = JS.of_Z (-1) \/
  exists s m e, Wav.clamp x = S754_finite s m e /\ e <= -53 /\ Z.pos m < 2 ^ 53.
Proof.
  intros Hv. destruct x as [s|s| |s m e].
  - right; left. exists s. by destruct s.
  - destruct s; [right; right; right; left | right; right; left]; reflexivity.
  - left. reflexivity.
  - cbn [valid_binary] in Hv. unfold bounded, canonical_mantissa in Hv.
    apply andb_prop in Hv as [Hc He]. apply Z.eqb_eq in Hc. apply Z.leb_le in He.
    pose proof (digits2_pos_bounds m) as [Hlo Hhi].
    assert (Hsmall : e <= -53 -> Z.pos m < 2 ^ 53).
    { intros Hle. unfold fexp, emin in Hc.
      assert (Z.pos (digits2_pos m) <= 53) by lia.
      assert (2 ^ Z.pos (digits2_pos m) <= 2 ^ 53) by (apply Z.pow_le_mono_r; lia).
      lia. }
    assert (Hnorm : e = -52 -> 2 ^ 52 <= Z.pos m).
    { intros ->. unfold fexp, emin in Hc.
      assert (Z.pos (digits2_pos m) = 53) as Hd by lia.
      rewrite Hd in Hlo. exact Hlo. }
    unfold Wav.clamp, JS.Math_min, JS.Math_max.
    change (JS.of_Z 1) with (S754_finite false 4503599627370496 (-52)).
    change (JS.of_Z (-1)) with (S754_finite true 4503599627370496 (-52)).
    destruct s.
    + (* negative *)
      cbn [SFcompare].
      destruct (Z.compare_spec (-52) e) as [Heq|Hlt|Hgt].
      * subst e. specialize (Hnorm eq_refl).
        rewrite Pos.compare_cont_spec.
        destruct (Pos.compare_spec 4503599627370496 m) as [Hm|Hm|Hm];
          cbn [Pos.switch_Eq CompOpp].
        -- right; right; right; left. reflexivity.
        -- right; right; right; left. reflexivity.
        -- exfalso. change (2 ^ 52) with 4503599627370496 in Hnorm.
           apply Pos2Z.pos_lt_pos in Hm. clear -Hm Hnorm. lia.
      * cbn [CompOpp]. right; right; right; left. reflexivity.
      * cbn [CompOpp]. right; right; right; right. exists true, m, e.
        split; [reflexivity|]. split; [lia|]. apply Hsmall. lia.
    + (* positive *)
      cbn [SFcompare].
      destruct (Z.compare_spec (-52) e) as [Heq|Hlt|Hgt].
      * subst e. specialize (Hnorm eq_refl).
        rewrite Pos.compare_cont_spec.
        destruct (Pos.compare_spec 4503599627370496 m) as [Hm|Hm|Hm];
          cbn [Pos.switch_Eq].
        -- right; right; left. reflexivity.
        -- right; right; left. reflexivity.
        -- exfalso. change (2 ^ 52) with 4503599627370496 in Hnorm.
           apply Pos2Z.pos_lt_pos in Hm. clear -Hm Hnorm. lia.
      * right; right; left. reflexivity.
      * cbn [SFcompare]. right; right; right; right. exists false, m, e.
        split; [reflexivity|]. split; [lia|]. apply Hsmall. lia.
Qed.

Lemma ToInt32_small x :
  -2 ^ 31 <= JS.truncate x < 2 ^ 31 -> JS.ToInt32 x = JS.truncate x.
Proof.
  intros H. unfold JS.ToInt32.
  rewrite Z.mod_small; [lia|]. change (2 ^ 32) with (2 ^ 31 + 2 ^ 31). lia.
Qed.

Lemma truncate_sign_magnitude s r B :
  sign_is s r -> 0 <= magnitude r <= B ->
  (if s then - B <= JS.truncate r <= 0 else 0 <= JS.truncate r <= B).
Proof.
  intros Hs Hm. destruct r as [s'|s'| |s' m e]; cbn [JS.truncate magnitude] in *;
    try (destruct s; lia).
  cbn [sign_is] in Hs. subst s'. destruct s; cbn [cond_Zopp]; lia.
Qed.

Lemma binary_round_sign prec emax s m e :
  sign_is s (binary_round prec emax s m e).
Proof.
  unfold binary_round. destruct (shl_align m e _) as [mz ez].
  apply binary_round_aux_sign.
Qed.

(** [0.5 + c] is not negative when [c] is not. *)
Lemma add_half_sign m e : sign_is false (JS.add JS.half (S754_finite false m e)).
Proof.
  change JS.half with (S754_finite false 4503599627370496 (-53)).
  unfold JS.add, SFadd. cbn [cond_Zopp Z.add binary_normalize].
  apply binary_round_sign.
Qed.

Lemma lt_zero_sign r : sign_is false r -> JS.lt r (JS.of_Z 0) = false.
Proof. destruct r as [s|s| |s m e]; cbn; intros Hs; try subst s; reflexivity. Qed.

Lemma mul_32768 s m e :
  JS.mul (S754_finite s m e) (JS.of_Z 32768)
  = binary_round_aux 53 1024 s (Z.pos (m * 4503599627370496)) (e + -37) loc_Exact.
Proof.
  change (JS.of_Z 32768) with (S754_finite false 4503599627370496 (-37)).
  unfold JS.mul, SFmul. by rewrite Bool.xorb_false_r.
Qed.

Lemma mul_32767 s m e :
  JS.mul (S754_finite s m e) (JS.of_Z 32767)
  = binary_round_aux 53 1024 s (Z.pos (m * 9006924376834048)) (e + -38) loc_Exact.
Proof.
  change (JS.of_Z 32767) with (S754_finite false 9006924376834048 (-38)).
  unfold JS.mul, SFmul. by rewrite Bool.xorb_false_r.
Qed.

(** The scaling of a finite number of magnitude below 1 stays within the
    16-bit signed range, and a multiplication by 32768 happens only for a
    negative number. *)
Lemma scale_finite_range s m e :
  e <= -53 -> Z.pos m < 2 ^ 53 ->
  -32768 <= Wav.scale (S754_finite s m e) <= 32767.
Proof.
  intros He Hm. unfold Wav.scale, JS.bitor0.
  assert (Hpow : Z.pos m < 2 ^ (- e)).
  { assert (2 ^ 53 <= 2 ^ (- e)) by (apply Z.pow_le_mono_r; lia). lia. }
  assert (H32768 :
    0 <= magnitude (JS.mul (S754_finite s m e) (JS.of_Z 32768)) <= 32768).
  { rewrite mul_32768. apply binary_round_aux_magnitude; [lia | |].
    - change (2 ^ 52) with 4503599627370496. lia.
    - rewrite Pos2Z.inj_mul.
      replace (- (e + -37)) with (37 + - e) by lia.
      rewrite Z.pow_add_r by lia. change (2 ^ 37) with 137438953472. lia. }
  assert (H32767 :
    0 <= magnitude (JS.mul (S754_finite s m e) (JS.of_Z 32767)) <= 32767).
  { rewrite mul_32767. apply binary_round_aux_magnitude; [lia | |].
    - change (2 ^ 52) with 4503599627370496. lia.
    - rewrite Pos2Z.inj_mul.
      replace (- (e + -38)) with (38 + - e) by lia.
      rewrite Z.pow_add_r by lia. change (2 ^ 38) with 274877906944. lia. }
  assert (S32768 : sign_is s (JS.mul (S754_finite s m e) (JS.of_Z 32768)))
    by (rewrite mul_32768; apply binary_round_aux_sign).
  assert (S32767 : sign_is s (JS.mul (S754_finite s m e) (JS.of_Z 32767)))
    by (rewrite mul_32767; apply binary_round_aux_sign).
  pose proof (truncate_sign_magnitude s _ _ S32768 H32768) as T32768.
  pose proof (truncate_sign_magnitude s _ _ S32767 H32767) as T32767.
  destruct s.
  - destruct (JS.lt _ _); rewrite ToInt32_small; change (2 ^ 31) with 2147483648; lia.
  - rewrite lt_zero_sign by apply add_half_sign.
    rewrite ToInt32_small; change (2 ^ 31) with 2147483648; lia.
Qed.

(** Whatever valid binary64 number is read, the clamped and scaled sample
    lies in the 16-bit signed range before it is written: [setInt16] never
    wraps it. *)
Lemma quantize_range x :
  valid_binary 53 1024 x = true -> -32768 <= Wav.quantize x <= 32767.
Proof.
  intros Hv. unfold Wav.quantize.
  destruct (clamp_cases x Hv) as [-> | [[s ->] | [-> | [-> | (s & m & e & -> & He & Hm)]]]].
  - vm_compute. split; discriminate.
  - destruct s; vm_compute; split; discriminate.
  - vm_compute. split; discriminate.
  - vm_compute. split; discriminate.
  - by apply scale_finite_range.
Qed.

Lemma digits2_pos_iter_xO p : forall m,
  Z.pos (digits2_pos (Pos.iter xO m p)) = Z.pos (digits2_pos m) + Z.pos p.
Proof.
  induction p as [|p IH] using Pos.peano_ind; intros m.
  - cbn [Pos.iter digits2_pos]. lia.
  - rewrite Pos.iter_succ. cbn [digits2_pos]. rewrite Pos2Z.inj_succ, IH. lia.
Qed.

(** A number that is already in canonical form is returned as it is. *)
Lemma binary_round_aux_canonical s m e :
  bounded 53 1024 m e = true ->
  binary_round_aux 53 1024 s (Z.pos m) e loc_Exact = S754_finite s m e.
Proof.
  intros Hb. unfold bounded, canonical_mantissa in Hb.
  apply andb_prop in Hb as [Hc He]. apply Z.eqb_eq in Hc.
  unfold binary_round_aux, shr_fexp. cbn [Zdigits2].
  rewrite Hc, Z.sub_diag.
  cbn [shr shr_record_of_loc shr_m loc_of_shr_record round_nearest_even Zdigits2].
  rewrite Hc, Z.sub_diag. cbn [shr shr_m]. by rewrite He.
Qed.

(** Widening a valid binary32 number gives a valid binary64 number. *)
Lemma of_float32_valid y :
  valid_binary 24 128 y = true -> valid_binary 53 1024 (JS.of_float32 y) = true.
Proof.
  destruct y as [s|s| |s m e]; try reflexivity.
  cbn [valid_binary JS.of_float32]. intros Hb.
  unfold bounded, canonical_mantissa in Hb.
  apply andb_prop in Hb as [Hc He]. apply Z.eqb_eq in Hc. apply Z.leb_le in He.
  unfold fexp, emin in Hc.
  pose proof (Pos2Z.is_pos (digits2_pos m)) as Hd.
  unfold JS.prec64, JS.emax64, binary_round, shl_align.
  assert (Hf : fexp 53 1024 (Z.pos (digits2_pos m) + e) = Z.pos (digits2_pos m) + e - 53)
    by (unfold fexp, emin; lia).
  rewrite Hf.
  destruct (Z.pos (digits2_pos m) + e - 53 - e) as [|p|p] eqn:Hsh; [lia | lia |].
  assert (Hbound : bounded 53 1024 (Pos.iter xO m p) (Z.pos (digits2_pos m) + e - 53) = true).
  { unfold bounded, canonical_mantissa. rewrite digits2_pos_iter_xO.
    apply andb_true_intro. split; [apply Z.eqb_eq | apply Z.leb_le].
    - unfold fexp, emin. lia.
    - lia. }
  rewrite binary_round_aux_canonical by exact Hbound.
  exact Hbound.
Qed.

(** ** Byte-level lemmas *)

Lemma length_le_bytes n v : length (le_bytes n v) = n.
Proof. revert v. induction n as [|n IH]; intros v; simpl; [done|]. by rewrite IH. Qed.

Lemma le_bytes_range n v : Forall (fun x => 0 <= x < 256) (le_bytes n v).
Proof.
  revert v. induction n as [|n IH]; intros v; simpl; constructor.
  - apply Z.mod_pos_bound. lia.
  - apply IH.
Qed.

Lemma length_write_bytes bs buf pos : length (write_bytes buf pos bs) = length buf.
Proof.
  revert buf pos. induction bs as [|b bs IH]; intros buf pos; simpl; [done|].
  by rewrite IH, length_insert.
Qed.

(** Writing over a run in the middle of a list replaces exactly that run. *)
Lemma write_bytes_middle bs pre old post :
  length old = length bs ->
  write_bytes (pre ++ old ++ post) (length pre) bs = pre ++ bs ++ post.
Proof.
  revert pre old. induction bs as [|b bs IH]; intros pre old Hlen.
  - destruct old; [done | discriminate].
  - destruct old as [|o old]; [discriminate|]. simpl in *.
    rewrite insert_app_r_alt by lia. rewrite Nat.sub_diag. simpl.
    replace (pre ++ b :: old ++ post) with ((pre ++ [b]) ++ old ++ post)
      by (by rewrite <- app_assoc).
    replace (S (length pre)) with (length (pre ++ [b]))
      by (rewrite length_app; simpl; lia).
    rewrite IH by lia. by rewrite <- app_assoc.
Qed.

(** A write at the end of what has been written so far, into a buffer whose
    remainder is still zero, appends. *)
Lemma DataView_set_append w written m v :
  (w <= m)%nat ->
  DataView.set w (written ++ replicate m 0) (Z.of_nat (length written)) v
  = Ok ((written ++ le_bytes w v) ++ replicate (m - w) 0).
Proof.
  intros Hw. unfold DataView.set.
  rewrite length_app, length_replicate.
  destruct (Z.ltb_spec (Z.of_nat (length written)) 0); [lia|].
  destruct (Z.ltb_spec (Z.of_nat (length written + m))
              (Z.of_nat (length written) + Z.of_nat w)); [lia|].
  simpl. f_equal. rewrite Nat2Z.id.
  replace m with (w + (m - w))%nat at 1 by lia.
  rewrite replicate_add.
  rewrite (write_bytes_middle _ written (replicate w 0)).
  - by rewrite <- app_assoc.
  - by rewrite length_replicate, length_le_bytes.
Qed.

(** ** The header writes *)

Lemma M_bind_ok {A B} (m : Wav.M A) (k : A -> Wav.M B) st a st' :
  m st = Ok (a, st') -> (m ≫= k) st = k a st'.
Proof. intros H. unfold mbind, Wav.M_bind. by rewrite H. Qed.

Lemma setUint32_append written m data chs i off p :
  p = Z.of_nat (length written) -> (4 <= m)%nat ->
  Wav.setUint32 data (Wav.mkLocals (written ++ replicate m 0) chs i off p)
  = Ok (tt, Wav.mkLocals ((written ++ le_bytes 4 data) ++ replicate (m - 4) 0)
              chs i off (p + 4)).
Proof.
  intros -> Hm. unfold Wav.setUint32, DataView.setUint32. simpl.
  by rewrite DataView_set_append.
Qed.

Lemma setUint16_append written m data chs i off p :
  p = Z.of_nat (length written) -> (2 <= m)%nat ->
  Wav.setUint16 data (Wav.mkLocals (written ++ replicate m 0) chs i off p)
  = Ok (tt, Wav.mkLocals ((written ++ le_bytes 2 data) ++ replicate (m - 2) 0)
              chs i off (p + 2)).
Proof.
  intros -> Hm. unfold Wav.setUint16, DataView.setUint16. simpl.
  by rewrite DataView_set_append.
Qed.

Ltac header_step :=
  erewrite M_bind_ok;
  [| first [ apply setUint32_append | apply setUint16_append ];
     [ rewrite ?length_app, ?length_le_bytes; simpl; lia | lia ] ].

(** On a zeroed buffer of at least 44 bytes the header writes succeed, fill
    the first 44 bytes and leave [pos] at 44. *)
Lemma write_header_run b k chs i off :
  Wav.write_header b (AudioBuffer.numberOfChannels b) (WavSpec.total_length b)
    (Wav.mkLocals (replicate (44 + k) 0) chs i off 0)
  = Ok (tt, Wav.mkLocals (WavSpec.header b ++ replicate k 0) chs i off 44).
Proof.
  unfold Wav.write_header.
  change (replicate (44 + k) 0) with ([] ++ replicate (44 + k) 0).
  do 12 header_step.
  erewrite M_bind_ok by reflexivity.
  cbn [Wav.pos].
  rewrite setUint32_append;
    [| rewrite ?length_app, ?length_le_bytes; simpl; lia | lia ].
  replace (44 + k - 4 - 4 - 4 - 4 - 4 - 2 - 2 - 4 - 4 - 2 - 2 - 4 - 4)%nat
    with k by lia.
  replace (WavSpec.total_length b - (0 + 4 + 4 + 4 + 4 + 4 + 2 + 2 + 4 + 4 + 2 + 2 + 4) - 4)
    with (WavSpec.total_length b - 44) by lia.
  replace (AudioBuffer.sampleRate b * 2 * AudioBuffer.numberOfChannels b)
    with (AudioBuffer.sampleRate b * AudioBuffer.numberOfChannels b * 2) by lia.
  unfold WavSpec.header.
  change (ascii_bytes "RIFF") with (le_bytes 4 0x46464952).
  change (ascii_bytes "WAVE") with (le_bytes 4 0x45564157).
  change (ascii_bytes "fmt ") with (le_bytes 4 0x20746d66).
  change (ascii_bytes "data") with (le_bytes 4 0x61746164).
  rewrite app_nil_l, <- !app_assoc. reflexivity.
Qed.

(** ** The loops *)

(** A loop that finishes keeps its result when given more fuel. *)
Lemma loop_fuel_mono {S : Type} (cond : S -> bool) (body : S -> result S) f f' s r :
  loop f cond body s = Ok r -> (f <= f')%nat -> loop f' cond body s = Ok r.
Proof.
  revert f' s. induction f as [|f IH]; intros f' s H Hle; [discriminate|].
  destruct f' as [|f']; [lia|]. simpl in *.
  destruct (cond s); [|done].
  destruct (body s) as [s'| |]; try discriminate.
  apply IH; [done | lia].
Qed.

Lemma loop_step {S : Type} (cond : S -> bool) (body : S -> result S) f s s' :
  cond s = true -> body s = Ok s' ->
  loop (Datatypes.S f) cond body s = loop f cond body s'.
Proof. intros Hc Hb. simpl. by rewrite Hc, Hb. Qed.

Lemma loop_exit {S : Type} (cond : S -> bool) (body : S -> result S) f s :
  cond s = false -> loop (Datatypes.S f) cond body s = Ok s.
Proof. intros Hc. simpl. by rewrite Hc. Qed.

(** Lines 78-79 collect the channels [j], [j+1], ... of the buffer. *)
Lemma push_channels_loop b v off p d : forall j acc,
  Z.of_nat (length (AudioBuffer.channelData b)) = AudioBuffer.numberOfChannels b ->
  (j + d = length (AudioBuffer.channelData b))%nat ->
  loop (S d)
    (fun s => Wav.i s <? AudioBuffer.numberOfChannels b)
    (fun s =>
       ch ← AudioBuffer.getChannelData b (Wav.i s);
       Ok (Wav.mkLocals (Wav.view s) (Wav.channels s ++ [ch]) (Wav.i s + 1)
             (Wav.offset s) (Wav.pos s)))
    (Wav.mkLocals v acc (Z.of_nat j) off p)
  = Ok (Wav.mkLocals v (acc ++ drop j (AudioBuffer.channelData b))
          (AudioBuffer.numberOfChannels b) off p).
Proof.
  induction d as [|d IH]; intros j acc Hn Hj.
  - simpl. destruct (Z.ltb_spec (Z.of_nat j) (AudioBuffer.numberOfChannels b)); [lia|].
    rewrite drop_ge by lia. rewrite app_nil_r. do 2 f_equal. lia.
  - destruct (lookup_lt_is_Some_2 (AudioBuffer.channelData b) j) as [ch Hch]; [lia|].
    erewrite loop_step; cycle 1.
    + cbn [Wav.i]. apply Z.ltb_lt. lia.
    + cbn [Wav.view Wav.channels Wav.i Wav.offset Wav.pos].
      unfold AudioBuffer.getChannelData.
      destruct (Z.ltb_spec (Z.of_nat j) 0); [lia|].
      rewrite Nat2Z.id, Hch. reflexivity.
    + replace (Z.of_nat j + 1) with (Z.of_nat (S j)) by lia.
      rewrite IH by (done || lia).
      rewrite (drop_S _ _ _ Hch). by rewrite <- app_assoc.
Qed.

Lemma push_channels_run b st :
  Z.of_nat (length (AudioBuffer.channelData b)) = AudioBuffer.numberOfChannels b ->
  Wav.push_channels b st
  = Ok (tt, Wav.mkLocals (Wav.view st) (Wav.channels st ++ AudioBuffer.channelData b)
              (AudioBuffer.numberOfChannels b) (Wav.offset st) (Wav.pos st)).
Proof.
  intros Hn. unfold Wav.push_channels.
  rewrite <- Hn at 1. rewrite Nat2Z.id.
  rewrite (push_channels_loop b _ _ _ (length (AudioBuffer.channelData b)) 0%nat)
    by (done || lia).
  reflexivity.
Qed.

(** Lines 82-88 append the samples of frame [p] for the channels [j],
    [j+1], ... to what has been written. *)
Lemma write_frame_loop chans p d : forall j written m off,
  (j + d = length chans)%nat ->
  44 + off = Z.of_nat (length written) ->
  (2 * d <= m)%nat ->
  loop (S d)
    (fun s => Wav.i s <? Z.of_nat (length chans))
    (fun s =>
       x ← Wav.read_sample s;
       let sample := Wav.quantize x in
       v ← DataView.setInt16 (Wav.view s) (44 + Wav.offset s) sample;
       Ok (Wav.mkLocals v (Wav.channels s) (Wav.i s + 1) (Wav.offset s + 2) (Wav.pos s)))
    (Wav.mkLocals (written ++ replicate m 0) chans (Z.of_nat j) off p)
  = Ok (Wav.mkLocals
          ((written ++ concat (map (fun ch => WavSpec.sample_bytes ch p) (drop j chans)))
             ++ replicate (m - 2 * d) 0)
          chans (Z.of_nat (length chans)) (off + 2 * Z.of_nat d) p).
Proof.
  induction d as [|d IH]; intros j written m off Hj Hoff Hm.
  - simpl. destruct (Z.ltb_spec (Z.of_nat j) (Z.of_nat (length chans))); [lia|].
    rewrite drop_ge by lia. simpl. rewrite app_nil_r, Nat.sub_0_r.
    do 2 f_equal; lia.
  - destruct (lookup_lt_is_Some_2 chans j) as [ch Hch]; [lia|].
    erewrite loop_step; cycle 1.
    + cbn [Wav.i]. apply Z.ltb_lt. lia.
    + unfold Wav.read_sample, typed_get at 1.
      cbn [Wav.view Wav.channels Wav.i Wav.offset Wav.pos].
      destruct (Z.ltb_spec (Z.of_nat j) 0); [lia|].
      rewrite Nat2Z.id, Hch. cbn [mbind result_bind].
      unfold DataView.setInt16. rewrite Hoff.
      rewrite DataView_set_append by lia. reflexivity.
    + replace (Z.of_nat j + 1) with (Z.of_nat (S j)) by lia.
      rewrite IH; [| lia | rewrite length_app, length_le_bytes; lia | lia].
      rewrite (drop_S _ _ _ Hch). cbn [map concat].
      unfold WavSpec.sample_bytes.
      rewrite <- !app_assoc.
      replace (m - 2 - 2 * d)%nat with (m - 2 * S d)%nat by lia.
      replace (off + 2 + 2 * Z.of_nat d) with (off + 2 * Z.of_nat (S d)) by lia.
      reflexivity.
Qed.

Lemma write_frame_run chans written m off p i0 :
  44 + off = Z.of_nat (length written) ->
  (2 * length chans <= m)%nat ->
  Wav.write_frame (Z.of_nat (length chans))
    (Wav.mkLocals (written ++ replicate m 0) chans i0 off p)
  = Ok (Wav.mkLocals
          ((written ++ WavSpec.frame_bytes chans p)
             ++ replicate (m - 2 * length chans) 0)
          chans (Z.of_nat (length chans)) (off + 2 * Z.of_nat (length chans)) p).
Proof.
  intros Hoff Hm. unfold Wav.write_frame. rewrite Nat2Z.id.
  cbn [Wav.view Wav.channels Wav.offset Wav.pos].
  by rewrite (write_frame_loop chans p (length chans) 0%nat) by (done || lia).
Qed.

Lemma frames_bytes_S chans p d :
  WavSpec.frames_bytes chans p (S d)
  = WavSpec.frame_bytes chans p ++ WavSpec.frames_bytes chans (p + 1) d.
Proof.
  unfold WavSpec.frames_bytes. rewrite <- cons_seq. cbn [map concat].
  rewrite Z.add_0_r. f_equal. f_equal.
  rewrite <- seq_shift, map_map. apply map_ext. intros k. f_equal. lia.
Qed.

Lemma length_frame_bytes chans p :
  length (WavSpec.frame_bytes chans p) = (2 * length chans)%nat.
Proof.
  unfold WavSpec.frame_bytes. induction chans as [|ch chans IH]; [done|].
  cbn [map concat]. rewrite length_app, IH. unfold WavSpec.sample_bytes.
  rewrite length_le_bytes. simpl. lia.
Qed.

Lemma length_frames_bytes chans p d :
  length (WavSpec.frames_bytes chans p d) = (2 * length chans * d)%nat.
Proof.
  revert p. induction d as [|d IH]; intros p; [simpl; lia|].
  rewrite frames_bytes_S, length_app, IH, length_frame_bytes. lia.
Qed.

(** Lines 81-90 append the frames [p], [p+1], ..., [p+d-1], where [p+d] is
    the frame count (or [d = 0] when [p] is already past it). *)
Lemma write_data_loop chans len d : forall p written m off i0,
  d = Z.to_nat (len - p) ->
  44 + off = Z.of_nat (length written) ->
  (2 * length chans * d <= m)%nat ->
  exists i' off' p',
    loop (S d)
      (fun s => Wav.pos s <? len)
      (fun s =>
         s' ← Wav.write_frame (Z.of_nat (length chans)) s;
         Ok (Wav.mkLocals (Wav.view s') (Wav.channels s') (Wav.i s')
               (Wav.offset s') (Wav.pos s' + 1)))
      (Wav.mkLocals (written ++ replicate m 0) chans i0 off p)
    = Ok (Wav.mkLocals
            ((written ++ WavSpec.frames_bytes chans p d)
               ++ replicate (m - 2 * length chans * d) 0)
            chans i' off' p').
Proof.
  induction d as [|d IH]; intros p written m off i0 Hd Hoff Hm.
  - exists i0, off, p. rewrite loop_exit by (apply Z.ltb_ge; cbn [Wav.pos]; lia).
    unfold WavSpec.frames_bytes. simpl.
    by rewrite app_nil_r, Nat.mul_0_r, Nat.sub_0_r.
  - set (n := length chans) in *.
    destruct (IH (p + 1) (written ++ WavSpec.frame_bytes chans p) (m - 2 * n)%nat
                (off + 2 * Z.of_nat n) (Z.of_nat n)) as (i' & off' & p' & Hrun).
    + lia.
    + rewrite length_app, length_frame_bytes. fold n. lia.
    + lia.
    + exists i', off', p'.
      erewrite loop_step; cycle 1.
      * cbn [Wav.pos]. apply Z.ltb_lt. lia.
      * unfold n. rewrite write_frame_run by (done || fold n; lia). reflexivity.
      * cbn [Wav.view Wav.channels Wav.i Wav.offset Wav.pos]. fold n.
        rewrite Hrun. rewrite frames_bytes_S, <- !app_assoc.
        replace (m - 2 * n - 2 * n * d)%nat with (m - 2 * n * S d)%nat by nia.
        reflexivity.
Qed.

Lemma write_data_run b written m off i0 :
  0 <= AudioBuffer.length b ->
  Z.of_nat (length (AudioBuffer.channelData b)) = AudioBuffer.numberOfChannels b ->
  44 + off = Z.of_nat (length written) ->
  let d := Z.to_nat (AudioBuffer.length b - 44) in
  (2 * length (AudioBuffer.channelData b) * d <= m)%nat ->
  exists st',
    Wav.write_data b (AudioBuffer.numberOfChannels b)
      (Wav.mkLocals (written ++ replicate m 0) (AudioBuffer.channelData b) i0 off 44)
    = Ok (tt, st') /\
    Wav.view st'
    = (written ++ WavSpec.frames_bytes (AudioBuffer.channelData b) 44 d)
        ++ replicate (m - 2 * length (AudioBuffer.channelData b) * d) 0.
Proof.
  intros Hlen Hn Hoff d Hm.
  destruct (write_data_loop (AudioBuffer.channelData b) (AudioBuffer.length b) d
              44 written m off i0) as (i' & off' & p' & Hrun); [done..|].
  eexists. unfold Wav.write_data. rewrite <- Hn.
  erewrite loop_fuel_mono; [| exact Hrun | lia].
  split; reflexivity.
Qed.

(** ** What [audioBufferToWav] returns *)

(** For a buffer with a non-negative frame count and as many channel arrays
    as its channel count says, the encoder returns the header, then the
    interleaved samples of the frames from index 44 on, then zeros up to the
    total length: the data loop starts at [pos = 44], the value the header
    writes left in [pos], so the frames 0..43 are never read and the last
    [min(length, 44)] frame slots keep the zeros of the fresh buffer. *)
Lemma audioBufferToWav_eq b :
  0 <= AudioBuffer.length b ->
  Z.of_nat (length (AudioBuffer.channelData b)) = AudioBuffer.numberOfChannels b ->
  Wav.audioBufferToWav b
  = Ok (mkBlob
          (WavSpec.header b
             ++ WavSpec.frames_bytes (AudioBuffer.channelData b) 44
                  (Z.to_nat (AudioBuffer.length b - 44))
             ++ replicate
                  (Z.to_nat (2 * AudioBuffer.numberOfChannels b
                             * Z.min (AudioBuffer.length b) 44)) 0)
          "audio/wav").
Proof.
  intros Hlen Hn. unfold Wav.audioBufferToWav.
  set (n := length (AudioBuffer.channelData b)) in *.
  set (k := Z.to_nat (2 * AudioBuffer.numberOfChannels b * AudioBuffer.length b)).
  fold (WavSpec.total_length b).
  assert (Htot : WavSpec.total_length b = Z.of_nat (44 + k)).
  { unfold WavSpec.total_length, k. nia. }
  unfold new_ArrayBuffer.
  destruct (Z.ltb_spec (WavSpec.total_length b) 0); [lia|].
  rewrite Htot at 1. rewrite Nat2Z.id. cbn [mbind result_bind].
  erewrite M_bind_ok by apply write_header_run.
  erewrite M_bind_ok by (apply push_channels_run; done).
  cbn [Wav.view Wav.channels Wav.offset Wav.pos app].
  destruct (write_data_run b (WavSpec.header b) k 0 (AudioBuffer.numberOfChannels b))
    as (st' & Hrun & Hview); [done | done | reflexivity | unfold k; fold n; nia |].
  rewrite Hrun. cbn [mbind result_bind]. rewrite Hview.
  rewrite <- app_assoc. do 4 f_equal. fold n. unfold k. rewrite <- Hn.
  destruct (Z.le_gt_cases (AudioBuffer.length b) 44) as [Hle|Hgt].
  - rewrite Z.min_l by lia.
    replace (Z.to_nat (AudioBuffer.length b - 44)) with 0%nat by lia.
    by rewrite Nat.mul_0_r, Nat.sub_0_r.
  - rewrite Z.min_r by lia.
    set (e := Z.to_nat (AudioBuffer.length b - 44)).
    replace (AudioBuffer.length b) with (Z.of_nat (44 + e)) by lia.
    replace (2 * Z.of_nat n * Z.of_nat (44 + e)) with (Z.of_nat (2 * n * (44 + e))) by lia.
    replace (2 * Z.of_nat n * 44) with (Z.of_nat (2 * n * 44)) by lia.
    rewrite !Nat2Z.id. f_equal. nia.
Qed.

(** ** The fallback decoder *)

Lemma length_le_int16s data :
  (2 * length (PcmSpec.le_int16s data) <= length data)%nat /\
  (Nat.even (length data) = true ->
   (2 * length (PcmSpec.le_int16s data) = length data)%nat).
Proof.
  induction data as [data IH] using (induction_ltof1 _ (@length Z)).
  unfold ltof in IH.
  destruct data as [|lo [|hi rest]]; [simpl; split; [lia|done] | simpl; split; [lia|done] |].
  destruct (IH rest) as [H1 H2]; [simpl; lia|].
  cbn [PcmSpec.le_int16s length]. split; [lia|].
  intros He. simpl in He. specialize (H2 He). lia.
Qed.

(** Element [k] of an [Int16Array] over [data] is pair [k] of [data]. *)
Lemma getInt16_le_int16s data : forall k,
  (2 * k + 1 < length data)%nat ->
  DataView.getInt16 data (2 * k) = PcmSpec.le_int16s data !! k.
Proof.
  induction data as [data IH] using (induction_ltof1 _ (@length Z)).
  unfold ltof in IH. intros k Hk.
  destruct data as [|lo [|hi rest]]; [simpl in Hk; lia | simpl in Hk; lia |].
  destruct k as [|k].
  - reflexivity.
  - cbn [PcmSpec.le_int16s]. rewrite lookup_cons_ne_0 by lia. simpl Nat.pred.
    rewrite <- (IH rest) by (simpl in *; lia).
    unfold DataView.getInt16.
    replace (2 * S k)%nat with (S (S (2 * k))) by lia. reflexivity.
Qed.

Lemma Int16Array_get_lookup h l data k :
  h !! l = Some (Heap.Attached data) ->
  Nat.even (length data) = true ->
  (k < length (PcmSpec.le_int16s data))%nat ->
  Decode.Int16Array_get h
    (Decode.mkTypedArray l (Z.of_nat (length data) / 2)) (Z.of_nat k)
  = PcmSpec.le_int16s data !! k.
Proof.
  intros Hl He Hk. destruct (length_le_int16s data) as [_ H2]. specialize (H2 He).
  unfold Decode.Int16Array_get. cbn [Decode.ta_length Decode.ta_buffer].
  rewrite Hl, <- H2.
  replace (Z.of_nat (2 * length (PcmSpec.le_int16s data)) / 2)
    with (Z.of_nat (length (PcmSpec.le_int16s data)))
    by (rewrite Nat2Z.inj_mul, Z.mul_comm, Z.div_mul; lia).
  destruct (Z.ltb_spec (Z.of_nat k) 0); [lia|].
  destruct (Z.leb_spec (Z.of_nat (length (PcmSpec.le_int16s data))) (Z.of_nat k)); [lia|].
  cbn [orb].
  replace (Z.to_nat (2 * Z.of_nat k)) with (2 * k)%nat by lia.
  apply getInt16_le_int16s. lia.
Qed.

(** Lines 36-39 fill [float32Data] with the rescaled elements, in order. *)
Lemma rescale_loop_steps h a vals d : forall j,
  Decode.ta_length a = Z.of_nat (length vals) ->
  (forall k, (k < length vals)%nat -> Decode.Int16Array_get h a (Z.of_nat k) = vals !! k) ->
  (j + d = length vals)%nat ->
  loop (S d)
    (fun '(i, _) => i <? Decode.ta_length a)
    (fun '(i, float32Data) =>
       Ok (i + 1,
           if i <? 0 then float32Data
           else <[Z.to_nat i := JS.to_float32 (Decode.rescale (Decode.Int16Array_get h a i))]>
                  float32Data))
    (Z.of_nat j, map PcmSpec.sample_of (take j vals) ++ replicate d (S754_zero false))
  = Ok (Z.of_nat (length vals), map PcmSpec.sample_of vals).
Proof.
  induction d as [|d IH]; intros j Hlen Hget Hj.
  - rewrite loop_exit by (apply Z.ltb_ge; lia).
    rewrite take_ge by lia. simpl. rewrite app_nil_r. do 2 f_equal. lia.
  - destruct (lookup_lt_is_Some_2 vals j) as [v Hv]; [lia|].
    erewrite loop_step; [| apply Z.ltb_lt; lia | reflexivity].
    destruct (Z.ltb_spec (Z.of_nat j) 0); [lia|].
    rewrite Nat2Z.id, Hget, Hv by lia.
    rewrite insert_app_r_alt by (rewrite length_map, length_take; lia).
    rewrite length_map, length_take.
    replace (j - j `min` length vals)%nat with 0%nat by lia.
    cbn [replicate insert list_insert].
    replace (Z.of_nat j + 1) with (Z.of_nat (S j)) by lia.
    rewrite <- (IH (S j)) by (done || lia).
    rewrite (take_S_r _ _ _ Hv), map_app, <- app_assoc. reflexivity.
Qed.

Lemma even_mod2 (n : nat) : Nat.even n = (Z.of_nat n mod 2 =? 0).
Proof.
  destruct (Nat.even n) eqn:He.
  - apply Nat.even_spec in He as [k ->]. symmetry. apply Z.eqb_eq.
    rewrite Nat2Z.inj_mul, Z.mul_comm. apply Z.mod_mul. lia.
  - symmetry. apply Z.eqb_neq. intros Hm.
    assert (Ho : Nat.odd n = true) by (rewrite <- Nat.negb_even, He; done).
    apply Nat.odd_spec in Ho as [k ->].
    rewrite Nat2Z.inj_add, Nat2Z.inj_mul, Z.add_comm, Z.mul_comm, Z.mod_add in Hm by lia.
    discriminate.
Qed.

(** The fallback on a non-empty payload of even length: one channel at
    24000 Hz holding the rescaled byte pairs; the store is left as it was. *)
Lemma manualPCMDecode_run h l n0 data ctx :
  h !! l = Some (Heap.Attached data) ->
  Nat.even (length data) = true ->
  data <> [] ->
  Decode.manualPCMDecode (Decode.mkTypedArray l n0) ctx h
  = (Ok (AudioBuffer.mk 1 (Z.of_nat (length (PcmSpec.le_int16s data))) 24000
           [map PcmSpec.sample_of (PcmSpec.le_int16s data)]), h).
Proof.
  intros Hl He Hne.
  destruct (length_le_int16s data) as [_ H2]. specialize (H2 He).
  set (vals := PcmSpec.le_int16s data) in *.
  assert (Hhalf : Z.of_nat (length data) / 2 = Z.of_nat (length vals)).
  { rewrite <- H2, Nat2Z.inj_mul, Z.mul_comm, Z.div_mul; lia. }
  assert (Hpos : (0 < length vals)%nat) by (destruct data; [done | simpl in H2; lia]).
  assert (Hloop :
    Decode.rescale_loop h (Decode.mkTypedArray l (Z.of_nat (length data) / 2))
      (replicate (Z.to_nat (Z.of_nat (length data) / 2)) (S754_zero false))
    = Ok (Z.of_nat (length vals), map PcmSpec.sample_of vals)).
  { unfold Decode.rescale_loop. cbn [Decode.ta_length].
    replace (Z.to_nat (Z.of_nat (length data) / 2)) with (length vals) by lia.
    apply (rescale_loop_steps h
             (Decode.mkTypedArray l (Z.of_nat (length data) / 2))
             vals (length vals) 0%nat).
    - exact Hhalf.
    - intros k Hk. by apply Int16Array_get_lookup.
    - lia. }
  unfold Decode.manualPCMDecode.
  unfold mbind at 1, Heap.M_bind. cbn [Decode.ta_buffer].
  unfold Decode.new_Int16Array. rewrite Hl, <- even_mod2, He.
  unfold mbind at 1, Heap.M_bind. cbn [Decode.ta_length].
  rewrite Hloop.
  unfold mbind at 1, Heap.M_bind, Heap.lift.
  rewrite length_map. unfold Decode.createBuffer.
  destruct (Z.leb_spec (Z.of_nat (length vals)) 0); [lia|].
  cbn [orb Z.leb Z.compare].
  unfold Decode.channel_set, AudioBuffer.getChannelData.
  cbn [Z.ltb Z.compare AudioBuffer.channelData
       AudioBuffer.numberOfChannels AudioBuffer.length AudioBuffer.sampleRate].
  change (Z.to_nat 1) with 1%nat. change (Z.to_nat 0) with 0%nat.
  cbn [replicate lookup list_lookup mbind result_bind].
  rewrite length_replicate, length_map, Nat2Z.id, Nat.ltb_irrefl.
  rewrite drop_replicate, Nat.sub_diag. cbn [replicate insert list_insert].
  by rewrite app_nil_r.
Qed.

(** An odd byte length makes [new Int16Array] throw. *)
Lemma manualPCMDecode_odd h l n0 data ctx :
  h !! l = Some (Heap.Attached data) ->
  Nat.even (length data) = false ->
  Decode.manualPCMDecode (Decode.mkTypedArray l n0) ctx h = (Throw RangeError, h).
Proof.
  intros Hl He. unfold Decode.manualPCMDecode.
  unfold mbind at 1, Heap.M_bind, Decode.new_Int16Array. cbn [Decode.ta_buffer].
  by rewrite Hl, <- even_mod2, He.
Qed.

(** On the empty payload the rescale loop does not run, and [createBuffer]
    rejects the frame count 0. *)
Lemma manualPCMDecode_empty h l n0 ctx :
  h !! l = Some (Heap.Attached []) ->
  Decode.manualPCMDecode (Decode.mkTypedArray l n0) ctx h
  = (Throw NotSupportedError, h).
Proof.
  intros Hl. unfold Decode.manualPCMDecode.
  unfold mbind at 1, Heap.M_bind, Decode.new_Int16Array. cbn [Decode.ta_buffer].
  rewrite Hl. reflexivity.
Qed.

(** ** Exactness of the rescale *)

Lemma all_from_spec n : forall start P v,
  all_from n start P = true -> start <= v < start + Z.of_nat n -> P v = true.
Proof.
  induction n as [|n IH]; intros start P v Hall Hv; [lia|].
  simpl in Hall. apply andb_prop in Hall as [H0 Hrest].
  destruct (Z.eq_dec v start) as [->|Hne]; [done|].
  apply (IH (start + 1)); [done | lia].
Qed.

Lemma fexp64 x : -1021 <= x -> fexp JS.prec64 JS.emax64 x = x - 53.
Proof. intros H. unfold fexp, emin, JS.prec64, JS.emax64. lia. Qed.

Lemma div_eucl_exact a b q : 0 < b -> a = q * b -> Z.div_eucl a b = (q, 0).
Proof.
  intros Hb ->.
  assert (H : Z.div_eucl (q * b) b = ((q * b) / b, (q * b) mod b)).
  { unfold Z.div, Z.modulo. destruct (Z.div_eucl (q * b) b). reflexivity. }
  rewrite H, Z.div_mul, Z.mod_mul by lia. reflexivity.
Qed.

(** Dividing a normal binary64 number by 32768.0 only lowers its exponent
    by 15 (as long as the quotient stays normal): the mantissa is kept. *)
Lemma div_by_32768 s M E :
  digits2_pos M = 53%positive -> -1005 <= E <= 986 ->
  JS.div (S754_finite s M E) (JS.of_Z 32768) = S754_finite s M (E - 15).
Proof.
  intros Hd HE.
  change (JS.of_Z 32768) with (S754_finite false 4503599627370496 (-37)).
  unfold JS.div, SFdiv, SFdiv_core_binary.
  cbn [Zdigits2]. rewrite Hd.
  change (Z.pos (digits2_pos 4503599627370496)) with 53.
  replace (53 + E - (53 + -37)) with (E + 37) by lia.
  rewrite fexp64 by lia.
  replace (Z.min (E + 37 - 53) (E - -37)) with (E - 16) by lia.
  replace (E - -37 - (E - 16)) with 53 by lia.
  rewrite Z.shiftl_mul_pow2 by lia.
  rewrite (div_eucl_exact _ _ (Z.pos M~0)) by (reflexivity || lia).
  change (new_location 4503599627370496 0) with loc_Exact.
  rewrite Bool.xorb_false_r.
  unfold binary_round_aux, shr_fexp. cbn [Zdigits2 digits2_pos]. rewrite Hd.
  change (Z.pos (Pos.succ 53)) with 54.
  rewrite fexp64 by lia.
  replace (54 + (E - 16) - 53 - (E - 16)) with 1 by lia.
  cbn [shr shr_record_of_loc SpecFloat.iter_pos shr_1 orb shr_m loc_of_shr_record round_nearest_even].
  cbn [Zdigits2]. rewrite Hd. rewrite fexp64 by lia.
  replace (53 + (E - 16 + 1) - 53 - (E - 16 + 1)) with 0 by lia.
  cbn [shr shr_m].
  destruct (Z.leb_spec (E - 16 + 1) (JS.emax64 - JS.prec64));
    [| unfold JS.emax64, JS.prec64 in *; lia].
  f_equal. lia.
Qed.

Lemma sample_exact_all : all_from (Z.to_nat 65536) (-32768) sample_exact = true.
Proof. vm_compute. reflexivity. Qed.

(** Dividing a 16-bit integer by 32768.0 and storing the quotient in a
    [Float32Array] loses nothing: the stored sample is exactly [v / 32768]. *)
Lemma sample_of_value v :
  -32768 <= v <= 32767 ->
  PcmSpec.has_value (PcmSpec.sample_of v) (Qmake v 32768).
Proof.
  intros Hv.
  pose proof (all_from_spec _ _ _ v sample_exact_all) as Hall.
  rewrite Z2Nat.id in Hall by lia. specialize (Hall ltac:(lia)).
  unfold sample_exact in Hall.
  unfold PcmSpec.sample_of, Decode.rescale.
  destruct (JS.of_Z v) as [sz| | |s M E] eqn:Hof; try discriminate.
  - apply Z.eqb_eq in Hall. subst v. exists 0%Q. split; [by destruct sz|reflexivity].
  - apply andb_prop in Hall as [Hall Hq]. apply andb_prop in Hall as [Hall HE2].
    apply andb_prop in Hall as [Hd HE1].
    apply Pos.eqb_eq in Hd. apply Z.leb_le in HE1, HE2.
    rewrite div_by_32768 by (done || lia).
    destruct (JS.to_Q (JS.to_float32 (S754_finite s M (E - 15)))) as [q|] eqn:Hto;
      [|discriminate].
    exists q. split; [exact Hto|]. by apply Qeq_bool_iff.
Qed.

Lemma int16_le_range lo hi :
  0 <= lo < 256 -> 0 <= hi < 256 -> -32768 <= PcmSpec.int16_le lo hi <= 32767.
Proof.
  intros Hlo Hhi. unfold PcmSpec.int16_le.
  destruct (Z.ltb_spec (lo + 256 * hi) 32768); lia.
Qed.

Lemma le_int16s_range data :
  Forall (fun x => 0 <= x < 256) data ->
  Forall (fun v => -32768 <= v <= 32767) (PcmSpec.le_int16s data).
Proof.
  induction data as [data IH] using (induction_ltof1 _ (@length Z)).
  unfold ltof in IH. intros Hd.
  destruct data as [|lo [|hi rest]]; [constructor | constructor |].
  cbn [PcmSpec.le_int16s].
  inversion Hd as [|? ? Hlo Hd']; subst. inversion Hd' as [|? ? Hhi Hr]; subst.
  constructor; [by apply int16_le_range|].
  apply IH; [simpl; lia | done].
Qed.

Lemma three_frames_valid : AudioBuffer.valid Samples.three_frames.
Proof.
  unfold AudioBuffer.valid. cbn.
  repeat split; try lia. repeat constructor.
Defined.

Lemma forty_five_frames_valid : AudioBuffer.valid Samples.forty_five_frames.
Proof.
  unfold AudioBuffer.valid. cbn.
  repeat split; try lia. repeat constructor.
Defined.

(** ** Properties of the encoder *)

Lemma valid_channels b :
  AudioBuffer.valid b ->
  0 <= AudioBuffer.length b /\
  Z.of_nat (length (AudioBuffer.channelData b)) = AudioBuffer.numberOfChannels b.
Proof. intros (_ & Hlen & Hn & _). done. Qed.

Lemma length_header b : length (WavSpec.header b) = 44%nat.
Proof. reflexivity. Qed.

(** The clamp and scale of lines 84-85 at the values the specification
    names. *)
Example quantize_one : Wav.quantize (JS.of_float32 Samples.one) = 32767.
Proof. reflexivity. Qed.
Example quantize_minus_one : Wav.quantize (JS.of_float32 Samples.minus_one) = -32768.
Proof. reflexivity. Qed.
Example quantize_zero : Wav.quantize (JS.of_float32 Samples.zero) = 0.
Proof. reflexivity. Qed.
Example quantize_one_and_half : Wav.quantize (JS.of_float32 Samples.one_and_half) = 32767.
Proof. reflexivity. Qed.
Example quantize_minus_two : Wav.quantize (JS.of_float32 Samples.minus_two) = -32768.
Proof. reflexivity. Qed.
Example quantize_undefined : Wav.quantize (JS.ToNumber None) = 0.
Proof. reflexivity. Qed.

(** A little-endian field read back as an unsigned integer is the value
    written, when the value fits the field. *)
Lemma getUint16_le_bytes v rest :
  0 <= v < 2 ^ 16 -> DataView.getUint16 (le_bytes 2 v ++ rest) 0 = Some v.
Proof.
  intros Hv. change (2 ^ 16) with 65536 in Hv.
  unfold DataView.getUint16. cbn [le_bytes app lookup list_lookup].
  f_equal.
  pose proof (Z.div_mod v 256 ltac:(lia)) as H1.
  pose proof (Z.mod_pos_bound v 256 ltac:(lia)) as H2.
  assert (0 <= v / 256 < 256) by (split; [apply Z.div_pos | apply Z.div_lt_upper_bound]; lia).
  rewrite (Z.mod_small (v / 256)) by lia. lia.
Qed.

Lemma getUint32_le_bytes v rest :
  0 <= v < 2 ^ 32 -> DataView.getUint32 (le_bytes 4 v ++ rest) 0 = Some v.
Proof.
  intros Hv. change (2 ^ 32) with 4294967296 in Hv.
  unfold DataView.getUint32. cbn [le_bytes app lookup list_lookup].
  f_equal.
  pose proof (Z.div_mod v 256 ltac:(lia)) as H1.
  pose proof (Z.mod_pos_bound v 256 ltac:(lia)) as H2.
  pose proof (Z.div_mod (v / 256) 256 ltac:(lia)) as H3.
  pose proof (Z.mod_pos_bound (v / 256) 256 ltac:(lia)) as H4.
  pose proof (Z.div_mod (v / 256 / 256) 256 ltac:(lia)) as H5.
  pose proof (Z.mod_pos_bound (v / 256 / 256) 256 ltac:(lia)) as H6.
  assert (0 <= v / 256 / 256 / 256 < 256).
  { split; [repeat apply Z.div_pos; lia|].
    repeat (apply Z.div_lt_upper_bound; [lia|]). lia. }
  rewrite (Z.mod_small (v / 256 / 256 / 256)) by lia. lia.
Qed.

(** Reading back the two bytes written for an integer of the 16-bit signed
    range gives that integer. *)
Lemma getInt16_le_bytes v rest :
  -32768 <= v <= 32767 -> DataView.getInt16 (le_bytes 2 v ++ rest) 0 = Some v.
Proof.
  intros Hv. unfold DataView.getInt16. cbn [le_bytes app lookup list_lookup].
  f_equal.
  pose proof (Z.div_mod v 256 ltac:(lia)) as H1.
  pose proof (Z.mod_pos_bound v 256 ltac:(lia)) as H2.
  pose proof (Z.div_mod (v / 256) 256 ltac:(lia)) as H3.
  pose proof (Z.mod_pos_bound (v / 256) 256 ltac:(lia)) as H4.
  destruct (Z.ltb_spec (v mod 256 + 256 * ((v `div` 256) mod 256)) 32768); lia.
Qed.

(** Every sample the encoder writes is, before [setInt16] stores it, within
    the 16-bit signed range, whatever binary32 number (or [undefined]) was
    read: the two bytes written hold the clamped and scaled sample itself,
    also for samples outside [-1, 1], infinities and NaN. *)
Lemma written_sample_in_range b c ch p :
  samples_valid b ->
  AudioBuffer.channelData b !! c = Some ch ->
  let sample := Wav.quantize (JS.ToNumber (typed_get ch p)) in
  -32768 <= sample <= 32767 /\
  DataView.getInt16 (WavSpec.sample_bytes ch p) 0 = Some sample.
Proof.
  intros Hb Hc sample. unfold samples_valid in Hb.
  rewrite Forall_forall in Hb.
  pose proof (Hb ch (list_elem_of_lookup_2 _ _ _ Hc)) as Hch.
  assert (Hr : -32768 <= sample <= 32767).
  { unfold sample. apply quantize_range.
    destruct (typed_get ch p) as [x|] eqn:Hx; [|reflexivity].
    cbn [JS.ToNumber]. apply of_float32_valid.
    unfold typed_get in Hx. destruct (p <? 0); [discriminate|].
    rewrite Forall_forall in Hch. apply Hch.
    by eapply list_elem_of_lookup_2. }
  split; [exact Hr|].
  unfold WavSpec.sample_bytes. fold sample.
  rewrite <- (app_nil_r (le_bytes 2 sample)). by apply getInt16_le_bytes.
Qed.

(** C1 (the code departs from it). The sample loop does clamp, scale,
    truncate and write little-endian, but it starts at frame 44, not at frame
    0, because [pos] still holds the 44 the header writes left in it. On the
    one-channel buffer of 45 frames with 1.5 first and -2.0 last, the first
    data sample is -32768 (the last frame) where frame 0 should give 32767,
    and the 45th data sample is 0 where the last frame should give -32768. *)
Theorem sample_loop_starts_at_frame_44 :
  exists blob,
    Wav.audioBufferToWav Samples.forty_five_frames = Ok blob /\
    blob_bytes blob
    = WavSpec.header Samples.forty_five_frames ++ [0; 128] ++ replicate 88%nat 0 /\
    DataView.getInt16 (blob_bytes blob) 44 = Some (-32768) /\
    DataView.getInt16 (blob_bytes blob) (44 + 2 * 44) = Some 0 /\
    Wav.quantize (JS.ToNumber (typed_get [Samples.one_and_half] 0)) = 32767.
Proof.
  eexists. split; [vm_compute; reflexivity|]. vm_compute. auto.
Qed.

(** C2. For every valid buffer the encoder returns, and the first 44 bytes
    of its output are the RIFF/WAVE header, field by field, every integer
    field little-endian. *)
Theorem wav_header_layout b :
  AudioBuffer.valid b ->
  exists blob,
    Wav.audioBufferToWav b = Ok blob /\
    let out := blob_bytes blob in
    let totalLength := AudioBuffer.length b * AudioBuffer.numberOfChannels b * 2 + 44 in
    let field (first count : nat) := take count (drop first out) in
    field 0%nat 4%nat = ascii_bytes "RIFF" /\
    field 4%nat 4%nat = le_bytes 4 (totalLength - 8) /\
    field 8%nat 4%nat = ascii_bytes "WAVE" /\
    field 12%nat 4%nat = ascii_bytes "fmt " /\
    field 16%nat 4%nat = le_bytes 4 16 /\
    field 20%nat 2%nat = le_bytes 2 1 /\
    field 22%nat 2%nat = le_bytes 2 (AudioBuffer.numberOfChannels b) /\
    field 24%nat 4%nat = le_bytes 4 (AudioBuffer.sampleRate b) /\
    field 28%nat 4%nat
      = le_bytes 4 (AudioBuffer.sampleRate b * AudioBuffer.numberOfChannels b * 2) /\
    field 32%nat 2%nat = le_bytes 2 (AudioBuffer.numberOfChannels b * 2) /\
    field 34%nat 2%nat = le_bytes 2 16 /\
    field 36%nat 4%nat = ascii_bytes "data" /\
    field 40%nat 4%nat = le_bytes 4 (totalLength - 44).
Proof.
  intros Hv. destruct (valid_channels b Hv) as [Hlen Hn].
  eexists. split; [by apply audioBufferToWav_eq|].
  cbv zeta. cbn [blob_bytes].
  fold (WavSpec.total_length b).
  repeat split; reflexivity.
Qed.

Lemma wav_header_layout_witness :
  AudioBuffer.valid Samples.three_frames /\
  exists blob,
    Wav.audioBufferToWav Samples.three_frames = Ok blob /\
    take 4 (drop 0 (blob_bytes blob)) = ascii_bytes "RIFF" /\
    take 4 (drop 4 (blob_bytes blob)) = [42; 0; 0; 0] /\
    take 4 (drop 24 (blob_bytes blob)) = [192; 93; 0; 0] /\
    take 4 (drop 40 (blob_bytes blob)) = [6; 0; 0; 0].
Proof.
  split; [exact three_frames_valid|].
  destruct (wav_header_layout Samples.three_frames three_frames_valid)
    as (blob & Hrun & H0 & H4 & _ & _ & _ & _ & _ & H24 & _ & _ & _ & _ & H40).
  exists blob. repeat split; assumption.
Defined.

(** C3. For every valid buffer the encoder returns exactly
    [frameCount * channelCount * 2 + 44] bytes. *)
Theorem wav_byte_length b :
  AudioBuffer.valid b ->
  exists blob,
    Wav.audioBufferToWav b = Ok blob /\
    Z.of_nat (length (blob_bytes blob))
    = AudioBuffer.length b * AudioBuffer.numberOfChannels b * 2 + 44.
Proof.
  intros Hv. destruct (valid_channels b Hv) as [Hlen Hn].
  eexists. split; [by apply audioBufferToWav_eq|].
  cbn [blob_bytes].
  rewrite !length_app, length_header, length_frames_bytes, length_replicate.
  rewrite <- Hn.
  set (n := length (AudioBuffer.channelData b)).
  destruct (Z.le_gt_cases (AudioBuffer.length b) 44).
  - rewrite Z.min_l by lia.
    replace (Z.to_nat (AudioBuffer.length b - 44)) with 0%nat by lia. nia.
  - rewrite Z.min_r by lia.
    set (e := Z.to_nat (AudioBuffer.length b - 44)).
    replace (AudioBuffer.length b) with (Z.of_nat (44 + e)) by lia. nia.
Qed.

Lemma wav_byte_length_witness :
  AudioBuffer.valid Samples.three_frames /\
  exists blob,
    Wav.audioBufferToWav Samples.three_frames = Ok blob /\
    Z.of_nat (length (blob_bytes blob)) = 3 * 1 * 2 + 44.
Proof.
  split; [exact three_frames_valid|].
  exact (wav_byte_length Samples.three_frames three_frames_valid).
Defined.

(** C4 (the code departs from it). On the buffer with sampleRate 24000, one
    channel and the three frames 1.0, -1.0, 0.0 the encoder returns 50
    bytes, but the six data bytes are all zero: with three frames the
    condition [pos < buffer.length] is [44 < 3], so no sample is written.
    Bytes 44-45 are 0x0000, not 0x7FFF, and bytes 46-47 are 0x0000, not
    0x8000. *)
Theorem three_frames_data_left_zero :
  exists blob,
    Wav.audioBufferToWav Samples.three_frames = Ok blob /\
    length (blob_bytes blob) = 50%nat /\
    drop 44 (blob_bytes blob) = [0; 0; 0; 0; 0; 0] /\
    DataView.getInt16 (blob_bytes blob) 44 = Some 0 /\
    DataView.getInt16 (blob_bytes blob) 46 = Some 0 /\
    DataView.getInt16 (blob_bytes blob) 48 = Some 0.
Proof.
  eexists. split; [vm_compute; reflexivity|]. vm_compute. auto.
Qed.

Lemma wav_bytes_length b :
  0 <= AudioBuffer.length b ->
  Z.of_nat (length (AudioBuffer.channelData b)) = AudioBuffer.numberOfChannels b ->
  Z.of_nat
    (length
       (WavSpec.header b
          ++ WavSpec.frames_bytes (AudioBuffer.channelData b) 44
               (Z.to_nat (AudioBuffer.length b - 44))
          ++ replicate
               (Z.to_nat (2 * AudioBuffer.numberOfChannels b
                          * Z.min (AudioBuffer.length b) 44)) 0))
  = WavSpec.total_length b.
Proof.
  intros Hlen Hn. unfold WavSpec.total_length.
  rewrite !length_app, length_header, length_frames_bytes, length_replicate.
  rewrite <- Hn.
  set (n := length (AudioBuffer.channelData b)).
  destruct (Z.le_gt_cases (AudioBuffer.length b) 44).
  - rewrite Z.min_l by lia.
    replace (Z.to_nat (AudioBuffer.length b - 44)) with 0%nat by lia. nia.
  - rewrite Z.min_r by lia.
    set (e := Z.to_nat (AudioBuffer.length b - 44)).
    replace (AudioBuffer.length b) with (Z.of_nat (44 + e)) by lia. nia.
Qed.

Lemma header_range b : Forall (fun x => 0 <= x < 256) (WavSpec.header b).
Proof.
  unfold WavSpec.header.
  change (ascii_bytes "RIFF") with (le_bytes 4 0x46464952).
  change (ascii_bytes "WAVE") with (le_bytes 4 0x45564157).
  change (ascii_bytes "fmt ") with (le_bytes 4 0x20746d66).
  change (ascii_bytes "data") with (le_bytes 4 0x61746164).
  repeat (apply Forall_app; split; try apply le_bytes_range).
Qed.

Lemma frames_bytes_range chans p d :
  Forall (fun x => 0 <= x < 256) (WavSpec.frames_bytes chans p d).
Proof.
  unfold WavSpec.frames_bytes. apply Forall_concat, Forall_forall.
  intros fr Hfr. apply list_elem_of_In, in_map_iff in Hfr as (k & <- & _).
  unfold WavSpec.frame_bytes. apply Forall_concat, Forall_forall.
  intros sb Hsb. apply list_elem_of_In, in_map_iff in Hsb as (ch & <- & _).
  apply le_bytes_range.
Qed.

(** ** The checked run of the encoder *)

(** Two loops whose bodies agree on the states an invariant describes run
    alike from a state that satisfies it. *)
Lemma loop_ext_inv {S : Type} (I : S -> Prop) (cond : S -> bool)
    (body1 body2 : S -> result S) :
  (forall s, I s -> cond s = true -> body1 s = body2 s) ->
  (forall s s', I s -> cond s = true -> body2 s = Ok s' -> I s') ->
  forall fuel s, I s -> loop fuel cond body1 s = loop fuel cond body2 s.
Proof.
  intros Heq Hpres. induction fuel as [|fuel IH]; intros s Hs; [reflexivity|].
  cbn [loop]. destruct (cond s) eqn:Hc; [|reflexivity].
  rewrite (Heq s Hs Hc).
  destruct (body2 s) as [s'| |] eqn:Hb; try reflexivity.
  apply IH. by apply (Hpres s).
Qed.

(** What a loop returns satisfies every invariant of its body. *)
Lemma loop_inv {S : Type} (I : S -> Prop) (cond : S -> bool) (body : S -> result S) :
  (forall s s', I s -> cond s = true -> body s = Ok s' -> I s') ->
  forall fuel s r, I s -> loop fuel cond body s = Ok r -> I r.
Proof.
  intros Hpres. induction fuel as [|fuel IH]; intros s r Hs Hrun; [discriminate|].
  cbn [loop] in Hrun. destruct (cond s) eqn:Hc; [|by injection Hrun as <-].
  destruct (body s) as [s'| |] eqn:Hb; try discriminate.
  apply (IH s'); [by apply (Hpres s) | done].
Qed.

(** A read inside the arrays is the same read in a checked run. *)
Lemma read_sample_inside checked st ch :
  typed_get (Wav.channels st) (Wav.i st) = Some ch ->
  is_Some (typed_get ch (Wav.pos st)) ->
  WavOn.read_sample checked st = Wav.read_sample st.
Proof.
  intros Hch [x Hx]. unfold WavOn.read_sample, Wav.read_sample.
  by rewrite Hch, Hx.
Qed.

(** One frame: with the frame index inside every channel, the checked run
    of lines 82-88 is the run of [Wav.write_frame]. *)
Lemma write_frame_inside checked st :
  Forall (fun ch => 0 <= Wav.pos st < Z.of_nat (length ch)) (Wav.channels st) ->
  WavOn.write_frame checked (Z.of_nat (length (Wav.channels st))) st
  = Wav.write_frame (Z.of_nat (length (Wav.channels st))) st.
Proof.
  intros Hin. unfold WavOn.write_frame, Wav.write_frame.
  apply (loop_ext_inv
           (fun s => Wav.channels s = Wav.channels st /\ Wav.pos s = Wav.pos st /\
                     0 <= Wav.i s)).
  - intros s (Hc & Hp & Hi) Hcond. apply Z.ltb_lt in Hcond.
    destruct (lookup_lt_is_Some_2 (Wav.channels st) (Z.to_nat (Wav.i s))) as [ch Hch];
      [lia|].
    rewrite (read_sample_inside checked s ch); [reflexivity | |].
    + unfold typed_get. rewrite Hc. destruct (Z.ltb_spec (Wav.i s) 0); [lia | done].
    + rewrite Forall_forall in Hin.
      specialize (Hin ch (list_elem_of_lookup_2 _ _ _ Hch)).
      rewrite Hp. unfold typed_get. destruct (Z.ltb_spec (Wav.pos st) 0); [lia|].
      apply lookup_lt_is_Some_2. lia.
  - intros s s' (Hc & Hp & Hi) _ Hb.
    destruct (Wav.read_sample s) as [x| |]; try discriminate.
    cbn [mbind result_bind] in Hb.
    destruct (DataView.setInt16 _ _ _) as [v| |]; try discriminate.
    injection Hb as <-. cbn [Wav.channels Wav.pos Wav.i]. split; [done|]. split; [done|lia].
  - cbn [Wav.channels Wav.pos Wav.i]. done.
Qed.

(** A frame leaves the channels and the frame index as they were. *)
Lemma write_frame_keeps n st st' :
  Wav.write_frame n st = Ok st' ->
  Wav.channels st' = Wav.channels st /\ Wav.pos st' = Wav.pos st.
Proof.
  unfold Wav.write_frame.
  apply (loop_inv (fun s => Wav.channels s = Wav.channels st /\ Wav.pos s = Wav.pos st)).
  - intros s s' (Hc & Hp) _ Hb.
    destruct (Wav.read_sample s) as [x| |]; try discriminate.
    cbn [mbind result_bind] in Hb.
    destruct (DataView.setInt16 _ _ _) as [v| |]; try discriminate.
    injection Hb as <-. done.
  - done.
Qed.

(** The frames: with every channel as long as the frame count, the checked
    run of lines 81-90 from a frame index that is not negative is the run of
    [Wav.write_data]. *)
Lemma write_data_inside checked b st :
  Forall (fun ch => Z.of_nat (length ch) = AudioBuffer.length b) (Wav.channels st) ->
  0 <= Wav.pos st ->
  WavOn.write_data checked b (Z.of_nat (length (Wav.channels st))) st
  = Wav.write_data b (Z.of_nat (length (Wav.channels st))) st.
Proof.
  intros Hall Hpos. unfold WavOn.write_data, Wav.write_data. f_equal.
  apply (loop_ext_inv (fun s => Wav.channels s = Wav.channels st /\ 0 <= Wav.pos s)).
  - intros s (Hc & Hp) Hcond. apply Z.ltb_lt in Hcond.
    rewrite <- Hc. rewrite write_frame_inside; [reflexivity|].
    rewrite Hc. eapply Forall_impl; [exact Hall|]. intros ch Hch. cbn beta in *. lia.
  - intros s s'' (Hc & Hp) _ Hb.
    destruct (Wav.write_frame _ s) as [s'| |] eqn:Hf; try discriminate.
    cbn [mbind result_bind] in Hb. injection Hb as <-.
    destruct (write_frame_keeps _ _ _ Hf) as [Hc' Hp'].
    cbn [Wav.channels Wav.pos]. split; [congruence | lia].
  - done.
Qed.

(** When the engine can allocate the output buffer, the run on the engine,
    checked or not, is the run of [Wav.audioBufferToWav]. *)
Lemma audioBufferToWav_on_eq engine checked b :
  AudioBuffer.valid b ->
  can_allocate engine (WavSpec.total_length b) = true ->
  WavOn.audioBufferToWav engine checked b = Wav.audioBufferToWav b.
Proof.
  intros Hv Hcan. pose proof Hv as (Hpos & Hlen & Hn & Hall).
  unfold WavOn.audioBufferToWav, Wav.audioBufferToWav.
  fold (WavSpec.total_length b).
  assert (Htot : 0 <= WavSpec.total_length b) by (unfold WavSpec.total_length; nia).
  unfold WavOn.new_ArrayBuffer, new_ArrayBuffer. rewrite Hcan.
  destruct (Z.ltb_spec (WavSpec.total_length b) 0); [lia|].
  cbn [orb negb mbind result_bind].
  set (k := Z.to_nat (2 * AudioBuffer.numberOfChannels b * AudioBuffer.length b)).
  assert (Hk : Z.to_nat (WavSpec.total_length b) = (44 + k)%nat)
    by (unfold WavSpec.total_length, k; nia).
  rewrite Hk.
  assert (Hrun : forall wd : Wav.M unit,
    (Wav.write_header b (AudioBuffer.numberOfChannels b) (WavSpec.total_length b);;
     Wav.push_channels b;; wd) (Wav.mkLocals (replicate (44 + k) 0) [] 0 0 0)
    = wd (Wav.mkLocals (WavSpec.header b ++ replicate k 0) (AudioBuffer.channelData b)
            (AudioBuffer.numberOfChannels b) 0 44)).
  { intros wd. erewrite M_bind_ok by apply write_header_run.
    erewrite M_bind_ok by (apply push_channels_run; done). reflexivity. }
  unfold mbind at 1 3. unfold Wav.M_bind at 1 4. rewrite !Hrun.
  pose proof (write_data_inside checked b
                (Wav.mkLocals (WavSpec.header b ++ replicate k 0)
                   (AudioBuffer.channelData b) (AudioBuffer.numberOfChannels b) 0 44))
    as Hdata.
  cbn [Wav.channels Wav.pos] in Hdata. rewrite Hn in Hdata.
  rewrite Hdata by (done || lia). reflexivity.
Qed.

(** When the engine cannot allocate the output buffer, line 52 throws. *)
Lemma audioBufferToWav_on_refused engine checked b :
  can_allocate engine (WavSpec.total_length b) = false ->
  WavOn.audioBufferToWav engine checked b = Throw RangeError.
Proof.
  intros Hcan. unfold WavOn.audioBufferToWav, WavOn.new_ArrayBuffer.
  fold (WavSpec.total_length b). rewrite Hcan.
  by rewrite orb_true_r.
Qed.

Lemma eight_channels_valid : AudioBuffer.valid Inputs.eight_channels.
Proof.
  unfold AudioBuffer.valid, Inputs.eight_channels.
  cbn [AudioBuffer.numberOfChannels AudioBuffer.length AudioBuffer.channelData].
  assert (H28 : 0 <= 2 ^ 28) by (apply Z.pow_nonneg; lia).
  split; [lia|]. split; [exact H28|]. split.
  - rewrite length_replicate. reflexivity.
  - apply Forall_replicate. rewrite length_replicate. by apply Z2Nat.id.
Qed.

(** C8 as stated fails: the buffer of eight channels of 2^28 frames is
    valid, and on an engine whose [ArrayBuffer]s hold at most 2^32 bytes
    the encoder throws RangeError at line 52, since the WAV of the buffer
    takes 2^32 + 44 bytes (each of its channels takes 2^30). *)
Lemma wav_encoder_allocation_counterexample :
  AudioBuffer.valid Inputs.eight_channels /\
  WavSpec.total_length Inputs.eight_channels = 2 ^ 32 + 44 /\
  WavOn.audioBufferToWav Inputs.engine_4GiB false Inputs.eight_channels
  = Throw RangeError.
Proof.
  split; [exact eight_channels_valid|]. split; [reflexivity|].
  apply audioBufferToWav_on_refused. reflexivity.
Qed.

(** C8, amended to the buffers whose output the engine can allocate. On
    every valid buffer (a positive channel count, every channel holding
    exactly [frameCount] samples) for which the engine can create the output
    buffer of line 52, the checked run of the encoder returns: no allocation,
    [DataView] write, [getChannelData] or [channels[i]] throws, the fuel is
    not exhausted, and no element of a channel is read outside the channel.
    The unchecked run returns the same blob, and so does the encoder of
    [Wav]: the result depends on the buffer alone. The blob has the type
    audio/wav and holds a complete byte sequence: as long as the total length,
    every element a byte. When the engine cannot create the output buffer,
    the encoder throws RangeError at line 52, before anything is written. *)
Theorem wav_encoder_total engine b :
  AudioBuffer.valid b ->
  (can_allocate engine (WavSpec.total_length b) = true ->
   exists blob,
     WavOn.audioBufferToWav engine true b = Ok blob /\
     WavOn.audioBufferToWav engine false b = Ok blob /\
     Wav.audioBufferToWav b = Ok blob /\
     blob_type blob = "audio/wav"%string /\
     Z.of_nat (length (blob_bytes blob)) = WavSpec.total_length b /\
     Forall (fun x => 0 <= x < 256) (blob_bytes blob)) /\
  (can_allocate engine (WavSpec.total_length b) = false ->
   forall checked, WavOn.audioBufferToWav engine checked b = Throw RangeError).
Proof.
  intros Hv. split.
  - intros Hcan. destruct (valid_channels b Hv) as [Hlen Hn].
    rewrite !audioBufferToWav_on_eq by done.
    eexists. split; [by apply audioBufferToWav_eq|].
    split; [by apply audioBufferToWav_eq|]. split; [by apply audioBufferToWav_eq|].
    cbn [blob_bytes blob_type]. split; [done|]. split.
    + by apply wav_bytes_length.
    + apply Forall_app; split; [apply header_range|].
      apply Forall_app; split; [apply frames_bytes_range|].
      apply Forall_replicate. lia.
  - intros Hcan checked. by apply audioBufferToWav_on_refused.
Qed.

Lemma wav_encoder_total_witness :
  AudioBuffer.valid Samples.forty_five_frames /\
  exists blob,
    WavOn.audioBufferToWav Inputs.engine_4GiB true Samples.forty_five_frames = Ok blob /\
    WavOn.audioBufferToWav Inputs.engine_4GiB false Samples.forty_five_frames = Ok blob /\
    Wav.audioBufferToWav Samples.forty_five_frames = Ok blob /\
    blob_type blob = "audio/wav"%string /\
    Z.of_nat (length (blob_bytes blob)) = 134 /\
    Forall (fun x => 0 <= x < 256) (blob_bytes blob).
Proof.
  split; [exact forty_five_frames_valid|].
  exact (proj1 (wav_encoder_total Inputs.engine_4GiB Samples.forty_five_frames
                  forty_five_frames_valid) eq_refl).
Defined.

Lemma frame_bytes_ext p : forall chans1 chans2,
  length chans1 = length chans2 ->
  (forall c ch1 ch2,
     chans1 !! c = Some ch1 -> chans2 !! c = Some ch2 ->
     typed_get ch1 p = typed_get ch2 p) ->
  WavSpec.frame_bytes chans1 p = WavSpec.frame_bytes chans2 p.
Proof.
  unfold WavSpec.frame_bytes.
  induction chans1 as [|ch1 chans1 IH]; intros [|ch2 chans2] Hlen Hsame;
    try discriminate; [done|].
  cbn [map concat]. f_equal.
  - unfold WavSpec.sample_bytes. by rewrite (Hsame 0%nat ch1 ch2).
  - apply IH; [simpl in Hlen; lia|].
    intros c c1 c2 H1 H2. by apply (Hsame (S c)).
Qed.

Lemma frames_bytes_ext chans1 chans2 first d :
  length chans1 = length chans2 ->
  (forall c ch1 ch2 p,
     chans1 !! c = Some ch1 -> chans2 !! c = Some ch2 ->
     first <= p < first + Z.of_nat d ->
     typed_get ch1 p = typed_get ch2 p) ->
  WavSpec.frames_bytes chans1 first d = WavSpec.frames_bytes chans2 first d.
Proof.
  intros Hlen Hsame. unfold WavSpec.frames_bytes. f_equal.
  apply map_ext_in. intros k Hk. apply in_seq in Hk.
  apply frame_bytes_ext; [done|].
  intros c ch1 ch2 H1 H2. apply (Hsame c); [done | done | lia].
Qed.



(** ** Properties of the decoder *)

Lemma manualPCMDecode_store a ctx h :
  snd (Decode.manualPCMDecode a ctx h) = h.
Proof.
  unfold Decode.manualPCMDecode, mbind, Heap.M_bind, Decode.new_Int16Array, Heap.lift.
  destruct (h !! Decode.ta_buffer a) as [[data|]|]; try reflexivity.
  destruct (Z.of_nat (length data) mod 2 =? 0); [|reflexivity].
  destruct (Decode.rescale_loop _ _ _) as [[i0 fd]| |]; try reflexivity.
  destruct (Decode.createBuffer _ _ _); reflexivity.
Qed.

(** What [decodeAudioData] does once [atob] has returned the binary string:
    the payload is stored at a fresh location, a copy of it at the next one;
    the copy is detached by the container decode; a container decode that
    throws hands over to [manualPCMDecode] on the first location. *)
Lemma decodeAudioData_eq atob base64Data binaryString ctx h :
  atob base64Data = Ok binaryString ->
  let payload := ascii_bytes binaryString in
  let bytes := Decode.mkTypedArray (length h) (Z.of_nat (String.length binaryString)) in
  let h' := h ++ [Heap.Attached payload; Heap.Detached] in
  Decode.decodeAudioData atob base64Data ctx h
  = match Decode.container_decode ctx payload with
    | Ok b => (Ok b, h')
    | Throw _ => Decode.manualPCMDecode bytes ctx h'
    | OutOfFuel => (OutOfFuel, h')
    end.
Proof.
  intros Hatob payload bytes h'.
  unfold Decode.decodeAudioData.
  unfold mbind at 1, Heap.M_bind, Heap.lift. rewrite Hatob.
  unfold mbind at 1, Heap.M_bind, Decode.new_Uint8Array_of.
  unfold mbind at 1, Heap.M_bind, Heap.alloc, mret, Heap.M_ret.
  fold payload. unfold Heap.try_catch.
  unfold mbind at 1, Heap.M_bind, Heap.slice. cbn [Decode.ta_buffer].
  rewrite (list_lookup_middle h [] (Heap.Attached payload) (length h) eq_refl).
  change (Z.to_nat 0) with 0%nat. rewrite drop_0.
  unfold Heap.alloc, Decode.ctx_decodeAudioData.
  rewrite length_app. cbn [length].
  rewrite (list_lookup_middle (h ++ [Heap.Attached payload]) []
             (Heap.Attached payload) (length h + 1))
    by (rewrite length_app; reflexivity).
  unfold mbind, Heap.M_bind, Heap.detach, Heap.lift.
  rewrite insert_app_r_alt by (rewrite length_app; cbn [length]; lia).
  rewrite length_app. cbn [length]. rewrite Nat.sub_diag.
  cbn [insert list_insert]. rewrite <- app_assoc. cbn [app]. fold h'. fold bytes.
  destruct (Decode.container_decode ctx payload); reflexivity.
Qed.

(** On a detached buffer the fallback cannot even build its [Int16Array]:
    this is what the copy of line 18 protects the payload from. *)
Lemma manualPCMDecode_detached h l n0 ctx :
  h !! l = Some Heap.Detached ->
  Decode.manualPCMDecode (Decode.mkTypedArray l n0) ctx h = (Throw TypeError, h).
Proof.
  intros Hl. unfold Decode.manualPCMDecode.
  unfold mbind at 1, Heap.M_bind, Decode.new_Int16Array. cbn [Decode.ta_buffer].
  by rewrite Hl.
Qed.

(** C5 as stated fails at the empty payload, which has even length: the
    fallback returns no buffer there. *)
Lemma manual_decode_even_length_counterexample :
  Nat.even (length (@nil Z)) = true /\
  ~ exists b,
      fst (Decode.manualPCMDecode (Decode.mkTypedArray 0 0) Fixtures.rejecting_ctx
             [Heap.Attached []]) = Ok b.
Proof.
  split; [reflexivity|]. intros [b Hb]. vm_compute in Hb. discriminate.
Qed.

(** C5, amended to non-empty payloads. For every non-empty payload of even
    length the fallback returns a buffer of one channel at 24000 Hz whose
    frame count is the number of byte pairs; sample [k] is byte pair [k],
    read as a little-endian signed 16-bit integer, divided by 32768.0 and
    stored as a binary32, and its value is exactly that integer over 32768.
    The store is unchanged. *)
Theorem manual_decode_nonempty h l n0 ctx data :
  h !! l = Some (Heap.Attached data) ->
  Forall (fun x => 0 <= x < 256) data ->
  Nat.even (length data) = true ->
  data <> [] ->
  let pairs := PcmSpec.le_int16s data in
  Decode.manualPCMDecode (Decode.mkTypedArray l n0) ctx h
  = (Ok (AudioBuffer.mk 1 (Z.of_nat (length pairs)) 24000
           [map (fun v => JS.to_float32 (JS.div (JS.of_Z v) (JS.of_Z 32768))) pairs]),
     h) /\
  (2 * length pairs = length data)%nat /\
  Forall (fun v =>
            -32768 <= v <= 32767 /\
            PcmSpec.has_value
              (JS.to_float32 (JS.div (JS.of_Z v) (JS.of_Z 32768))) (Qmake v 32768))
         pairs.
Proof.
  intros Hl Hbytes He Hne pairs. split; [|split].
  - by apply manualPCMDecode_run.
  - by apply length_le_int16s.
  - pose proof (le_int16s_range data Hbytes) as Hr. fold pairs in Hr.
    eapply Forall_impl; [exact Hr|]. intros v Hv. split; [done|].
    by apply sample_of_value.
Qed.

Lemma manual_decode_nonempty_witness :
  let data := [0; 64; 0; 192] in
  let h := [Heap.Attached data] in
  h !! 0%nat = Some (Heap.Attached data) /\
  Forall (fun x => 0 <= x < 256) data /\
  Nat.even (length data) = true /\
  data <> [] /\
  Decode.manualPCMDecode (Decode.mkTypedArray 0 4) Fixtures.rejecting_ctx h
  = (Ok (AudioBuffer.mk 1 2 24000
           [[S754_finite false 8388608 (-24); S754_finite true 8388608 (-24)]]), h) /\
  PcmSpec.le_int16s data = [16384; -16384] /\
  PcmSpec.has_value (S754_finite false 8388608 (-24)) (Qmake 16384 32768) /\
  PcmSpec.has_value (S754_finite true 8388608 (-24)) (Qmake (-16384) 32768).
Proof.
  intros data h.
  assert (H1 : h !! 0%nat = Some (Heap.Attached data)) by reflexivity.
  assert (H2 : Forall (fun x => 0 <= x < 256) data) by (repeat constructor; lia).
  assert (H3 : Nat.even (length data) = true) by reflexivity.
  assert (H4 : data <> []) by discriminate.
  destruct (manual_decode_nonempty h 0%nat 4 Fixtures.rejecting_ctx data H1 H2 H3 H4)
    as (Hrun & _ & Hvals).
  split; [exact H1|]. split; [exact H2|]. split; [exact H3|]. split; [exact H4|].
  split; [exact Hrun|]. split; [reflexivity|]. split.
  - exact (proj2 (Forall_inv Hvals)).
  - exact (proj2 (Forall_inv (Forall_inv_tail Hvals))).
Defined.

(** C6. Once [atob] has produced the payload, [decodeAudioData] first asks
    the container decoder; its success is the result; when it throws, and
    only then, the result is that of [manualPCMDecode] on the payload; so a
    throw of the whole means both strategies threw, as they do for a payload
    of odd length that the container decoder rejects. *)
Theorem decode_falls_back_on_error atob base64Data binaryString ctx h :
  atob base64Data = Ok binaryString ->
  let payload := ascii_bytes binaryString in
  let bytes := Decode.mkTypedArray (length h) (Z.of_nat (String.length binaryString)) in
  let h' := h ++ [Heap.Attached payload; Heap.Detached] in
  let outcome := fst (Decode.decodeAudioData atob base64Data ctx h) in
  (forall b, Decode.container_decode ctx payload = Ok b -> outcome = Ok b) /\
  (forall e, Decode.container_decode ctx payload = Throw e ->
             outcome = fst (Decode.manualPCMDecode bytes ctx h')) /\
  (forall e, outcome = Throw e ->
             (exists e1, Decode.container_decode ctx payload = Throw e1) /\
             fst (Decode.manualPCMDecode bytes ctx h') = Throw e) /\
  (forall e, Decode.container_decode ctx payload = Throw e ->
             Nat.even (length payload) = false ->
             outcome = Throw RangeError).
Proof.
  intros Hatob payload bytes h' outcome. unfold outcome.
  rewrite (decodeAudioData_eq atob base64Data binaryString ctx h Hatob).
  fold payload. fold bytes. fold h'.
  repeat split.
  - intros b ->. reflexivity.
  - intros e ->. reflexivity.
  - destruct (Decode.container_decode ctx payload) as [b|e1|]; try discriminate.
    by exists e1.
  - destruct (Decode.container_decode ctx payload) as [b|e1|]; try discriminate.
    done.
  - intros e -> Hodd.
    unfold bytes. erewrite manualPCMDecode_odd; [reflexivity | | exact Hodd].
    unfold h'. by apply (list_lookup_middle h [Heap.Detached]).
Qed.

Lemma decode_falls_back_on_error_witness :
  Fixtures.atob "YQ==" = Ok "a"%string /\
  Decode.container_decode Fixtures.rejecting_ctx (ascii_bytes "a") = Throw EncodingError /\
  fst (Decode.decodeAudioData Fixtures.atob "YQ==" Fixtures.rejecting_ctx [])
  = fst (Decode.manualPCMDecode (Decode.mkTypedArray 0 1) Fixtures.rejecting_ctx
           [Heap.Attached [97]; Heap.Detached]) /\
  fst (Decode.decodeAudioData Fixtures.atob "YQ==" Fixtures.rejecting_ctx [])
  = Throw RangeError.
Proof.
  assert (Hatob : Fixtures.atob "YQ==" = Ok "a"%string) by reflexivity.
  destruct (decode_falls_back_on_error Fixtures.atob "YQ==" "a"
              Fixtures.rejecting_ctx [] Hatob) as (_ & Hfb & _ & Hodd).
  split; [exact Hatob|]. split; [reflexivity|]. split.
  - exact (Hfb EncodingError eq_refl).
  - exact (Hodd EncodingError eq_refl eq_refl).
Defined.

(** C7 as stated fails: on the empty payload the fallback throws. *)
Lemma manual_decode_empty_counterexample :
  Decode.manualPCMDecode (Decode.mkTypedArray 0 0) Fixtures.rejecting_ctx
    [Heap.Attached []]
  = (Throw NotSupportedError, [Heap.Attached []]).
Proof. reflexivity. Qed.

(** C7, amended. On the empty payload the rescale loop does not run (no
    division takes place), and the fallback then throws NotSupportedError:
    [createBuffer] rejects the frame count 0, an [AudioBuffer] holds at least
    one frame. Nothing else happens: the store is unchanged. *)
Theorem manual_decode_empty h l n0 ctx :
  h !! l = Some (Heap.Attached []) ->
  Decode.rescale_loop h (Decode.mkTypedArray l 0) [] = Ok (0, []) /\
  Decode.createBuffer 1 0 24000 = Throw NotSupportedError /\
  Decode.manualPCMDecode (Decode.mkTypedArray l n0) ctx h
  = (Throw NotSupportedError, h).
Proof.
  intros Hl. repeat split. by apply manualPCMDecode_empty.
Qed.

Lemma manual_decode_empty_witness :
  [Heap.Attached []] !! 0%nat = Some (Heap.Attached (@nil Z)) /\
  Decode.manualPCMDecode (Decode.mkTypedArray 0 0) Fixtures.rejecting_ctx
    [Heap.Attached []]
  = (Throw NotSupportedError, [Heap.Attached []]).
Proof.
  split; [reflexivity|].
  exact (proj2 (proj2 (manual_decode_empty [Heap.Attached []] 0%nat 0
                         Fixtures.rejecting_ctx eq_refl))).
Defined.

(** C10. [decodeAudioData] gives the container decoder a copy: whatever the
    decoder answers, the store afterwards holds the payload, intact, where
    [bytes] was allocated, and a detached buffer next to it, the copy the
    decoder consumed; the buffers that existed before are untouched. When the
    container decoder throws on a non-empty payload of even length, the
    buffer returned is the one the fallback computes from the bytes of the
    payload. *)
Theorem decode_keeps_payload atob base64Data binaryString ctx h :
  atob base64Data = Ok binaryString ->
  let payload := ascii_bytes binaryString in
  let run := Decode.decodeAudioData atob base64Data ctx h in
  snd run = h ++ [Heap.Attached payload; Heap.Detached] /\
  snd run !! length h = Some (Heap.Attached payload) /\
  snd run !! S (length h) = Some Heap.Detached /\
  (forall l, (l < length h)%nat -> snd run !! l = h !! l) /\
  (forall e, Decode.container_decode ctx payload = Throw e ->
             Nat.even (length payload) = true -> payload <> [] ->
             fst run
             = Ok (AudioBuffer.mk 1 (Z.of_nat (length (PcmSpec.le_int16s payload))) 24000
                     [map PcmSpec.sample_of (PcmSpec.le_int16s payload)])).
Proof.
  intros Hatob payload run.
  assert (Hstore : snd run = h ++ [Heap.Attached payload; Heap.Detached]).
  { unfold run. rewrite (decodeAudioData_eq atob base64Data binaryString ctx h Hatob).
    fold payload.
    destruct (Decode.container_decode ctx payload); try reflexivity.
    apply manualPCMDecode_store. }
  split; [exact Hstore|]. rewrite Hstore.
  split; [by apply (list_lookup_middle h [Heap.Detached])|].
  split.
  { change (h ++ [Heap.Attached payload; Heap.Detached])
      with (h ++ [Heap.Attached payload] ++ [Heap.Detached]).
    rewrite app_assoc. apply list_lookup_middle.
    rewrite length_app. simpl. lia. }
  split; [intros l Hlt; by apply lookup_app_l|].
  intros e He Heven Hne. unfold run.
  rewrite (decodeAudioData_eq atob base64Data binaryString ctx h Hatob).
  fold payload. rewrite He.
  erewrite manualPCMDecode_run; [reflexivity | | exact Heven | exact Hne].
  by apply (list_lookup_middle h [Heap.Detached]).
Qed.

Lemma decode_keeps_payload_witness :
  Fixtures.atob "AEAAwA==" = Ok Fixtures.pcm_pair /\
  snd (Decode.decodeAudioData Fixtures.atob "AEAAwA==" Fixtures.rejecting_ctx
         [Heap.Attached [1; 2; 3]])
  = [Heap.Attached [1; 2; 3]; Heap.Attached [0; 64; 0; 192]; Heap.Detached] /\
  fst (Decode.decodeAudioData Fixtures.atob "AEAAwA==" Fixtures.rejecting_ctx
         [Heap.Attached [1; 2; 3]])
  = Ok (AudioBuffer.mk 1 2 24000
          [[S754_finite false 8388608 (-24); S754_finite true 8388608 (-24)]]).
Proof.
  assert (Hatob : Fixtures.atob "AEAAwA==" = Ok Fixtures.pcm_pair) by reflexivity.
  destruct (decode_keeps_payload Fixtures.atob "AEAAwA==" Fixtures.pcm_pair
              Fixtures.rejecting_ctx [Heap.Attached [1; 2; 3]] Hatob)
    as (Hstore & _ & _ & _ & Hfb).
  split; [exact Hatob|]. split.
  - exact Hstore.
  - exact (Hfb EncodingError eq_refl eq_refl ltac:(discriminate)).
Defined.

(** * Further properties of the code *)

(** ** Exact rounding *)

Lemma pos_iter_xO m p : Z.pos (Pos.iter xO m p) = Z.pos m * 2 ^ Z.pos p.
Proof.
  induction p as [|p IH] using Pos.peano_ind.
  - cbn [Pos.iter]. lia.
  - rewrite Pos.iter_succ, Pos2Z.inj_succ, Z.pow_succ_r by lia.
    replace (Z.pos (Pos.iter xO m p)~0) with (2 * Z.pos (Pos.iter xO m p)) by lia.
    rewrite IH. lia.
Qed.

Lemma shr_1_double j :
  0 <= j ->
  shr_1 {| shr_m := 2 * j; shr_r := false; shr_s := false |}
  = {| shr_m := j; shr_r := false; shr_s := false |}.
Proof. intros Hj. destruct j as [|q|q]; [reflexivity | reflexivity | lia]. Qed.

(** Shifting out [p] zero bits loses nothing. *)
Lemma iter_pos_shr_1_exact p : forall k,
  0 <= k ->
  SpecFloat.iter_pos shr_1 p {| shr_m := k * 2 ^ Z.pos p; shr_r := false; shr_s := false |}
  = {| shr_m := k; shr_r := false; shr_s := false |}.
Proof.
  induction p as [p IH|p IH|]; intros k Hk; cbn [SpecFloat.iter_pos].
  - replace (k * 2 ^ Z.pos p~1) with (2 * ((k * 2 ^ Z.pos p) * 2 ^ Z.pos p)).
    + rewrite shr_1_double by (pose proof (Z.pow_pos_nonneg 2 (Z.pos p)); nia).
      rewrite IH by (pose proof (Z.pow_pos_nonneg 2 (Z.pos p)); nia).
      by apply IH.
    + replace (Z.pos p~1) with (1 + Z.pos p + Z.pos p) by lia.
      rewrite !Z.pow_add_r by lia. lia.
  - replace (k * 2 ^ Z.pos p~0) with ((k * 2 ^ Z.pos p) * 2 ^ Z.pos p).
    + rewrite IH by (pose proof (Z.pow_pos_nonneg 2 (Z.pos p)); nia).
      by apply IH.
    + replace (Z.pos p~0) with (Z.pos p + Z.pos p) by lia.
      rewrite !Z.pow_add_r by lia. lia.
  - replace (k * 2 ^ 1) with (2 * k) by lia. by apply shr_1_double.
Qed.

(** [shr_fexp] on a mantissa with enough trailing zeros is exact. *)
Lemma shr_fexp_exact prec emax k n e :
  0 <= k -> 0 <= n ->
  let m := k * 2 ^ n in
  let t := Z.max 0 (fexp prec emax (Zdigits2 m + e) - e) in
  t <= n ->
  shr_fexp prec emax m e loc_Exact
  = ({| shr_m := k * 2 ^ (n - t); shr_r := false; shr_s := false |}, e + t).
Proof.
  intros Hk Hn m t Ht. unfold shr_fexp, shr. subst t.
  destruct (fexp prec emax (Zdigits2 m + e) - e) as [|p|p] eqn:Hsh;
    cbn [shr_record_of_loc].
  - rewrite Z.max_l, Z.sub_0_r, Z.add_0_r by lia. reflexivity.
  - rewrite Z.max_r in Ht |- * by lia.
    unfold m. replace n with ((n - Z.pos p) + Z.pos p) at 1 by lia.
    rewrite Z.pow_add_r, Z.mul_assoc by lia.
    rewrite iter_pos_shr_1_exact; [reflexivity|].
    pose proof (Z.pow_nonneg 2 (n - Z.pos p)). nia.
  - rewrite Z.max_l, Z.sub_0_r, Z.add_0_r by lia. reflexivity.
Qed.

(** A mantissa of at most 53 digits in the normal range is widened to 53
    digits, the value kept. *)
Lemma binary_round_normal s m e :
  Z.pos (digits2_pos m) <= 53 ->
  -1021 <= Z.pos (digits2_pos m) + e <= 1024 ->
  exists m' e',
    binary_round 53 1024 s m e = S754_finite s m' e' /\
    bounded 53 1024 m' e' = true /\
    e' = Z.pos (digits2_pos m) + e - 53 /\
    Z.pos m' = Z.pos m * 2 ^ (e - e').
Proof.
  intros Hd Hr.
  unfold binary_round, shl_align.
  assert (Hf : fexp 53 1024 (Z.pos (digits2_pos m) + e) = Z.pos (digits2_pos m) + e - 53)
    by (unfold fexp, emin; lia).
  rewrite Hf.
  destruct (Z.pos (digits2_pos m) + e - 53 - e) as [|p|p] eqn:Hsh; [|lia|].
  - assert (Hbound : bounded 53 1024 m e = true).
    { unfold bounded, canonical_mantissa.
      apply andb_true_intro. split; [apply Z.eqb_eq | apply Z.leb_le].
      - unfold fexp, emin. lia.
      - lia. }
    exists m, e. rewrite binary_round_aux_canonical by exact Hbound.
    split; [done|]. split; [done|]. split; [lia|].
    rewrite Z.sub_diag. lia.
  - assert (Hbound : bounded 53 1024 (Pos.iter xO m p) (Z.pos (digits2_pos m) + e - 53) = true).
    { unfold bounded, canonical_mantissa. rewrite digits2_pos_iter_xO.
      apply andb_true_intro. split; [apply Z.eqb_eq | apply Z.leb_le].
      - unfold fexp, emin. lia.
      - lia. }
    exists (Pos.iter xO m p), (Z.pos (digits2_pos m) + e - 53).
    rewrite binary_round_aux_canonical by exact Hbound.
    split; [done|]. split; [done|]. split; [done|].
    rewrite pos_iter_xO. f_equal. f_equal. lia.
Qed.

(** Rounding a product whose mantissa has at most 53 significant bits is
    exact: the integer part of the result is the integer part of the
    product. *)
Lemma binary_round_aux_exact s K n E :
  E <= 0 -> 0 <= n -> Z.pos K < 2 ^ 53 ->
  Z.pos K * 2 ^ n < 2 ^ (52 - E) ->
  -1074 <= E ->
  magnitude (binary_round_aux 53 1024 s (Z.pos K * 2 ^ n) E loc_Exact)
  = (Z.pos K * 2 ^ n) / 2 ^ (- E).
Proof.
  intros HE Hn HK HM HEmin. unfold binary_round_aux.
  assert (Hpow : forall a b, 0 <= a -> 0 <= b -> 2 ^ (a + b) = 2 ^ a * 2 ^ b)
    by (intros; apply Z.pow_add_r; lia).
  assert (Hpos : forall a, 0 <= a -> 0 < 2 ^ a) by (intros; apply Z.pow_pos_nonneg; lia).
  set (M := Z.pos K * 2 ^ n) in *.
  assert (HMpos : 0 < M) by (unfold M; pose proof (Hpos n Hn); nia).
  set (t1 := Z.max 0 (fexp 53 1024 (Zdigits2 M + E) - E)).
  assert (HdM : Zdigits2 M + E <= 52).
  { assert (Zdigits2 M <= 52 - E); [|lia].
    apply Zdigits2_le; lia. }
  assert (Ht1 : 0 <= t1 <= n).
  { unfold t1, fexp, emin.
    assert (Zdigits2 M <= 53 + n); [|lia].
    apply Zdigits2_le; [lia | lia |].
    unfold M. rewrite Hpow by lia. pose proof (Hpos n Hn). nia. }
  assert (He1 : E + t1 <= 0) by (unfold t1, fexp, emin; lia).
  pose proof (shr_fexp_exact 53 1024 (Z.pos K) n E ltac:(lia) Hn) as Hs.
  cbv zeta in Hs. fold M in Hs. fold t1 in Hs. rewrite Hs by lia. clear Hs.
  cbn [shr_m loc_of_shr_record shr_r shr_s round_nearest_even].
  set (m1 := Z.pos K * 2 ^ (n - t1)).
  assert (Hm1 : M = m1 * 2 ^ t1).
  { unfold M, m1. rewrite <- Z.mul_assoc, <- Hpow by lia. f_equal. f_equal. lia. }
  assert (Hm1pos : 0 < m1) by (unfold m1; pose proof (Hpos (n - t1)); nia).
  pose proof (shr_fexp_spec 53 1024 m1 (E + t1) loc_Exact ltac:(lia)) as [He2 Hm2].
  destruct (shr_fexp 53 1024 m1 (E + t1) loc_Exact) as [mrs'' e''].
  cbn [fst snd] in He2, Hm2.
  set (t2 := Z.max 0 (fexp 53 1024 (Zdigits2 m1 + (E + t1)) - (E + t1))) in *.
  assert (Hd1 : Zdigits2 m1 + (E + t1) <= 53).
  { assert (Zdigits2 m1 <= 53 - (E + t1)); [|lia].
    apply Zdigits2_le; [lia | lia |].
    assert (m1 * 2 ^ t1 < 2 ^ (52 - E)) by lia.
    replace (52 - E) with ((52 - (E + t1)) + t1) in H by lia.
    rewrite Hpow in H by lia. pose proof (Hpos t1 ltac:(lia)).
    replace (53 - (E + t1)) with (1 + (52 - (E + t1))) by lia.
    rewrite Hpow by lia. pose proof (Hpos (52 - (E + t1)) ltac:(lia)).
    change (2 ^ 1) with 2. nia. }
  pose proof (fexp64_le _ Hd1) as Hf2.
  assert (Ht2 : 0 <= t2) by lia.
  assert (He'' : e'' <= 0) by lia.
  pose proof (Hpos t1 ltac:(lia)) as Hpt1.
  pose proof (Hpos t2 Ht2) as Hpt2. pose proof (Hpos (- e'') ltac:(lia)) as Hpe''.
  assert (Hgoal : (m1 / 2 ^ t2) / 2 ^ (- e'') = M / 2 ^ (- E)).
  { rewrite Z.div_div by lia. rewrite <- Hpow by lia.
    replace (t2 + - e'') with (- (E + t1)) by lia.
    rewrite Hm1.
    replace (- E) with (- (E + t1) + t1) by lia.
    rewrite Hpow by lia.
    rewrite Z.div_mul_cancel_r; [done | | lia].
    pose proof (Hpos (- (E + t1)) ltac:(lia)). lia. }
  rewrite <- Hgoal, Hm2.
  destruct (m1 `div` 2 ^ t2) as [|m|m] eqn:Hdiv; cbn [magnitude].
  - by rewrite Z.div_0_l by lia.
  - replace (e'' <=? 1024 - 53) with true by (symmetry; apply Z.leb_le; lia).
    cbn [magnitude].
    by rewrite <- Z.shiftr_opp_r, Z.shiftr_div_pow2 by lia.
  - pose proof (Z.div_pos m1 (2 ^ t2) ltac:(lia) Hpt2). lia.
Qed.

(** ** Lines 84-85 on a binary32 sample *)

(** A finite number with exponent below -52 is strictly inside (-1, 1):
    the clamp returns it. *)
Lemma clamp_small s m e : e <= -53 -> Wav.clamp (S754_finite s m e) = S754_finite s m e.
Proof.
  intros He. unfold Wav.clamp, JS.Math_min, JS.Math_max.
  change (JS.of_Z 1) with (S754_finite false 4503599627370496 (-52)).
  change (JS.of_Z (-1)) with (S754_finite true 4503599627370496 (-52)).
  assert (Hc : (-52 ?= e) = Gt) by (apply Z.compare_gt_iff; lia).
  destruct s; cbn [SFcompare]; rewrite Hc; cbn [SFcompare CompOpp]; try rewrite Hc; reflexivity.
Qed.

Lemma bounded_64_digits m e :
  bounded 53 1024 m e = true -> -1074 < e -> Z.pos (digits2_pos m) = 53.
Proof.
  unfold bounded, canonical_mantissa. intros Hb He.
  apply andb_prop in Hb as [Hc _]. apply Z.eqb_eq in Hc.
  unfold fexp, emin in Hc. lia.
Qed.

(** A canonical finite number with exponent above -53 has magnitude at
    least 1: the clamp returns 1 or -1. *)
Lemma clamp_big s m e :
  bounded 53 1024 m e = true -> -52 <= e ->
  Wav.clamp (S754_finite s m e) = JS.of_Z (if s then -1 else 1).
Proof.
  intros Hb He.
  assert (Hnorm : e = -52 -> 2 ^ 52 <= Z.pos m).
  { intros ->. pose proof (bounded_64_digits m (-52) Hb ltac:(lia)) as Hd.
    pose proof (digits2_pos_bounds m) as [Hlo _]. by rewrite Hd in Hlo. }
  unfold Wav.clamp, JS.Math_min, JS.Math_max.
  change (JS.of_Z 1) with (S754_finite false 4503599627370496 (-52)).
  change (JS.of_Z (-1)) with (S754_finite true 4503599627370496 (-52)).
  destruct s; cbn [SFcompare].
  - destruct (Z.compare_spec (-52) e) as [Heq|Hlt|Hgt]; [| reflexivity | lia].
    subst e. specialize (Hnorm eq_refl).
    rewrite Pos.compare_cont_spec.
    destruct (Pos.compare_spec 4503599627370496 m) as [Hm|Hm|Hm];
      cbn [Pos.switch_Eq CompOpp]; try reflexivity.
    exfalso. change (2 ^ 52) with 4503599627370496 in Hnorm.
    apply Pos2Z.pos_lt_pos in Hm. clear -Hm Hnorm. lia.
  - destruct (Z.compare_spec (-52) e) as [Heq|Hlt|Hgt]; [| reflexivity | lia].
    subst e. specialize (Hnorm eq_refl).
    rewrite Pos.compare_cont_spec.
    destruct (Pos.compare_spec 4503599627370496 m) as [Hm|Hm|Hm];
      cbn [Pos.switch_Eq]; try reflexivity.
    exfalso. change (2 ^ 52) with 4503599627370496 in Hnorm.
    apply Pos2Z.pos_lt_pos in Hm. clear -Hm Hnorm. lia.
Qed.

(** [0.5 + x < 0] for a negative [x] inside (-1, 0): exactly when [x] is
    below -0.5. *)
Lemma add_half_lt m e :
  bounded 53 1024 m e = true -> -1074 < e <= -53 ->
  JS.lt (JS.add JS.half (S754_finite true m e)) (JS.of_Z 0)
  = (e =? -53) && (2 ^ 52 <? Z.pos m).
Proof.
  intros Hb He. pose proof (bounded_64_digits m e Hb ltac:(lia)) as Hd.
  pose proof (digits2_pos_bounds m) as [Hlo Hhi]. rewrite Hd in Hlo, Hhi.
  change (53 - 1) with 52 in Hlo.
  change JS.half with (S754_finite false 4503599627370496 (-53)).
  unfold JS.add, SFadd.
  replace (Z.min (-53) e) with e by lia.
  unfold shl_align at 2. rewrite Z.sub_diag. cbn [fst cond_Zopp].
  unfold shl_align.
  destruct (e - -53) as [|p|p] eqn:Hsh; [|lia|]; cbn [fst].
  - assert (e = -53) by lia. subst e. cbn [Z.eqb andb].
    change (2 ^ 52) with 4503599627370496 in *.
    destruct (4503599627370496 + - Z.pos m) as [|k|k] eqn:Hsum.
    + cbn. symmetry. apply Z.ltb_ge. lia.
    + lia.
    + unfold binary_normalize, JS.prec64, JS.emax64.
      destruct (binary_round_normal true k (-53)) as (m' & e' & -> & _).
      * assert (Zdigits2 (Z.pos k) <= 52); [|cbn [Zdigits2] in *; lia].
        apply Zdigits2_le; [lia | lia |]. change (2 ^ 52) with 4503599627370496. lia.
      * pose proof (Pos2Z.is_pos (digits2_pos k)).
        assert (Zdigits2 (Z.pos k) <= 52); [|cbn [Zdigits2] in *; lia].
        apply Zdigits2_le; [lia | lia |]. change (2 ^ 52) with 4503599627370496. lia.
      * cbn. symmetry. apply Z.ltb_lt. lia.
  - assert (He53 : (e =? -53) = false) by (apply Z.eqb_neq; lia).
    rewrite He53. cbn [andb].
    rewrite pos_iter_xO.
    pose proof (Z.pow_le_mono_r 2 1 (Z.pos p) ltac:(lia) ltac:(lia)) as Hp.
    change (2 ^ 1) with 2 in Hp.
    change (2 ^ 53) with 9007199254740992 in Hhi.
    destruct (4503599627370496 * 2 ^ Z.pos p + - Z.pos m) as [|k|k] eqn:Hsum.
    + reflexivity.
    + unfold binary_normalize. apply lt_zero_sign, binary_round_sign.
    + lia.
Qed.

Lemma truncate_magnitude s r :
  sign_is s r -> JS.truncate r = cond_Zopp s (magnitude r).
Proof.
  destruct r as [s'|s'| |s' m e]; cbn [JS.truncate magnitude sign_is];
    try (destruct s; reflexivity).
  by intros ->.
Qed.

(** What a valid binary32 number looks like. *)
Lemma bounded_32 m e :
  bounded 24 128 m e = true ->
  Z.pos (digits2_pos m) <= 24 /\ -149 <= e <= 104 /\
  (Z.pos (digits2_pos m) = 24 \/ e = -149).
Proof.
  unfold bounded, canonical_mantissa. intros Hb.
  apply andb_prop in Hb as [Hc He]. apply Z.eqb_eq in Hc. apply Z.leb_le in He.
  unfold fexp, emin in Hc. lia.
Qed.

(** The product of a widened binary32 number inside (-1, 1) and a 16-bit
    scale factor [c * 2^k] is computed without rounding error as far as
    its integer part goes. *)
Lemma mul_magnitude s mx ex m p e (c : positive) k cm ce :
  Z.pos mx = Z.pos m * 2 ^ p -> ex = e - p -> 0 <= p <= 53 ->
  Z.pos m < 2 ^ 24 -> Z.pos m < 2 ^ (- e) -> -149 <= e < 0 ->
  Z.pos cm = Z.pos c * 2 ^ k -> ce = - k -> 0 <= k <= 52 -> Z.pos c <= 2 ^ 15 ->
  magnitude (binary_round_aux 53 1024 s (Z.pos (mx * cm)) (ex + ce) loc_Exact)
  = (Z.pos m * Z.pos c) / 2 ^ (- e).
Proof.
  intros Hmx -> Hp Hm24 Hm He Hcm -> Hk Hc.
  assert (Hpow : forall a b, 0 <= a -> 0 <= b -> 2 ^ (a + b) = 2 ^ a * 2 ^ b)
    by (intros; apply Z.pow_add_r; lia).
  assert (Hpos : forall a, 0 <= a -> 0 < 2 ^ a) by (intros; apply Z.pow_pos_nonneg; lia).
  assert (HM : Z.pos (mx * cm) = Z.pos (m * c) * 2 ^ (p + k)).
  { rewrite !Pos2Z.inj_mul, Hmx, Hcm, Hpow by lia. ring. }
  rewrite HM.
  pose proof (Hpos p ltac:(lia)) as Hpp. pose proof (Hpos k ltac:(lia)) as Hpk.
  pose proof (Hpos (- e) ltac:(lia)) as Hpe.
  pose proof (Hpos (p + k) ltac:(lia)) as Hppk.
  rewrite binary_round_aux_exact.
  - replace (- (e - p + - k)) with (- e + (p + k)) by lia.
    rewrite (Hpow (- e)) by lia.
    rewrite Z.div_mul_cancel_r by lia.
    by rewrite Pos2Z.inj_mul.
  - lia.
  - lia.
  - rewrite Pos2Z.inj_mul.
    assert (Z.pos m * Z.pos c <= 2 ^ 24 * 2 ^ 15) by (apply Z.mul_le_mono_nonneg; lia).
    change (2 ^ 24 * 2 ^ 15) with 549755813888 in H.
    change (2 ^ 53) with 9007199254740992. lia.
  - replace (52 - (e - p + - k)) with ((52 + - e) + (p + k)) by lia.
    rewrite (Hpow (52 + - e)) by lia.
    apply Z.mul_lt_mono_pos_r; [done|].
    rewrite Pos2Z.inj_mul, Hpow by lia.
    assert (Z.pos c < 2 ^ 52) by (change (2 ^ 15) with 32768 in Hc;
      change (2 ^ 52) with 4503599627370496; lia).
    rewrite (Z.mul_comm (2 ^ 52)).
    apply Z.mul_lt_mono_nonneg; lia.
  - lia.
Qed.

(** The integer a finite binary32 sample inside (-1, 1) is quantized to,
    in integer arithmetic. *)
Lemma quantize_small s m e :
  bounded 24 128 m e = true -> Z.pos m < 2 ^ (- e) ->
  Wav.quantize (JS.of_float32 (S754_finite s m e))
  = if s && (2 ^ (- e) <? 2 * Z.pos m)
    then - ((Z.pos m * 32768) / 2 ^ (- e))
    else cond_Zopp s ((Z.pos m * 32767) / 2 ^ (- e)).
Proof.
  intros Hb Hm.
  assert (Hpow : forall a b, 0 <= a -> 0 <= b -> 2 ^ (a + b) = 2 ^ a * 2 ^ b)
    by (intros; apply Z.pow_add_r; lia).
  assert (Hpos : forall a, 0 <= a -> 0 < 2 ^ a) by (intros; apply Z.pow_pos_nonneg; lia).
  destruct (bounded_32 m e Hb) as (Hd24 & He & _).
  pose proof (digits2_pos_bounds m) as [Hlo Hhi].
  pose proof (Pos2Z.is_pos (digits2_pos m)) as Hdpos.
  set (d := Z.pos (digits2_pos m)) in *.
  assert (He0 : e < 0).
  { destruct (Z.le_gt_cases 0 e) as [H0|]; [|done].
    destruct e as [|pe|pe]; [simpl in Hm; lia | | lia].
    rewrite Z.pow_neg_r in Hm by lia. lia. }
  assert (Hde : d + e <= 0).
  { destruct (Z.le_gt_cases (d + e) 0) as [|Hgt]; [done|].
    assert (2 ^ (- e) <= 2 ^ (d - 1)) by (apply Z.pow_le_mono_r; lia). lia. }
  assert (Hm24 : Z.pos m < 2 ^ 24).
  { assert (2 ^ d <= 2 ^ 24) by (apply Z.pow_le_mono_r; lia). lia. }
  destruct (binary_round_normal s m e) as (mx & ex & Hx & Hbx & Hex & Hmx);
    [fold d; lia | fold d; lia |].
  fold d in Hex. cbn [JS.of_float32]. unfold JS.prec64, JS.emax64. rewrite Hx.
  set (p := 53 - d).
  assert (Hexp : ex = e - p) by (unfold p; lia).
  replace (e - ex) with p in Hmx by lia.
  assert (Hp : 0 <= p <= 53) by (unfold p; lia).
  pose proof (Hpos p ltac:(lia)) as Hpp. pose proof (Hpos (- e) ltac:(lia)) as Hpe.
  unfold Wav.quantize. rewrite clamp_small by lia.
  unfold Wav.scale, JS.bitor0.
  assert (Hbranch : JS.lt (JS.add JS.half (S754_finite s mx ex)) (JS.of_Z 0)
                    = s && (2 ^ (- e) <? 2 * Z.pos m)).
  { destruct s; cbn [andb].
    - rewrite add_half_lt by (done || lia).
      destruct (Z.eqb_spec ex (-53)) as [Heq|Hne]; cbn [andb].
      + assert (Hd : - e = d) by lia. rewrite Hd.
        assert (H52 : 2 ^ 52 = 2 ^ (d - 1) * 2 ^ p).
        { rewrite <- Hpow by lia. f_equal. unfold p. lia. }
        assert (H2d : 2 ^ d = 2 * 2 ^ (d - 1)).
        { replace d with (1 + (d - 1)) at 1 by lia. rewrite Hpow by lia. done. }
        rewrite Hmx, H52, H2d.
        destruct (Z.ltb_spec (2 ^ (d - 1) * 2 ^ p) (Z.pos m * 2 ^ p));
          destruct (Z.ltb_spec (2 * 2 ^ (d - 1)) (2 * Z.pos m)); try done; nia.
      + symmetry. apply Z.ltb_ge.
        assert (2 ^ (d + 1) <= 2 ^ (- e)) by (apply Z.pow_le_mono_r; lia).
        rewrite Hpow in H by lia. change (2 ^ 1) with 2 in H. lia.
    - apply lt_zero_sign, add_half_sign. }
  rewrite Hbranch.
  assert (H32768 : magnitude (JS.mul (S754_finite s mx ex) (JS.of_Z 32768))
                   = (Z.pos m * 32768) / 2 ^ (- e)).
  { rewrite mul_32768.
    apply (mul_magnitude s mx ex m p e 32768 37); try done; try lia. }
  assert (H32767 : magnitude (JS.mul (S754_finite s mx ex) (JS.of_Z 32767))
                   = (Z.pos m * 32767) / 2 ^ (- e)).
  { rewrite mul_32767.
    apply (mul_magnitude s mx ex m p e 32767 38); try done; try lia. }
  assert (S32768 : sign_is s (JS.mul (S754_finite s mx ex) (JS.of_Z 32768)))
    by (rewrite mul_32768; apply binary_round_aux_sign).
  assert (S32767 : sign_is s (JS.mul (S754_finite s mx ex) (JS.of_Z 32767)))
    by (rewrite mul_32767; apply binary_round_aux_sign).
  assert (Hq8 : 0 <= (Z.pos m * 32768) / 2 ^ (- e) <= 32768).
  { split; [apply Z.div_pos; lia|]. apply Z.div_le_upper_bound; [done|]. nia. }
  assert (Hq7 : 0 <= (Z.pos m * 32767) / 2 ^ (- e) <= 32767).
  { split; [apply Z.div_pos; lia|]. apply Z.div_le_upper_bound; [done|]. nia. }
  destruct (s && (2 ^ (- e) <? 2 * Z.pos m)) eqn:Hcond.
  - apply andb_prop in Hcond as [-> _].
    rewrite ToInt32_small; rewrite (truncate_magnitude true) by done; rewrite H32768;
      cbn [cond_Zopp]; [done|]. change (2 ^ 31) with 2147483648. lia.
  - rewrite ToInt32_small; rewrite (truncate_magnitude s) by done; rewrite H32767;
      [done|]. change (2 ^ 31) with 2147483648. destruct s; cbn [cond_Zopp]; lia.
Qed.

(** A finite binary32 sample of magnitude 1 or more is saturated. *)
Lemma quantize_big s m e :
  bounded 24 128 m e = true -> (0 <= e \/ 2 ^ (- e) <= Z.pos m) ->
  Wav.quantize (JS.of_float32 (S754_finite s m e)) = if s then -32768 else 32767.
Proof.
  intros Hb Hbig.
  destruct (bounded_32 m e Hb) as (Hd24 & He & _).
  pose proof (digits2_pos_bounds m) as [Hlo Hhi].
  pose proof (Pos2Z.is_pos (digits2_pos m)) as Hdpos.
  set (d := Z.pos (digits2_pos m)) in *.
  assert (Hde : 1 <= d + e).
  { destruct Hbig as [|Hbig]; [lia|].
    destruct (Z.le_gt_cases 1 (d + e)) as [|Hlt]; [done|].
    assert (2 ^ d <= 2 ^ (- e)) by (apply Z.pow_le_mono_r; lia). lia. }
  destruct (binary_round_normal s m e) as (mx & ex & Hx & Hbx & Hex & Hmx);
    [fold d; lia | fold d; lia |].
  fold d in Hex. cbn [JS.of_float32]. unfold JS.prec64, JS.emax64. rewrite Hx.
  unfold Wav.quantize. rewrite clamp_big by (done || lia).
  by destruct s.
Qed.

(** ** Lines 84-85 over the rationals *)

Lemma quantize_Q_high q : (1 <= q)%Q -> quantize_Q q = 32767.
Proof.
  destruct q as [n d]. unfold Qle. cbn [Qnum Qden]. intros H.
  unfold quantize_Q, Qmin, Qmax, GenericMinMax.gmin, GenericMinMax.gmax, Qcompare.
  cbn [Qnum Qden].
  destruct (Z.compare_spec (1 * Z.pos d) (n * 1)); try lia; reflexivity.
Qed.

Lemma quantize_Q_low q : (q <= -1)%Q -> quantize_Q q = -32768.
Proof.
  destruct q as [n d]. unfold Qle. cbn [Qnum Qden]. intros H.
  unfold quantize_Q, Qmin, Qmax, GenericMinMax.gmin, GenericMinMax.gmax, Qcompare.
  cbn [Qnum Qden].
  destruct (Z.compare_spec (1 * Z.pos d) (n * 1)); try lia.
  cbn [Qnum Qden].
  destruct (Z.compare_spec (-1 * Z.pos d) (n * 1)); try lia; reflexivity.
Qed.

Lemma quantize_Q_mid n d :
  - Z.pos d < n < Z.pos d ->
  quantize_Q (n # d)
  = if Z.pos d + 2 * n <? 0 then Z.quot (n * 32768) (Z.pos d)
    else Z.quot (n * 32767) (Z.pos d).
Proof.
  intros H.
  unfold quantize_Q, Qmin, Qmax, GenericMinMax.gmin, GenericMinMax.gmax, Qcompare.
  cbn [Qnum Qden].
  destruct (Z.compare_spec (1 * Z.pos d) (n * 1)); try lia.
  cbn [Qnum Qden].
  destruct (Z.compare_spec (-1 * Z.pos d) (n * 1)); try lia.
  destruct (Qlt_le_dec _ _) as [Hlt|Hle].
  - unfold Qlt in Hlt. cbn in Hlt.
    destruct (Z.ltb_spec (Z.pos d + 2 * n) 0); [|lia].
    unfold Qtrunc. cbn. by rewrite Pos.mul_1_r.
  - unfold Qle in Hle. cbn in Hle.
    destruct (Z.ltb_spec (Z.pos d + 2 * n) 0); [lia|].
    unfold Qtrunc. cbn. by rewrite Pos.mul_1_r.
Qed.

(** What is written for a zero or finite binary32 sample is what lines
    84-85 give over the rationals: the floating-point evaluation of the
    clamp, the comparison, the product and the truncation loses nothing. *)
Lemma quantize_to_Q y q :
  valid_binary JS.prec32 JS.emax32 y = true ->
  JS.to_Q y = Some q ->
  Wav.quantize (JS.ToNumber (Some y)) = quantize_Q q.
Proof.
  intros Hv Hq. destruct y as [s| | |s m e]; try discriminate.
  - injection Hq as <-. by destruct s.
  - cbn [valid_binary] in Hv. cbn [JS.ToNumber]. cbn [JS.to_Q] in Hq.
    injection Hq as <-.
    assert (Hpos : forall a, 0 <= a -> 0 < 2 ^ a) by (intros; apply Z.pow_pos_nonneg; lia).
    destruct e as [|pe|pe].
    + rewrite quantize_big by (done || lia).
      destruct s; cbn [cond_Zopp]; symmetry.
      * apply quantize_Q_low. unfold Qle. cbn. lia.
      * apply quantize_Q_high. unfold Qle. cbn. lia.
    + rewrite quantize_big by (done || lia).
      pose proof (Hpos (Z.pos pe) ltac:(lia)).
      destruct s; cbn [cond_Zopp]; symmetry.
      * apply quantize_Q_low. unfold Qle. cbn [inject_Z Qnum Qden]. nia.
      * apply quantize_Q_high. unfold Qle. cbn [inject_Z Qnum Qden]. nia.
    + assert (HD : Z.pos (2 ^ pe) = 2 ^ (- Z.neg pe)).
      { rewrite Pos2Z.inj_pow. reflexivity. }
      destruct (Z.le_gt_cases (2 ^ (- Z.neg pe)) (Z.pos m)) as [Hbig|Hsmall].
      * rewrite quantize_big by (done || lia).
        destruct s; cbn [cond_Zopp]; symmetry.
        -- apply quantize_Q_low. unfold Qle. cbn [Qnum Qden]. lia.
        -- apply quantize_Q_high. unfold Qle. cbn [Qnum Qden]. lia.
      * rewrite quantize_small by done.
        rewrite quantize_Q_mid by (destruct s; cbn [cond_Zopp]; lia).
        rewrite HD.
        pose proof (Hpos (- Z.neg pe) ltac:(lia)) as HpD.
        destruct s; cbn [cond_Zopp andb].
        -- destruct (Z.ltb_spec (2 ^ (- Z.neg pe)) (2 * Z.pos m));
             destruct (Z.ltb_spec (2 ^ (- Z.neg pe) + 2 * - Z.pos m) 0); try lia.
           ++ rewrite Z.mul_opp_l, Z.quot_opp_l, Z.quot_div_nonneg by lia. done.
           ++ rewrite Z.mul_opp_l, Z.quot_opp_l, Z.quot_div_nonneg by lia. done.
        -- destruct (Z.ltb_spec (2 ^ (- Z.neg pe) + 2 * Z.pos m) 0); [lia|].
           by rewrite Z.quot_div_nonneg by lia.
Qed.

Lemma Qtrunc_le a b : (a <= b)%Q -> Qtrunc a <= Qtrunc b.
Proof.
  destruct a as [n1 d1], b as [n2 d2]. unfold Qle, Qtrunc. cbn [Qnum Qden]. intros H.
  rewrite <- (Z.quot_mul_cancel_r n1 (Z.pos d1) (Z.pos d2)) by lia.
  rewrite <- (Z.quot_mul_cancel_r n2 (Z.pos d2) (Z.pos d1)) by lia.
  rewrite (Z.mul_comm (Z.pos d2) (Z.pos d1)).
  apply Z.quot_le_mono; lia.
Qed.

(** Lines 84-85 over the rationals never invert the order of two
    samples. *)
Lemma quantize_Q_le q1 q2 : (q1 <= q2)%Q -> quantize_Q q1 <= quantize_Q q2.
Proof.
  intros Hq. unfold quantize_Q.
  assert (Hc : (Qmax (-1) (Qmin 1 q1) <= Qmax (-1) (Qmin 1 q2))%Q).
  { apply Q.max_le_compat_l. by apply Q.min_le_compat_l. }
  set (c1 := Qmax (-1) (Qmin 1 q1)) in *. set (c2 := Qmax (-1) (Qmin 1 q2)) in *.
  destruct (Qlt_le_dec ((1 # 2) + c1) 0) as [H1|H1];
    destruct (Qlt_le_dec ((1 # 2) + c2) 0) as [H2|H2].
  - apply Qtrunc_le. apply Qmult_le_compat_r; [done | discriminate].
  - transitivity (Qtrunc (- (16384))%Q).
    + apply Qtrunc_le.
      destruct c1 as [n d]. unfold Qlt in H1. unfold Qle. cbn in *. lia.
    + transitivity (Qtrunc (- (32767 # 2))%Q); [vm_compute; discriminate|].
      apply Qtrunc_le.
      destruct c2 as [n d]. unfold Qle in *. cbn in *. lia.
  - exfalso. destruct c1 as [n1 d1], c2 as [n2 d2].
    unfold Qle, Qlt in *. cbn in *. nia.
  - apply Qtrunc_le. apply Qmult_le_compat_r; [done | discriminate].
Qed.

(** ** The samples of the fallback decoder, encoded again *)

Lemma sample_canonical_all : all_from (Z.to_nat 65536) (-32768) sample_canonical = true.
Proof. vm_compute. reflexivity. Qed.

(** The sample stored for a 16-bit integer is a canonical binary32. *)
Lemma sample_of_valid v :
  -32768 <= v <= 32767 ->
  valid_binary JS.prec32 JS.emax32 (PcmSpec.sample_of v) = true.
Proof.
  intros Hv.
  pose proof (all_from_spec _ _ _ v sample_exact_all) as Hex.
  pose proof (all_from_spec _ _ _ v sample_canonical_all) as Hcan.
  rewrite Z2Nat.id in Hex, Hcan by lia.
  specialize (Hex ltac:(lia)). specialize (Hcan ltac:(lia)).
  unfold sample_exact in Hex. unfold sample_canonical in Hcan.
  unfold PcmSpec.sample_of, Decode.rescale.
  destruct (JS.of_Z v) as [sz| | |s M E] eqn:Hof; try discriminate.
  - by destruct sz.
  - apply andb_prop in Hex as [Hex _]. apply andb_prop in Hex as [Hex HE2].
    apply andb_prop in Hex as [Hd HE1].
    apply Pos.eqb_eq in Hd. apply Z.leb_le in HE1, HE2.
    rewrite div_by_32768 by (done || lia). exact Hcan.
Qed.

(** Lines 84-85 over the rationals at [v / 32768]. *)
Lemma quantize_Q_int16 q v :
  (q == v # 32768)%Q -> -32768 <= v <= 32767 -> quantize_Q q = reencoded v.
Proof.
  destruct q as [n d]. unfold Qeq. cbn [Qnum Qden]. intros Hq Hv.
  unfold reencoded.
  destruct (Z.eq_dec v (-32768)) as [->|Hne].
  { rewrite quantize_Q_low by (unfold Qle; cbn [Qnum Qden]; lia). reflexivity. }
  assert (Hn : - Z.pos d < n < Z.pos d) by nia.
  rewrite quantize_Q_mid by done.
  destruct (Z.ltb_spec (Z.pos d + 2 * n) 0); destruct (Z.ltb_spec v (-16384)); try nia.
  - replace (n * 32768) with (v * Z.pos d) by lia. apply Z.quot_mul. lia.
  - destruct (Z.ltb_spec 0 v); [|destruct (Z.ltb_spec v 0)].
    + rewrite Z.quot_div_nonneg by lia. symmetry.
      apply Z.div_unique with (r := Z.pos d - n); lia.
    + replace (n * 32767) with (- (- n * 32767)) by lia.
      rewrite Z.quot_opp_l, Z.quot_div_nonneg by lia.
      assert ((- n * 32767) / Z.pos d = - v - 1); [|lia].
      symmetry. apply Z.div_unique with (r := Z.pos d + n); lia.
    + assert (v = 0) by lia. subst v. assert (n = 0) by lia. subst n. reflexivity.
Qed.

(** What the encoder makes of the sample the fallback decoder stored for
    the 16-bit integer [v]. *)
Lemma quantize_sample_of v :
  -32768 <= v <= 32767 ->
  Wav.quantize (JS.ToNumber (Some (PcmSpec.sample_of v))) = reencoded v.
Proof.
  intros Hv.
  destruct (sample_of_value v Hv) as (q & Hq & Heq).
  rewrite (quantize_to_Q _ q) by (by apply sample_of_valid || done).
  by apply quantize_Q_int16.
Qed.

(** ** Reading the output back *)

Lemma getInt16_app_r pre rest j :
  DataView.getInt16 (pre ++ rest) (length pre + j) = DataView.getInt16 rest j.
Proof.
  unfold DataView.getInt16.
  rewrite !lookup_app_r by lia.
  replace (length pre + j - length pre)%nat with j by lia.
  replace (S (length pre + j) - length pre)%nat with (S j) by lia.
  reflexivity.
Qed.

Lemma getInt16_zeros m j rest :
  (S j < m)%nat -> DataView.getInt16 (replicate m 0 ++ rest) j = Some 0.
Proof.
  intros Hj. unfold DataView.getInt16.
  rewrite !lookup_app_l by (rewrite length_replicate; lia).
  rewrite !lookup_replicate_2 by lia. reflexivity.
Qed.

Lemma getUint32_field out j :
  DataView.getUint32 out j = DataView.getUint32 (take 4 (drop j out)) 0.
Proof.
  unfold DataView.getUint32.
  rewrite !lookup_take_lt, !lookup_drop by lia.
  by rewrite Nat.add_0_r, !Nat.add_succ_r, Nat.add_0_r.
Qed.

Lemma getUint16_field out j :
  DataView.getUint16 out j = DataView.getUint16 (take 2 (drop j out)) 0.
Proof.
  unfold DataView.getUint16.
  rewrite !lookup_take_lt, !lookup_drop by lia.
  by rewrite Nat.add_0_r, !Nat.add_succ_r, Nat.add_0_r.
Qed.

(** The bytes written depend on the value modulo [256^n] only. *)
Lemma le_bytes_mod n : forall v, le_bytes n (v mod 256 ^ Z.of_nat n) = le_bytes n v.
Proof.
  induction n as [|n IH]; intros v; [reflexivity|].
  cbn [le_bytes].
  assert (Hp : 0 < 256 ^ Z.of_nat n) by (apply Z.pow_pos_nonneg; lia).
  rewrite Nat2Z.inj_succ, Z.pow_succ_r by lia.
  rewrite Z.rem_mul_r by lia.
  set (hi := (v / 256) mod 256 ^ Z.of_nat n).
  replace (v mod 256 + 256 * hi) with (v mod 256 + hi * 256) by lia.
  f_equal.
  - rewrite Z.mod_add by lia. apply Z.mod_mod. lia.
  - rewrite Z.div_add by lia.
    rewrite (Z.div_small (v mod 256)) by (apply Z.mod_pos_bound; lia).
    rewrite Z.add_0_l. apply IH.
Qed.

(** A 32-bit field read back is the value written, modulo 2^32. *)
Lemma getUint32_le_bytes_mod v :
  DataView.getUint32 (le_bytes 4 v) 0 = Some (v mod 2 ^ 32).
Proof.
  rewrite <- (le_bytes_mod 4 v). change (256 ^ Z.of_nat 4) with (2 ^ 32).
  rewrite <- (app_nil_r (le_bytes 4 _)).
  apply getUint32_le_bytes. apply Z.mod_pos_bound. lia.
Qed.

Lemma getUint16_le_bytes_mod v :
  DataView.getUint16 (le_bytes 2 v) 0 = Some (v mod 2 ^ 16).
Proof.
  rewrite <- (le_bytes_mod 2 v). change (256 ^ Z.of_nat 2) with (2 ^ 16).
  rewrite <- (app_nil_r (le_bytes 2 _)).
  apply getUint16_le_bytes. apply Z.mod_pos_bound. lia.
Qed.

(** Whatever is read from a channel of binary32 numbers, inside it or
    past its end, is quantized into the 16-bit signed range. *)
Lemma quantize_typed_get_range (ch : list JS.float32) p :
  Forall (fun x => valid_binary JS.prec32 JS.emax32 x = true) ch ->
  -32768 <= Wav.quantize (JS.ToNumber (typed_get ch p)) <= 32767.
Proof.
  intros Hch. apply quantize_range.
  destruct (typed_get ch p) as [x|] eqn:Hx; [|reflexivity].
  cbn [JS.ToNumber]. apply of_float32_valid.
  unfold typed_get in Hx. destruct (p <? 0); [discriminate|].
  rewrite Forall_forall in Hch. apply Hch.
  by eapply list_elem_of_lookup_2.
Qed.

(** Channel [c] of a frame sits at byte [2 * c] of the frame. *)
Lemma frame_bytes_slot p rest : forall chans c ch,
  chans !! c = Some ch ->
  Forall (Forall (fun x => valid_binary JS.prec32 JS.emax32 x = true)) chans ->
  DataView.getInt16 (WavSpec.frame_bytes chans p ++ rest) (2 * c)
  = Some (Wav.quantize (JS.ToNumber (typed_get ch p))).
Proof.
  unfold WavSpec.frame_bytes.
  induction chans as [|ch0 chans IH]; intros c ch Hc Hv; [done|].
  cbn [map concat]. rewrite <- app_assoc.
  destruct c as [|c].
  - injection Hc as ->.
    unfold WavSpec.sample_bytes. apply getInt16_le_bytes.
    apply quantize_typed_get_range. by inversion Hv.
  - replace (2 * S c)%nat with (length (WavSpec.sample_bytes ch0 p) + 2 * c)%nat
      by (unfold WavSpec.sample_bytes; rewrite length_le_bytes; lia).
    rewrite getInt16_app_r. apply IH; [done|]. by inversion Hv.
Qed.

(** Frame [first + k], channel [c] sits at byte [2 * (k * n + c)] of the
    frames, [n] being the number of channels. *)
Lemma frames_bytes_slot chans c ch rest :
  chans !! c = Some ch ->
  Forall (Forall (fun x => valid_binary JS.prec32 JS.emax32 x = true)) chans ->
  forall k d first, (k < d)%nat ->
  DataView.getInt16 (WavSpec.frames_bytes chans first d ++ rest)
    (2 * (k * length chans + c))
  = Some (Wav.quantize (JS.ToNumber (typed_get ch (first + Z.of_nat k)))).
Proof.
  intros Hc Hv. induction k as [|k IH]; intros d first Hk;
    (destruct d as [|d]; [lia|]); rewrite frames_bytes_S, <- app_assoc.
  - rewrite Z.add_0_r. cbn [Nat.mul Nat.add]. by apply frame_bytes_slot.
  - replace (2 * (S k * length chans + c))%nat
      with (length (WavSpec.frame_bytes chans first) + 2 * (k * length chans + c))%nat
      by (rewrite length_frame_bytes; lia).
    rewrite getInt16_app_r, IH by lia. do 4 f_equal. lia.
Qed.

(** Where the samples lie in the bytes the encoder returns. *)
Lemma data_slots b c ch k :
  AudioBuffer.valid b -> samples_valid b ->
  AudioBuffer.channelData b !! c = Some ch ->
  let out :=
    WavSpec.header b
      ++ WavSpec.frames_bytes (AudioBuffer.channelData b) 44
           (Z.to_nat (AudioBuffer.length b - 44))
      ++ replicate
           (Z.to_nat (2 * AudioBuffer.numberOfChannels b
                      * Z.min (AudioBuffer.length b) 44)) 0 in
  let slot := (44 + 2 * (k * length (AudioBuffer.channelData b) + c))%nat in
  (44 + Z.of_nat k < AudioBuffer.length b ->
   DataView.getInt16 out slot
   = Some (Wav.quantize (JS.ToNumber (typed_get ch (44 + Z.of_nat k))))) /\
  (AudioBuffer.length b - 44 <= Z.of_nat k < AudioBuffer.length b ->
   DataView.getInt16 out slot = Some 0).
Proof.
  intros Hv Hs Hc. destruct (valid_channels b Hv) as [Hlen Hn].
  cbv zeta.
  set (n := length (AudioBuffer.channelData b)) in *.
  pose proof (lookup_lt_Some _ _ _ Hc) as Hcn. fold n in Hcn.
  replace (44 + 2 * (k * n + c))%nat
    with (length (WavSpec.header b) + 2 * (k * n + c))%nat by reflexivity.
  rewrite !getInt16_app_r. split.
  - intros Hk. unfold n. rewrite (frames_bytes_slot _ c ch) by (done || lia). reflexivity.
  - intros Hk.
    set (d := Z.to_nat (AudioBuffer.length b - 44)).
    replace (2 * (k * n + c))%nat
      with (length (WavSpec.frames_bytes (AudioBuffer.channelData b) 44 d)
            + (2 * (k * n + c) - 2 * n * d))%nat
      by (rewrite length_frames_bytes; fold n; nia).
    rewrite getInt16_app_r.
    rewrite <- (app_nil_r (replicate _ 0)). apply getInt16_zeros.
    rewrite <- Hn.
    destruct (Z.le_gt_cases (AudioBuffer.length b) 44) as [Hle|Hgt].
    + rewrite Z.min_l by lia. replace d with 0%nat by lia. nia.
    + rewrite Z.min_r by lia. nia.
Qed.

Lemma ascii_bytes_range s : Forall (fun x => 0 <= x < 256) (ascii_bytes s).
Proof.
  unfold ascii_bytes. apply Forall_map, Forall_forall. intros c _. cbn.
  pose proof (N_ascii_bounded c). lia.
Qed.

(** The buffer the fallback returns is a well-formed encoder input. *)
Lemma fallback_buffer_valid pairs :
  pairs <> [] ->
  Forall (fun v => -32768 <= v <= 32767) pairs ->
  let b := AudioBuffer.mk 1 (Z.of_nat (length pairs)) 24000 [map PcmSpec.sample_of pairs] in
  AudioBuffer.valid b /\ samples_valid b.
Proof.
  intros Hne Hr b. split.
  - unfold AudioBuffer.valid, b. cbn. repeat split; try lia.
    constructor; [|constructor]. by rewrite length_map.
  - unfold samples_valid, b. cbn. constructor; [|constructor].
    apply Forall_map. eapply Forall_impl; [exact Hr|].
    intros v Hv. by apply sample_of_valid.
Qed.

Lemma silent_then_minus_two_valid : AudioBuffer.valid Inputs.silent_then_minus_two.
Proof.
  unfold AudioBuffer.valid. cbn.
  repeat split; try lia. repeat constructor.
Defined.

(** ** The encoder *)

(** X1. Where each sample ends up. For a valid buffer of binary32 samples,
    the 16-bit integer read back at data slot [k * n + c] ([n] channels,
    byte [44 + 2 * (k * n + c)]) is the quantized sample of channel [c] at
    frame [44 + k], not at frame [k], as long as frame [44 + k] exists; the
    slots of the last [min(length, 44)] frames read 0. *)
Theorem wav_data_slots b c ch k :
  AudioBuffer.valid b -> samples_valid b ->
  AudioBuffer.channelData b !! c = Some ch ->
  exists blob,
    Wav.audioBufferToWav b = Ok blob /\
    let n := length (AudioBuffer.channelData b) in
    let slot := (44 + 2 * (k * n + c))%nat in
    (44 + Z.of_nat k < AudioBuffer.length b ->
     DataView.getInt16 (blob_bytes blob) slot
     = Some (Wav.quantize (JS.ToNumber (typed_get ch (44 + Z.of_nat k))))) /\
    (AudioBuffer.length b - 44 <= Z.of_nat k < AudioBuffer.length b ->
     DataView.getInt16 (blob_bytes blob) slot = Some 0).
Proof.
  intros Hv Hs Hc. destruct (valid_channels b Hv) as [Hlen Hn].
  eexists. split; [by apply audioBufferToWav_eq|].
  cbn [blob_bytes]. by apply data_slots.
Qed.

Lemma wav_data_slots_witness :
  exists blob,
    Wav.audioBufferToWav Samples.forty_five_frames = Ok blob /\
    DataView.getInt16 (blob_bytes blob) 44 = Some (-32768) /\
    DataView.getInt16 (blob_bytes blob) 132 = Some 0.
Proof.
  destruct (wav_data_slots Samples.forty_five_frames 0%nat _ 0%nat forty_five_frames_valid
              ltac:(repeat constructor) eq_refl) as (blob & Hrun & H1 & _).
  destruct (wav_data_slots Samples.forty_five_frames 0%nat _ 44%nat forty_five_frames_valid
              ltac:(repeat constructor) eq_refl) as (blob' & Hrun' & _ & H2).
  exists blob. split; [exact Hrun|]. split.
  - exact (H1 ltac:(cbn; lia)).
  - rewrite Hrun in Hrun'. injection Hrun' as <-. exact (H2 ltac:(cbn; lia)).
Defined.

(** X2. The first 44 frames are never looked at: two valid buffers of the
    same shape that hold the same samples from frame 44 on are encoded to
    the same bytes, whatever their first 44 frames hold. *)
Theorem wav_ignores_first_44_frames b1 b2 :
  AudioBuffer.valid b1 -> AudioBuffer.valid b2 ->
  AudioBuffer.numberOfChannels b1 = AudioBuffer.numberOfChannels b2 ->
  AudioBuffer.sampleRate b1 = AudioBuffer.sampleRate b2 ->
  AudioBuffer.length b1 = AudioBuffer.length b2 ->
  (forall c p, 44 <= p < AudioBuffer.length b1 -> sample_at b1 c p = sample_at b2 c p) ->
  Wav.audioBufferToWav b1 = Wav.audioBufferToWav b2.
Proof.
  intros Hv1 Hv2 Hch Hrate Hl Hsame.
  destruct (valid_channels b1 Hv1) as [Hlen1 Hn1].
  destruct (valid_channels b2 Hv2) as [Hlen2 Hn2].
  rewrite (audioBufferToWav_eq b1), (audioBufferToWav_eq b2) by done.
  assert (Hhdr : WavSpec.header b1 = WavSpec.header b2).
  { unfold WavSpec.header, WavSpec.total_length. by rewrite Hch, Hrate, Hl. }
  rewrite Hhdr, Hch, Hl. do 4 f_equal.
  apply frames_bytes_ext; [lia|].
  intros c ch1 ch2 p H1 H2 Hp.
  specialize (Hsame c p ltac:(lia)).
  unfold sample_at in Hsame. by rewrite H1, H2 in Hsame.
Qed.

Lemma wav_ignores_first_44_frames_witness :
  sample_at Samples.forty_five_frames 0 0 <> sample_at Inputs.silent_then_minus_two 0 0 /\
  Wav.audioBufferToWav Samples.forty_five_frames
  = Wav.audioBufferToWav Inputs.silent_then_minus_two.
Proof.
  split; [discriminate|].
  apply wav_ignores_first_44_frames;
    [exact forty_five_frames_valid | exact silent_then_minus_two_valid
     | reflexivity | reflexivity | reflexivity |].
  intros c p Hp. cbn in Hp. assert (p = 44) as -> by lia.
  destruct c as [|c]; reflexivity.
Defined.

(** X3. Lines 84-85 are exact. For every array read (a binary32 number in
    canonical form, or [undefined] past the end) the integer computed in
    binary64 arithmetic is the one the same formula gives over the
    rationals: clamp to [-1, 1], times 32768 below -1/2 and times 32767
    otherwise, truncated toward zero; an infinity gives the end of the
    range, NaN and [undefined] give 0. *)
Theorem quantize_exact v :
  (forall x, v = Some x -> valid_binary JS.prec32 JS.emax32 x = true) ->
  Wav.quantize (JS.ToNumber v) = quantize_spec v.
Proof.
  intros Hv. destruct v as [x|]; [|reflexivity].
  specialize (Hv x eq_refl).
  destruct x as [s|s| |s m e].
  - by apply quantize_to_Q.
  - by destruct s.
  - reflexivity.
  - by apply quantize_to_Q.
Qed.

Lemma quantize_exact_witness :
  Wav.quantize (JS.ToNumber (Some Inputs.minus_three_quarters)) = -24576.
Proof.
  change (-24576) with (quantize_spec (Some Inputs.minus_three_quarters)).
  apply quantize_exact. intros x [= <-]. reflexivity.
Defined.

(** X4. Saturation. Every Number that compares at or above 1 (including
    positive infinity) is written as 32767, every Number at or below -1
    (including negative infinity) as -32768, and NaN as 0: no input wraps
    around. *)
Theorem quantize_saturates x :
  (SFleb (JS.of_Z 1) x = true -> Wav.quantize x = 32767) /\
  (SFleb x (JS.of_Z (-1)) = true -> Wav.quantize x = -32768) /\
  (x = JS.NaN -> Wav.quantize x = 0).
Proof.
  split; [|split].
  - unfold SFleb. intros Hle.
    assert (Hmin : JS.Math_min (JS.of_Z 1) x = JS.of_Z 1).
    { unfold JS.Math_min.
      destruct (SFcompare (JS.of_Z 1) x) as [[| |]|] eqn:Hc; try discriminate; [|done].
      destruct x as [[|]|[|]| |s m e]; try reflexivity; discriminate. }
    unfold Wav.quantize, Wav.clamp. rewrite Hmin. reflexivity.
  - unfold SFleb. intros Hle.
    assert (Hclamp : Wav.clamp x = JS.of_Z (-1)).
    { unfold Wav.clamp, JS.Math_min, JS.Math_max.
      change (JS.of_Z 1) with (S754_finite false 4503599627370496 (-52)).
      change (JS.of_Z (-1)) with (S754_finite true 4503599627370496 (-52)) in *.
      destruct x as [[|]|[|]| |[|] m e]; try discriminate; try reflexivity.
      cbn [SFcompare] in Hle |- *.
      rewrite (Z.compare_antisym e (-52)).
      destruct (e ?= -52) eqn:He; cbn [CompOpp] in Hle |- *; try discriminate;
        [|reflexivity].
      rewrite (Pos.compare_cont_antisym 4503599627370496 m Eq). cbn [CompOpp].
      destruct (Pos.compare_cont Eq m 4503599627370496) eqn:Hm;
        cbn [CompOpp] in Hle |- *; try discriminate; reflexivity. }
    unfold Wav.quantize. rewrite Hclamp. reflexivity.
  - intros ->. reflexivity.
Qed.

Lemma quantize_saturates_witness :
  Wav.quantize (S754_infinity false) = 32767 /\
  Wav.quantize (S754_infinity true) = -32768.
Proof.
  split.
  - exact (proj1 (quantize_saturates (S754_infinity false)) eq_refl).
  - exact (proj1 (proj2 (quantize_saturates (S754_infinity true))) eq_refl).
Defined.

(** X5. Monotonicity. Of two binary32 samples, the one with the larger
    value is never written as the smaller integer: neither the clamp nor
    the change of the scale factor at -1/2 inverts an order. *)
Theorem quantize_monotone y1 y2 q1 q2 :
  valid_binary JS.prec32 JS.emax32 y1 = true ->
  valid_binary JS.prec32 JS.emax32 y2 = true ->
  JS.to_Q y1 = Some q1 -> JS.to_Q y2 = Some q2 ->
  (q1 <= q2)%Q ->
  Wav.quantize (JS.ToNumber (Some y1)) <= Wav.quantize (JS.ToNumber (Some y2)).
Proof.
  intros Hv1 Hv2 Hq1 Hq2 Hle.
  rewrite (quantize_to_Q y1 q1), (quantize_to_Q y2 q2) by done.
  by apply quantize_Q_le.
Qed.

Lemma quantize_monotone_witness :
  Wav.quantize (JS.ToNumber (Some Inputs.minus_three_quarters))
  <= Wav.quantize (JS.ToNumber (Some Samples.one)).
Proof.
  apply (quantize_monotone Inputs.minus_three_quarters Samples.one
           (-12582912 # 16777216) (8388608 # 8388608));
    [reflexivity | reflexivity | reflexivity | reflexivity | unfold Qle; cbn; lia].
Defined.

(** X6. The sizes in the header. For every valid buffer the two size
    fields read back as the file length minus 8 and minus 44, modulo 2^32,
    hence exactly when the file is shorter than 4 GiB; the block-align
    field is twice the channel count modulo 2^16; and the data length is
    the frame count times two bytes per channel. *)
Theorem wav_header_sizes b :
  AudioBuffer.valid b ->
  exists blob,
    Wav.audioBufferToWav b = Ok blob /\
    let out := blob_bytes blob in
    let size := Z.of_nat (length out) in
    DataView.getUint32 out 4 = Some ((size - 8) mod 2 ^ 32) /\
    DataView.getUint32 out 40 = Some ((size - 44) mod 2 ^ 32) /\
    DataView.getUint16 out 32 = Some ((AudioBuffer.numberOfChannels b * 2) mod 2 ^ 16) /\
    size - 44 = AudioBuffer.length b * (AudioBuffer.numberOfChannels b * 2) /\
    (size < 2 ^ 32 ->
     DataView.getUint32 out 4 = Some (size - 8) /\
     DataView.getUint32 out 40 = Some (size - 44)).
Proof.
  intros Hv. destruct (valid_channels b Hv) as [Hlen Hn].
  pose proof Hv as (Hpos & _).
  eexists. split; [by apply audioBufferToWav_eq|].
  cbv zeta. cbn [blob_bytes].
  rewrite wav_bytes_length by done.
  assert (Htot : 44 <= WavSpec.total_length b) by (unfold WavSpec.total_length; nia).
  set (rest := _ ++ replicate _ 0).
  assert (H4 : DataView.getUint32 (WavSpec.header b ++ rest) 4
               = Some ((WavSpec.total_length b - 8) mod 2 ^ 32)).
  { rewrite getUint32_field.
    change (take 4 (drop 4 (WavSpec.header b ++ rest)))
      with (le_bytes 4 (WavSpec.total_length b - 8)).
    apply getUint32_le_bytes_mod. }
  assert (H40 : DataView.getUint32 (WavSpec.header b ++ rest) 40
                = Some ((WavSpec.total_length b - 44) mod 2 ^ 32)).
  { rewrite getUint32_field.
    change (take 4 (drop 40 (WavSpec.header b ++ rest)))
      with (le_bytes 4 (WavSpec.total_length b - 44)).
    apply getUint32_le_bytes_mod. }
  split; [exact H4|]. split; [exact H40|]. split; [|split].
  - rewrite getUint16_field.
    change (take 2 (drop 32 (WavSpec.header b ++ rest)))
      with (le_bytes 2 (AudioBuffer.numberOfChannels b * 2)).
    apply getUint16_le_bytes_mod.
  - unfold WavSpec.total_length. lia.
  - intros Hfit. rewrite H4, H40. rewrite !Z.mod_small by lia. done.
Qed.

Lemma wav_header_sizes_witness :
  exists blob,
    Wav.audioBufferToWav Samples.forty_five_frames = Ok blob /\
    length (blob_bytes blob) = 134%nat /\
    DataView.getUint32 (blob_bytes blob) 4 = Some 126 /\
    DataView.getUint32 (blob_bytes blob) 40 = Some 90.
Proof.
  destruct (wav_header_sizes Samples.forty_five_frames forty_five_frames_valid)
    as (blob & Hrun & _ & _ & _ & _ & Hfit).
  assert (Hl : length (blob_bytes blob) = 134%nat).
  { revert Hrun. vm_compute. by intros [= <-]. }
  cbv zeta in Hfit. rewrite Hl in Hfit.
  destruct (Hfit eq_refl) as [H4 H40].
  exists blob.
  split; [exact Hrun|]. split; [exact Hl|]. split; [exact H4 | exact H40].
Defined.

(** ** The fallback decoder *)

(** X7. What the fallback returns is a legal input of the encoder. For
    every non-empty payload of even length the buffer returned satisfies
    the invariant of the data model (one channel holding exactly [length]
    samples, [length] half the byte count), every sample is a binary32
    number in canonical form, and every sample lies in [-1, 1). *)
Theorem manual_decode_buffer_valid h l n0 ctx data :
  h !! l = Some (Heap.Attached data) ->
  Forall (fun x => 0 <= x < 256) data ->
  Nat.even (length data) = true ->
  data <> [] ->
  exists b,
    Decode.manualPCMDecode (Decode.mkTypedArray l n0) ctx h = (Ok b, h) /\
    AudioBuffer.valid b /\
    samples_valid b /\
    AudioBuffer.numberOfChannels b = 1 /\
    2 * AudioBuffer.length b = Z.of_nat (length data) /\
    (forall p x, sample_at b 0 p = Some x ->
       exists q, JS.to_Q x = Some q /\ (-1 <= q)%Q /\ (q < 1)%Q).
Proof.
  intros Hl Hbytes He Hne.
  pose proof (le_int16s_range data Hbytes) as Hr.
  destruct (length_le_int16s data) as [_ H2]. specialize (H2 He).
  set (pairs := PcmSpec.le_int16s data) in *.
  assert (Hpne : pairs <> [])
    by (intros E; rewrite E in H2; destruct data; [done | simpl in H2; lia]).
  destruct (fallback_buffer_valid pairs Hpne Hr) as [Hvalid Hsv].
  eexists. split; [by apply manualPCMDecode_run|].
  fold pairs. split; [exact Hvalid|]. split; [exact Hsv|].
  split; [reflexivity|]. split; [cbn; lia|].
  intros p x Hx. unfold sample_at in Hx. cbn in Hx.
  unfold typed_get in Hx. destruct (p <? 0); [discriminate|].
  rewrite list_lookup_fmap in Hx.
  destruct (pairs !! Z.to_nat p) as [v|] eqn:Hv; [|discriminate].
  injection Hx as <-.
  rewrite Forall_forall in Hr.
  pose proof (Hr v (list_elem_of_lookup_2 _ _ _ Hv)) as Hvr.
  destruct (sample_of_value v Hvr) as (q & Hq & Heq).
  exists q. split; [exact Hq|]. rewrite Heq.
  split; [unfold Qle | unfold Qlt]; cbn; lia.
Qed.

Lemma manual_decode_buffer_valid_witness :
  exists b,
    Decode.manualPCMDecode (Decode.mkTypedArray 0 4) Fixtures.rejecting_ctx
      [Heap.Attached [0; 64; 0; 192]]
    = (Ok b, [Heap.Attached [0; 64; 0; 192]]) /\
    AudioBuffer.valid b /\ samples_valid b /\ AudioBuffer.length b = 2.
Proof.
  destruct (manual_decode_buffer_valid [Heap.Attached [0; 64; 0; 192]] 0%nat 4
              Fixtures.rejecting_ctx [0; 64; 0; 192] eq_refl
              ltac:(repeat constructor; lia) eq_refl ltac:(discriminate))
    as (b & Hrun & Hv & Hs & _ & Hlen & _).
  exists b. split; [exact Hrun|]. split; [exact Hv|]. split; [exact Hs|].
  cbn in Hlen. lia.
Defined.

(** X8. Decoding and encoding again is not the identity. The sample the
    fallback stores for the 16-bit integer [v] is written by the encoder as
    [v] itself only for [v < -16384] and [v = 0]; a positive [v] comes back
    as [v - 1] and a negative [v >= -16384] as [v + 1]. The magnitude never
    grows, and the difference is at most 1. *)
Theorem pcm_roundtrip v :
  -32768 <= v <= 32767 ->
  let w := Wav.quantize (JS.ToNumber (Some (PcmSpec.sample_of v))) in
  w = reencoded v /\
  (w = v <-> v < -16384 \/ v = 0) /\
  Z.abs w <= Z.abs v /\
  Z.abs (w - v) <= 1.
Proof.
  intros Hv w. unfold w. rewrite quantize_sample_of by done.
  unfold reencoded.
  destruct (Z.ltb_spec v (-16384)); [lia|].
  destruct (Z.ltb_spec 0 v); [lia|].
  destruct (Z.ltb_spec v 0); lia.
Qed.

Lemma pcm_roundtrip_witness :
  Wav.quantize (JS.ToNumber (Some (PcmSpec.sample_of 16384))) = 16383 /\
  Wav.quantize (JS.ToNumber (Some (PcmSpec.sample_of (-16385)))) = -16385.
Proof.
  split.
  - exact (proj1 (pcm_roundtrip 16384 ltac:(lia))).
  - exact (proj1 (pcm_roundtrip (-16385) ltac:(lia))).
Defined.

(** X9. When the container decoder rejects the payload, [decodeAudioData]
    returns a buffer exactly for the non-empty payloads of even length; it
    throws NotSupportedError on the empty payload and RangeError on a
    payload of odd length. *)
Theorem decode_fallback_outcomes atob base64Data binaryString ctx h e :
  atob base64Data = Ok binaryString ->
  let payload := ascii_bytes binaryString in
  let outcome := fst (Decode.decodeAudioData atob base64Data ctx h) in
  Decode.container_decode ctx payload = Throw e ->
  (payload = [] -> outcome = Throw NotSupportedError) /\
  (Nat.even (length payload) = false -> outcome = Throw RangeError) /\
  ((exists b, outcome = Ok b) <-> payload <> [] /\ Nat.even (length payload) = true).
Proof.
  intros Hatob payload outcome He. unfold outcome.
  rewrite (decodeAudioData_eq atob base64Data binaryString ctx h Hatob).
  fold payload. rewrite He.
  assert (Hl : (h ++ [Heap.Attached payload; Heap.Detached]) !! length h
               = Some (Heap.Attached payload))
    by apply (list_lookup_middle h [Heap.Detached]), eq_refl.
  assert (Hempty : payload = [] ->
    fst (Decode.manualPCMDecode
           (Decode.mkTypedArray (length h) (Z.of_nat (String.length binaryString))) ctx
           (h ++ [Heap.Attached payload; Heap.Detached])) = Throw NotSupportedError).
  { intros Hp. rewrite Hp in Hl |- *. by rewrite manualPCMDecode_empty. }
  assert (Hodd : Nat.even (length payload) = false ->
    fst (Decode.manualPCMDecode
           (Decode.mkTypedArray (length h) (Z.of_nat (String.length binaryString))) ctx
           (h ++ [Heap.Attached payload; Heap.Detached])) = Throw RangeError).
  { intros Hp. by erewrite manualPCMDecode_odd. }
  split; [exact Hempty|]. split; [exact Hodd|]. split.
  - intros [b Hb]. split.
    + intros Hp. rewrite (Hempty Hp) in Hb. discriminate.
    + destruct (Nat.even (length payload)) eqn:Hev; [done|].
      rewrite (Hodd eq_refl) in Hb. discriminate.
  - intros [Hne Hev]. eexists. by erewrite manualPCMDecode_run.
Qed.

Lemma decode_fallback_outcomes_witness :
  fst (Decode.decodeAudioData Fixtures.atob EmptyString Fixtures.rejecting_ctx [])
  = Throw NotSupportedError /\
  fst (Decode.decodeAudioData Fixtures.atob "YQ==" Fixtures.rejecting_ctx [])
  = Throw RangeError /\
  exists b, fst (Decode.decodeAudioData Fixtures.atob "AEAAwA==" Fixtures.rejecting_ctx [])
            = Ok b.
Proof.
  split; [|split].
  - exact (proj1 (decode_fallback_outcomes Fixtures.atob EmptyString EmptyString
                    Fixtures.rejecting_ctx [] EncodingError eq_refl eq_refl) eq_refl).
  - exact (proj1 (proj2 (decode_fallback_outcomes Fixtures.atob "YQ==" "a"
                           Fixtures.rejecting_ctx [] EncodingError eq_refl eq_refl))
             eq_refl).
  - apply (proj2 (proj2 (decode_fallback_outcomes Fixtures.atob "AEAAwA==" Fixtures.pcm_pair
                           Fixtures.rejecting_ctx [] EncodingError eq_refl eq_refl))).
    split; [discriminate | reflexivity].
Defined.

(** ** The application *)

(** X10. What [handleGenerate] stores for a headerless PCM answer. When
    the container decoder rejects a non-empty payload of even length, the
    decode and the encode both succeed, and the WAV kept in the history is
    44 bytes longer than the payload and declares one channel, 24000 Hz and
    16 bits; but its data is not the payload: sample [k] of the data is the
    re-encoding of sample [44 + k] of the payload, and the last
    [min(n, 44)] of the [n] samples are 0. *)
Theorem decode_then_encode atob base64Audio binaryString ctx h e k :
  atob base64Audio = Ok binaryString ->
  let payload := ascii_bytes binaryString in
  let pairs := PcmSpec.le_int16s payload in
  Decode.container_decode ctx payload = Throw e ->
  Nat.even (length payload) = true ->
  payload <> [] ->
  exists blob,
    fst (App.decode_and_encode atob base64Audio ctx h) = Ok blob /\
    let out := blob_bytes blob in
    length out = (44 + length payload)%nat /\
    DataView.getUint16 out 22 = Some 1 /\
    DataView.getUint32 out 24 = Some 24000 /\
    DataView.getUint16 out 34 = Some 16 /\
    (forall v, pairs !! (44 + k)%nat = Some v ->
       DataView.getInt16 out (44 + 2 * k) = Some (reencoded v)) /\
    ((length pairs <= 44 + k)%nat -> (k < length pairs)%nat ->
       DataView.getInt16 out (44 + 2 * k) = Some 0).
Proof.
  intros Hatob payload pairs He Hev Hne.
  pose proof (le_int16s_range payload (ascii_bytes_range binaryString)) as Hr.
  destruct (length_le_int16s payload) as [_ H2]. specialize (H2 Hev).
  fold pairs in Hr, H2.
  assert (Hpne : pairs <> []).
  { intros E. rewrite E in H2. destruct payload; [done | simpl in H2; lia]. }
  set (b := AudioBuffer.mk 1 (Z.of_nat (length pairs)) 24000 [map PcmSpec.sample_of pairs]).
  destruct (fallback_buffer_valid pairs Hpne Hr) as [Hvalid Hsv]. fold b in Hvalid, Hsv.
  destruct (valid_channels b Hvalid) as [Hlen Hn].
  assert (Hdec : Decode.decodeAudioData atob base64Audio ctx h
                 = (Ok b, h ++ [Heap.Attached payload; Heap.Detached])).
  { rewrite (decodeAudioData_eq atob base64Audio binaryString ctx h Hatob).
    fold payload. rewrite He.
    erewrite manualPCMDecode_run; [reflexivity | | exact Hev | exact Hne].
    by apply (list_lookup_middle h [Heap.Detached]). }
  eexists. split.
  { unfold App.decode_and_encode, mbind, Heap.M_bind, Heap.lift.
    rewrite Hdec, (audioBufferToWav_eq b) by done. reflexivity. }
  cbv zeta. cbn [blob_bytes].
  pose proof (data_slots b 0%nat (map PcmSpec.sample_of pairs) k Hvalid Hsv eq_refl)
    as Hslots.
  cbv zeta in Hslots. destruct Hslots as [Hdata Hzero].
  replace (44 + 2 * (k * length (AudioBuffer.channelData b) + 0))%nat
    with (44 + 2 * k)%nat in Hdata, Hzero by (cbn; lia).
  set (rest := _ ++ replicate _ 0) in *.
  split; [|split; [|split; [|split; [|split]]]].
  - apply Nat2Z.inj. unfold rest. rewrite (wav_bytes_length b) by done.
    unfold WavSpec.total_length, b. cbn. lia.
  - rewrite getUint16_field. reflexivity.
  - rewrite getUint32_field. reflexivity.
  - rewrite getUint16_field. reflexivity.
  - intros v Hv. rewrite Hdata by (apply lookup_lt_Some in Hv; cbn; lia).
    unfold typed_get. destruct (Z.ltb_spec (44 + Z.of_nat k) 0); [lia|].
    replace (Z.to_nat (44 + Z.of_nat k)) with (44 + k)%nat by lia.
    rewrite list_lookup_fmap, Hv. cbn [fmap option_fmap option_map].
    f_equal. apply quantize_sample_of.
    rewrite Forall_forall in Hr. apply Hr. by eapply list_elem_of_lookup_2.
  - intros Hge Hlt. apply Hzero. cbn. lia.
Qed.

Lemma decode_then_encode_witness :
  exists blob,
    fst (App.decode_and_encode Inputs.atob Inputs.base64_45 Fixtures.rejecting_ctx [])
    = Ok blob /\
    length (blob_bytes blob) = 134%nat /\
    PcmSpec.le_int16s (ascii_bytes Inputs.pcm_45) !! 44%nat = Some 16384 /\
    DataView.getInt16 (blob_bytes blob) 44 = Some 16383.
Proof.
  destruct (decode_then_encode Inputs.atob Inputs.base64_45 Inputs.pcm_45
              Fixtures.rejecting_ctx [] EncodingError 0 eq_refl eq_refl eq_refl
              ltac:(vm_compute; discriminate))
    as (blob & Hrun & Hlen & _ & _ & _ & Hdata & _).
  exists blob.
  split; [exact Hrun|]. split; [exact Hlen|]. split; [reflexivity|].
  exact (Hdata 16384 eq_refl).
Defined.

Ltac in_list := cbn; repeat (first [left; reflexivity | right]).

(** X11. The voice sent to the speech API. [getApiVoiceName] maps each of
    the ten ids of [VOICES] to the API voice of its entry (the ids are
    pairwise different, so the first match is the entry), maps every other
    string to Puck, always returns one of the six API voices the table
    names, and is idempotent: mapping an already mapped name changes
    nothing. *)
Theorem getApiVoiceName_spec :
  (forall v, In v App.VOICES ->
     App.getApiVoiceName (VoiceOption.id v) = VoiceOption.apiName v) /\
  (forall id, ~ In id (map VoiceOption.id App.VOICES) ->
     App.getApiVoiceName id = "Puck"%string) /\
  (forall id, In (App.getApiVoiceName id) api_voices) /\
  (forall id, App.getApiVoiceName (App.getApiVoiceName id) = App.getApiVoiceName id).
Proof.
  assert (Hcases : forall id,
    (In id (map VoiceOption.id App.VOICES) /\
     exists v, In v App.VOICES /\ VoiceOption.id v = id /\
               App.getApiVoiceName id = VoiceOption.apiName v) \/
    (~ In id (map VoiceOption.id App.VOICES) /\ App.getApiVoiceName id = "Puck"%string)).
  { intros id. unfold App.getApiVoiceName, App.VOICES. cbn [find VoiceOption.id map].
    repeat match goal with
    | |- context [String.eqb ?a id] =>
        let E := fresh "E" in
        destruct (String.eqb a id) eqn:E;
          [apply String.eqb_eq in E; subst id; left;
           split; [in_list | eexists; split; [|split; [|reflexivity]];
                             [in_list | reflexivity]]
          | apply String.eqb_neq in E]
    end.
    right. split; [|reflexivity]. cbn. tauto. }
  split; [|split; [|split]].
  - intros v Hv. cbn in Hv.
    repeat (destruct Hv as [<-|Hv]; [reflexivity|]). contradiction.
  - intros id Hid. destruct (Hcases id) as [[Hin _]|[_ H]]; [contradiction | exact H].
  - intros id. destruct (Hcases id) as [(_ & v & Hv & _ & ->)|[_ ->]]; [|in_list].
    cbn in Hv. repeat (destruct Hv as [<-|Hv]; [in_list|]). contradiction.
  - intros id. destruct (Hcases id) as [(_ & v & Hv & _ & ->)|[_ ->]]; [|reflexivity].
    cbn in Hv. repeat (destruct Hv as [<-|Hv]; [reflexivity|]). contradiction.
Qed.

Lemma getApiVoiceName_spec_witness :
  App.getApiVoiceName "Orpheus" = "Puck"%string /\
  App.getApiVoiceName "Nobody" = "Puck"%string.
Proof.
  destruct getApiVoiceName_spec as (Hid & Hother & _ & _).
  split.
  - apply (Hid (VoiceOption.mk "Orpheus" "Hombre 5 (Narrador)" "Puck" Male)). in_list.
  - apply Hother. cbn. intuition discriminate.
Defined.

Lemma updater_consistent u s :
  settings_consistent s -> App.offered s u -> settings_consistent (App.updater u s).
Proof.
  destruct s as [language voiceId accent style speed pitch].
  unfold settings_consistent, App.availableAccents.
  intros [Ha Hv] Hu.
  destruct u; cbn in Hu |- *; try tauto; split; try done; in_list.
Qed.

(** X12. The settings stay consistent. Starting from the initial settings,
    after any run of the controls in which each select delivers one of the
    options it offers, the accent is one of the accents of the selected
    language (a language button resets it to Spain or US), and the voice id
    is an id of [VOICES], so that [getApiVoiceName] returns the API voice
    of that entry and never takes its fallback. *)
Theorem settings_stay_consistent us :
  App.offered_run App.initialSettings us ->
  let s := fold_left (fun s u => App.updater u s) us App.initialSettings in
  In (AudioSettings.accent s) (App.availableAccents s) /\
  (exists v, In v App.VOICES /\ VoiceOption.id v = AudioSettings.voiceId s /\
             App.getApiVoiceName (AudioSettings.voiceId s) = VoiceOption.apiName v).
Proof.
  intros Hrun s.
  assert (Hc : settings_consistent s).
  { unfold s. clear s.
    assert (H0 : settings_consistent App.initialSettings) by (split; in_list).
    revert Hrun H0. generalize App.initialSettings as s0.
    induction us as [|u us IH]; intros s0 Hrun H0; [exact H0|].
    destruct Hrun as [Hu Hrun]. cbn [fold_left].
    apply IH; [exact Hrun|]. by apply updater_consistent. }
  destruct Hc as [Ha Hv]. split; [exact Ha|].
  apply in_map_iff in Hv as (v & Hid & Hv).
  exists v. split; [exact Hv|]. split; [exact Hid|].
  rewrite <- Hid. cbn in Hv.
  repeat (destruct Hv as [<-|Hv]; [reflexivity|]). contradiction.
Qed.

Lemma settings_stay_consistent_witness :
  let s := App.updater (App.SelectAccent UK)
             (App.updater App.ClickEnglish
                (App.updater (App.SelectVoice "Leto") App.initialSettings)) in
  AudioSettings.language s = English /\
  In (AudioSettings.accent s) App.ENGLISH_ACCENTS /\
  App.getApiVoiceName (AudioSettings.voiceId s) = "Aoede"%string.
Proof.
  intros s.
  destruct (settings_stay_consistent
              [App.SelectVoice "Leto"; App.ClickEnglish; App.SelectAccent UK])
    as (Ha & v & Hv & Hid & Hn).
  { cbn. repeat split; in_list. }
  split; [reflexivity|]. split; [exact Ha|]. reflexivity.
Defined.

(** X13. Removing from the history. The delete button keeps exactly the
    items whose id differs from the id of the item clicked, so it removes
    every item that shares that id; removing a second time changes nothing;
    and when no older item has the id of a new item, adding the new item
    and removing it again gives the history back. *)
Theorem history_remove item prev :
  let rest := App.removeFromHistory item prev in
  (forall h, In h rest <-> In h prev /\ HistoryItem.id h <> HistoryItem.id item) /\
  ((forall h, In h prev -> HistoryItem.id h <> HistoryItem.id item) ->
   rest = prev /\ App.removeFromHistory item (App.addToHistory item prev) = prev) /\
  App.removeFromHistory item rest = rest /\
  (length rest <= length prev)%nat.
Proof.
  cbv zeta. unfold App.removeFromHistory, App.addToHistory.
  set (keep := fun h => negb (String.eqb (HistoryItem.id h) (HistoryItem.id item))).
  assert (Hkeep : forall h, keep h = true <-> HistoryItem.id h <> HistoryItem.id item).
  { intros h. unfold keep. rewrite negb_true_iff. apply String.eqb_neq. }
  assert (Hall : forall l, (forall h, In h l -> keep h = true) -> List.filter keep l = l).
  { induction l as [|h l IH]; intros Hl; [done|]. cbn [List.filter].
    rewrite (Hl h (or_introl eq_refl)). f_equal. apply IH. intros h' Hh'. apply Hl. by right. }
  split; [|split; [|split]].
  - intros h. rewrite filter_In, Hkeep. reflexivity.
  - intros Hfresh.
    assert (Hprev : List.filter keep prev = prev).
    { apply Hall. intros h Hh. apply Hkeep. by apply Hfresh. }
    split; [exact Hprev|]. cbn [List.filter].
    replace (keep item) with false; [exact Hprev|].
    unfold keep. by rewrite String.eqb_refl.
  - apply Hall. intros h Hh. apply filter_In in Hh. tauto.
  - apply filter_length_le.
Qed.

Lemma history_remove_witness :
  let older := Inputs.item "1700000000000" "uno" in
  let newer := Inputs.item "1700000000001" "dos" in
  let twin := Inputs.item "1700000000001" "tres" in
  App.removeFromHistory newer (App.addToHistory newer [older]) = [older] /\
  App.removeFromHistory newer (App.addToHistory newer [twin; older]) = [older].
Proof.
  intros older newer twin. split.
  - apply (proj1 (proj2 (history_remove newer [older]))).
    intros h [<-|[]]. discriminate.
  - reflexivity.
Defined.
